(** * Two-phase simplex (simplex.py): a shallow embedding and its properties

    The tableau entries are IEEE doubles in the program.  The solver is
    embedded over exact rationals in canonical form ([Qc]): every test
    against the tolerance 1e-10, every index computation and every read
    or write of an array is as in the program, and the elimination
    arithmetic is field arithmetic.  Three places where the program
    leaves that idealisation are modelled explicitly:
    - [np.divide(b, coefs, where=mask)] is called without [out=]: numpy
      allocates the result with [np.empty] and the slots where the mask is
      false keep whatever the allocator returned.  The contents of that
      fresh buffer are an explicit argument ([uninit]) of the model;
    - the ratio array holds [float('Inf')], so its elements are extended
      values ([bound]); a division by a zero pivot, which yields inf/nan
      entries in numpy and no exception, cannot be held by a rational
      tableau and ends the model run with [NonFinite];
    - the rounding of the pivot: lines 51-55 are embedded a second time
      on binary64 numbers (module [F64], primitive floats), to state
      what the product with the elementary matrix is as the program
      computes it. *)

From Stdlib Require Import List ZArith QArith Qcanon Bool Lia Arith.
From Stdlib Require Import Floats.
Import ListNotations.

Open Scope Qc_scope.

(** ** Numbers *)

Definition Qcltb (x y : Qc) : bool :=
  match x ?= y with Lt => true | _ => false end.

Definition Qceqb (x y : Qc) : bool :=
  match x ?= y with Eq => true | _ => false end.

Definition Qcabs' (x : Qc) : Qc := if Qcltb x 0 then - x else x.

(** The literal [1e-10] of the program. *)
Definition eps : Qc := Q2Qc (1 # 10000000000).

(** Elements of the ratio array: a finite double, [float('Inf')], or a NaN
    bit pattern (only the raw buffer can hold one).  A raw [-inf] behaves
    like any finite value below the tolerance and is not listed apart. *)
Inductive bound : Type :=
| Fin (q : Qc)
| Inf
| NaN.

(** ** numpy arrays *)

Inductive np_dtype : Type := float64 | int64 | bool_ | object_.

(** [np.issubdtype(dt, np.integer)] and [np.issubdtype(dt, np.float)],
    for a numpy in which [np.float] still names the builtin [float] (the
    alias is gone from numpy 1.24 on, where line 14 raises
    AttributeError on every call). *)
Definition is_integer (dt : np_dtype) : bool :=
  match dt with int64 => true | _ => false end.

Definition is_float (dt : np_dtype) : bool :=
  match dt with float64 => true | _ => false end.

(** An array argument as the entry checks see it: its dtype, its number
    of dimensions and, for one and two dimensions, its contents. *)
Inductive ndarray (A : Type) : Type :=
| Arr1 (dt : np_dtype) (v : list A)
| Arr2 (dt : np_dtype) (m : list (list A))
| ArrN (dt : np_dtype) (extra : nat).
Arguments Arr1 {A} dt v.
Arguments Arr2 {A} dt m.
Arguments ArrN {A} dt extra.

Definition ndim {A} (a : ndarray A) : nat :=
  match a with
  | Arr1 _ _ => 1
  | Arr2 _ _ => 2
  | ArrN _ k => 3 + k
  end.

Definition dtype {A} (a : ndarray A) : np_dtype :=
  match a with
  | Arr1 dt _ | Arr2 dt _ | ArrN dt _ => dt
  end.

Definition matrix := list (list Qc).

Definition n_rows (T : matrix) : nat := length T.
Definition n_columns (T : matrix) : nat := length (hd [] T).

Definition rectangular (T : matrix) : Prop :=
  Forall (fun r => length r = n_columns T) T.

Definition entry (T : matrix) (r j : nat) : Qc := nth j (nth r T []) 0.

Definition column (j : nat) (T : matrix) : list Qc :=
  map (fun r => nth j r 0) T.

(** numpy index normalisation on an axis of length [len]: negative indices
    count from the end, anything else out of range is an IndexError. *)
Definition norm_index (len : nat) (i : Z) : option nat :=
  if ((0 <=? i) && (i <? Z.of_nat len))%Z then Some (Z.to_nat i)
  else if ((- Z.of_nat len <=? i) && (i <? 0))%Z
       then Some (Z.to_nat (Z.of_nat len + i))
       else None.

Fixpoint norm_indices (len : nat) (idx : list Z) : option (list nat) :=
  match idx with
  | [] => Some []
  | i :: rest =>
      match norm_index len i, norm_indices len rest with
      | Some k, Some ks => Some (k :: ks)
      | _, _ => None
      end
  end.

(** [l[k] = v] for an index already normalised. *)
Fixpoint update {A} (k : nat) (v : A) (l : list A) : list A :=
  match l, k with
  | [], _ => []
  | _ :: t, O => v :: t
  | x :: t, S k' => x :: update k' v t
  end.

(** [a[idx]] with an index array: a fresh copy of the selected entries. *)
Definition gather (a : list Qc) (idx : list Z) : option (list Qc) :=
  option_map (map (fun k => nth k a 0)) (norm_indices (length a) idx).

(** [a[idx] = vals] for index and value lists of equal length: the
    assignments happen in index order, so a repeated index keeps the last
    value. *)
Fixpoint scatter_at (a : list Qc) (ks : list nat) (vals : list Qc) : list Qc :=
  match ks, vals with
  | k :: ks', v :: vals' => scatter_at (update k v a) ks' vals'
  | _, _ => a
  end.

Inductive error : Type :=
| InvalidInput      (* AssertionError of the entry checks *)
| Unbounded         (* ValueError "no bound found for this LP" *)
| Infeasible        (* ValueError "phase 1 failed" *)
| IndexError        (* an index outside its axis *)
| ShapeError        (* ValueError for operands that do not broadcast/align *)
| NonFinite         (* division by a zero pivot: inf/nan, outside the model *)
| OutOfFuel.        (* the model's iteration budget is used up *)

(** [a[idx] = vals], with numpy's broadcast of a one-element value. *)
Definition scatter (a : list Qc) (idx : list Z) (vals : list Qc)
  : error + list Qc :=
  match norm_indices (length a) idx with
  | None => inl IndexError
  | Some ks =>
      if length vals =? length ks then inr (scatter_at a ks vals)
      else if length vals =? 1
           then inr (scatter_at a ks (repeat (hd 0 vals) (length ks)))
           else inl ShapeError
  end.

(** ** Linear algebra used by the pivot *)

Fixpoint vec_sub (u v : list Qc) : list Qc :=
  match u, v with
  | x :: u', y :: v' => (x - y) :: vec_sub u' v'
  | _, _ => []
  end.

Fixpoint dot (u v : list Qc) : Qc :=
  match u, v with
  | x :: u', y :: v' => x * y + dot u' v'
  | _, _ => 0
  end.

(** [np.dot(M, T)] for two 2-D arrays. *)
Definition matmul (M T : matrix) : matrix :=
  map (fun row => map (fun j => dot row (column j T)) (seq 0 (n_columns T))) M.

(** [np.dot(v, T)] for a 1-D [v] and a 2-D [T] with [columns] columns. *)
Definition vecmat (columns : nat) (v : list Qc) (T : matrix) : list Qc :=
  map (fun j => dot v (column j T)) (seq 0 columns).

(** [np.identity(n, np.float64)]. *)
Definition identity (n : nat) : matrix :=
  map (fun r => map (fun k => if r =? k then 1 else 0) (seq 0 n)) (seq 0 n).

(** [M[:, l] = vals]. *)
Fixpoint set_column (l : nat) (vals : list Qc) (M : matrix) : matrix :=
  match M, vals with
  | row :: M', v :: vals' => update l v row :: set_column l vals' M'
  | _, _ => M
  end.

(** [M[r, k] = v]. *)
Definition set_entry (r k : nat) (v : Qc) (M : matrix) : matrix :=
  update r (update k v (nth r M [])) M.

(** Lines 52-54: the elementary transformation matrix of a pivot. *)
Definition modify (T : matrix) (i_leave i_enter : nat) (pivot : Qc) : matrix :=
  let m0 := identity (n_rows T) in
  let m1 := set_column i_leave
              (map (fun x => - x / pivot) (column i_enter T)) m0 in
  set_entry i_leave i_leave (1 / pivot) m1.

(** Lines 51-55: [LP_matrix[:, :] = np.dot(modify, LP_matrix)].  The
    product is a fresh array, copied back afterwards, so every read is of
    the tableau before the pivot. *)
Definition pivot_update (T : matrix) (i_leave i_enter : nat) : matrix :=
  let pivot := entry T i_leave i_enter in
  matmul (modify T i_leave i_enter pivot) T.

(** The spec's wording of the same step: the leaving row is rescaled by
    [1/p]; every other row loses its entering-column coefficient times
    the rescaled leaving row. *)
Definition rescaled_leaving_row (T : matrix) (i_leave i_enter : nat)
  : list Qc :=
  let p := entry T i_leave i_enter in
  map (fun x => x * (1 / p)) (nth i_leave T []).

Definition row_operation (T : matrix) (i_leave i_enter : nat) : matrix :=
  let L := rescaled_leaving_row T i_leave i_enter in
  map (fun r =>
         if r =? i_leave then L
         else vec_sub (nth r T [])
                (map (fun x => entry T r i_enter * x) L))
      (seq 0 (n_rows T)).

(** ** The ratio test (lines 43-48) *)

(** [np.divide(b, coefs, where=(coefs > 1e-10))] written into the fresh
    buffer [buf]: a slot is written only where the mask holds. *)
Fixpoint np_divide_where (buf : nat -> bound) (b coefs : list Qc) : list bound :=
  match b, coefs with
  | x :: b', a :: coefs' =>
      (if Qcltb eps a then Fin (x / a) else buf O)
        :: np_divide_where (fun i => buf (S i)) b' coefs'
  | _, _ => []
  end.

(** [bounds[bounds < 1e-10] = float('Inf')]. *)
Definition threshold (x : bound) : bound :=
  match x with
  | Fin q => if Qcltb q eps then Inf else Fin q
  | Inf => Inf
  | NaN => NaN
  end.

Definition is_inf (x : bound) : bool :=
  match x with Inf => true | _ => false end.

(** [x < y] on doubles; false as soon as a NaN is involved. *)
Definition bound_ltb (x y : bound) : bool :=
  match x, y with
  | Fin a, Fin b => Qcltb a b
  | Fin _, Inf => true
  | _, _ => false
  end.

(** numpy's argmin loop on doubles: the running minimum [mp] at index
    [min_ind] is replaced when [not (x >= mp)], and the scan stops at the
    first NaN. *)
Fixpoint argmin_from (mp : bound) (min_ind i : nat) (l : list bound) : nat :=
  match l with
  | [] => min_ind
  | NaN :: _ => i
  | x :: rest =>
      if bound_ltb x mp then argmin_from x i (S i) rest
      else argmin_from mp min_ind (S i) rest
  end.

(** [np.argmin]; it is only reached on a non-empty array, since an empty
    one passes the all-Inf test and raises before. *)
Definition np_argmin (l : list bound) : nat :=
  match l with
  | [] => O
  | NaN :: _ => O
  | x :: rest => argmin_from x 0 1 rest
  end.

(** [np.where(c < -1e-10)[0][0]]: the first index below the threshold. *)
Fixpoint first_negative (c : list Qc) : option nat :=
  match c with
  | [] => None
  | x :: rest =>
      if Qcltb x (- eps) then Some O
      else option_map S (first_negative rest)
  end.

(** ** solve_canonical_LP *)

(** The two arrays the solver mutates in place. *)
Record state : Type := mkState { LP_matrix : matrix; bases : list Z }.

Inductive step : Type :=
| Done (solution : list Qc) (solution_value : Qc)
| Raise (e : error)
| Continue (st : state).

(** One pass through the body of [while True] (lines 27-55), with [buf]
    the contents of the buffer [np.divide] allocates in this pass.  Where
    the program divides by a zero pivot (inf/nan entries, no exception),
    the model stops with [NonFinite]. *)
Definition iteration (buf : nat -> bound) (st : state) : step :=
  let T := LP_matrix st in
  let columns := n_columns T in
  match T with
  | [] => Raise IndexError
  | row0 :: rest =>
      if columns =? 0 then Raise IndexError else
      let c := firstn (columns - 1) row0 in
      let A := map (firstn (columns - 1)) rest in
      let b := column (columns - 1) rest in
      match first_negative c with
      | None =>
          match scatter (repeat 0 (length c)) (bases st) b with
          | inr solution => Done solution (- nth (columns - 1) row0 0)
          | inl e => Raise e
          end
      | Some i_enter =>
          let variable_coefs := column i_enter A in
          let bounds := map threshold (np_divide_where buf b variable_coefs) in
          if forallb is_inf bounds then Raise Unbounded else
          let i_leave := np_argmin bounds in
          if length (bases st) <=? i_leave then Raise IndexError else
          let bases' := update i_leave (Z.of_nat i_enter) (bases st) in
          let i_leave := S i_leave in
          let pivot := entry T i_leave i_enter in
          if Qceqb pivot 0 then Raise NonFinite else
          Continue (mkState (pivot_update T i_leave i_enter) bases')
      end
  end.

Inductive outcome : Type :=
| Returned (solution : list Qc) (solution_value : Qc) (final : state)
| Raised (e : error).

(** The [while True] loop, bounded by [fuel] passes; [uninit it] is the
    fresh buffer of pass number [it] (the program counts from 1). *)
Fixpoint simplex_loop (fuel : nat) (uninit : nat -> nat -> bound) (it : nat)
  (st : state) : outcome :=
  match fuel with
  | O => Raised OutOfFuel
  | S fuel' =>
      match iteration (uninit (S it)) st with
      | Done solution value => Returned solution value st
      | Raise e => Raised e
      | Continue st' => simplex_loop fuel' uninit (S it) st'
      end
  end.

(** The assertions of lines 9-21, in program order. *)
Definition check_preconditions (LPm : ndarray Qc) (bs : ndarray Z)
  : error + state :=
  if negb (ndim LPm =? 2) then inl InvalidInput else
  if negb (ndim bs =? 1) then inl InvalidInput else
  if negb (is_integer (dtype bs)) then inl InvalidInput else
  if negb (is_float (dtype LPm)) then inl InvalidInput else
  match LPm, bs with
  | Arr2 _ T, Arr1 _ B =>
      let rows := n_rows T in
      let columns := n_columns T in
      if negb (Z.of_nat rows - 1 =? Z.of_nat (length B))%Z
      then inl InvalidInput else
      match gather (hd [] T) B with
      | None => inl IndexError
      | Some cB =>
          if negb (forallb (fun x => Qcltb (Qcabs' x) eps) cB)
          then inl InvalidInput else
          if columns =? 0 then inl IndexError else
          if negb (forallb (fun x => Qcltb eps x)
                     (column (columns - 1) (tl T)))
          then inl InvalidInput
          else inr (mkState T B)
      end
  | _, _ => inl InvalidInput
  end.

Definition solve_canonical_LP (fuel : nat) (uninit : nat -> nat -> bound)
  (LPm : ndarray Qc) (bs : ndarray Z) : outcome :=
  match check_preconditions LPm bs with
  | inl e => Raised e
  | inr st => simplex_loop fuel uninit 0 st
  end.

(** ** transform_canonical *)

(** Lines 65-68.  [c_and_z[bases]] is an index-array read, hence a copy
    taken before the in-place subtraction writes row 0. *)
Definition transform_canonical (st : state) : error + state :=
  match LP_matrix st with
  | [] => inl IndexError
  | c_and_z :: A_and_b =>
      match gather c_and_z (bases st) with
      | None => inl IndexError
      | Some transformer =>
          if negb (length transformer =? length A_and_b) then inl ShapeError
          else
            let row0 :=
              vec_sub c_and_z
                (vecmat (length c_and_z) transformer A_and_b) in
            inr (mkState (row0 :: A_and_b) (bases st))
      end
  end.

(** ** solve_LP *)

Definition bind {A B} (x : error + A) (f : A -> error + B) : error + B :=
  match x with
  | inl e => inl e
  | inr a => f a
  end.

Notation "'do' x <- e1 ;; e2" := (bind e1 (fun x => e2))
  (at level 10, x name, e1 at level 100, e2 at level 200).

Definition of_option {A} (e : error) (x : option A) : error + A :=
  match x with
  | Some a => inr a
  | None => inl e
  end.

Definition run (o : outcome) : error + (list Qc * Qc * state) :=
  match o with
  | Returned s v st => inr (s, v, st)
  | Raised e => inl e
  end.

(** What the external [standardize] hands back (line 79). *)
Record standardized : Type := mkStd {
  std_LP_matrix : matrix;
  neg_constraint_vars : list Z;
  no_constraint_vars : list Z;
  nolimit_extra : list Z;
  phase1_slack_vars : list Z;
  std_bases : list Z
}.

(** [T[:, idx] = 0]. *)
Definition zero_columns (idx : list Z) (T : matrix) : error + matrix :=
  match norm_indices (n_columns T) idx with
  | None => inl IndexError
  | Some ks =>
      inr (map (fun row => scatter_at row ks (repeat 0 (length ks))) T)
  end.

(** Lines 82-85: the phase-1 objective, returning the saved [c] too. *)
Definition phase1_objective (aux : list Z) (T : matrix)
  : error + (list Qc * matrix) :=
  match T with
  | [] => inl IndexError
  | row0 :: rest =>
      let columns := n_columns T in
      let c := firstn (columns - 1) row0 in
      do row0' <- scatter (repeat 0 (length row0)) aux [1] ;;
      inr (c, row0' :: rest)
  end.

(** Lines 92-93: the saved coefficients come back, every auxiliary column
    is zeroed in every row. *)
Definition restore_objective (c : list Qc) (aux : list Z) (T : matrix)
  : error + matrix :=
  match T with
  | [] => inl IndexError
  | row0 :: rest =>
      let columns := n_columns T in
      if negb (length c =? length (firstn (columns - 1) row0))
      then inl ShapeError
      else zero_columns aux ((c ++ skipn (columns - 1) row0) :: rest)
  end.

Definition as_tableau (st : state) : ndarray Qc := Arr2 float64 (LP_matrix st).
Definition as_basis (st : state) : ndarray Z := Arr1 int64 (bases st).

(** Lines 81-96, entered when [phase1_slack_vars.size] is non-zero. *)
Definition phase1 (fuel : nat) (uninit : nat -> nat -> bound)
  (aux : list Z) (st : state) : error + state :=
  do cT <- phase1_objective aux (LP_matrix st) ;;
  let '(c, T1) := cT in
  do st1 <- transform_canonical (mkState T1 (bases st)) ;;
  do r <- run (solve_canonical_LP fuel uninit (as_tableau st1) (as_basis st1)) ;;
  let '(_, solution_value, st2) := r in
  if Qcltb eps solution_value then inl Infeasible else
  do T3 <- restore_objective c aux (LP_matrix st2) ;;
  transform_canonical (mkState T3 (bases st2)).

(** Lines 99-102: back to the caller's variables. *)
Definition postprocess (s : standardized) (var_number : nat)
  (solution : list Qc) : error + list Qc :=
  do negs <- of_option IndexError (gather solution (neg_constraint_vars s)) ;;
  do solution1 <- scatter solution (neg_constraint_vars s) (map Qcopp negs) ;;
  do solution2 <-
    match no_constraint_vars s with
    | [] => inr solution1
    | _ =>
        do lhs <- of_option IndexError (gather solution1 (no_constraint_vars s)) ;;
        do rhs <- of_option IndexError (gather solution1 (nolimit_extra s)) ;;
        if length rhs =? length lhs
        then scatter solution1 (no_constraint_vars s) (vec_sub lhs rhs)
        else if length rhs =? 1
             then scatter solution1 (no_constraint_vars s)
                    (map (fun x => x - hd 0 rhs) lhs)
             else inl ShapeError
    end ;;
  inr (firstn var_number solution2).

Section SolveLP.

(** The standardizer is an external collaborator: it is taken as given,
    returning a 2-D float tableau and a 1-D integer basis. *)
Variable standardize : matrix -> list Z -> list Z -> standardized.

Definition solve_LP (fuel : nat) (uninit1 uninit2 : nat -> nat -> bound)
  (LP : matrix) (var_constraints func_constraints : list Z)
  : error + (list Qc * Qc) :=
  let var_number := (n_columns LP - 1)%nat in
  let s := standardize LP var_constraints func_constraints in
  let st0 := mkState (std_LP_matrix s) (std_bases s) in
  do st <- (if negb (length (phase1_slack_vars s) =? 0)
         then phase1 fuel uninit1 (phase1_slack_vars s) st0
         else inr st0) ;;
  do r <- run (solve_canonical_LP fuel uninit2 (as_tableau st) (as_basis st)) ;;
  let '(solution, solution_value, _) := r in
  do solution' <- postprocess s var_number solution ;;
  inr (solution', solution_value).

End SolveLP.

(** ** Well-formed and canonical states *)

(** The column that is basic in constraint row [r] (counted from 0). *)
Definition basic_column (st : state) (r : nat) : nat :=
  Z.to_nat (nth r (bases st) 0%Z).

(** The shape the entry checks establish and every pivot keeps: [1 + m]
    rows of [n + 1] entries, one basis index per constraint row, each
    naming one of the first [n] columns. *)
Record wf_state (st : state) : Prop := mkWf {
  wf_rect : rectangular (LP_matrix st);
  wf_rows : n_rows (LP_matrix st) = S (length (bases st));
  wf_cols : (0 < n_columns (LP_matrix st))%nat;
  wf_bases :
    Forall (fun i => (0 <= i < Z.of_nat (n_columns (LP_matrix st) - 1))%Z)
      (bases st)
}.

(** The part of the spec's canonical invariants that ties the basis to
    the tableau: (a) the reduced costs of the basic columns are zero
    within the tolerance, (c) the constraint rows restricted to the basic
    columns are the identity. *)
Record basic_form (st : state) : Prop := mkBasic {
  bf_wf : wf_state st;
  bf_cost : forall r, (r < length (bases st))%nat ->
    Qcabs' (entry (LP_matrix st) 0 (basic_column st r)) < eps;
  bf_identity : forall r s,
    (r < length (bases st))%nat -> (s < length (bases st))%nat ->
    entry (LP_matrix st) (S r) (basic_column st s) = if r =? s then 1 else 0
}.

(** The spec's canonical invariants: (a) and (c) as above, and (b) the
    right-hand sides of the constraint rows are non-negative within the
    tolerance. *)
Record canonical (st : state) : Prop := mkCanonical {
  can_basic : basic_form st;
  can_rhs : forall r, (r < length (bases st))%nat ->
    - eps <= entry (LP_matrix st) (S r) (n_columns (LP_matrix st) - 1)
}.

(** The spec's wording of the re-canonicalization: the sum, over the
    constraint rows, of the row's weight times the row, read at column
    [j]. *)
Fixpoint weighted_row_sum (weights : list Qc) (rows : matrix) (j : nat) : Qc :=
  match weights, rows with
  | w :: ws, row :: rs => w * nth j row 0 + weighted_row_sum ws rs j
  | _, _ => 0
  end.

(** ** Auxiliary notions of the proofs *)

Definition unit_row (n r : nat) : list Qc :=
  map (fun k => if r =? k then 1 else 0) (seq 0 n).

(** The objective coefficients a pass reads, on a well-formed state. *)
Definition reduced_costs (st : state) : list Qc :=
  firstn (n_columns (LP_matrix st) - 1) (hd [] (LP_matrix st)).

Definition not_infeasible {A} (x : error + A) : Prop := x <> inl Infeasible.

Definition finite_or_inf (x : bound) : Prop := x <> NaN.

(** ** Example tableaux *)

Definition Qc_of_Z (z : Z) : Qc := Q2Qc (inject_Z z).

Definition tableau_of_Z (rows : list (list Z)) : matrix :=
  map (map Qc_of_Z) rows.

(** minimise -x0 subject to 1e11 x0 + x1 = 1 (x1 basic): bounded, with
    optimum x0 = 1e-11. *)
Definition steep_row_example : state :=
  mkState (tableau_of_Z [[-1; 0; 0];
                         [100000000000; 1; 1]]%Z) [1%Z].

(** minimise -x0 subject to 1e11 x0 + x1 = 1 and x0 + x2 = 1 (x1, x2
    basic). *)
Definition two_rows_example : state :=
  mkState (tableau_of_Z [[-1; 0; 0; 0];
                         [100000000000; 1; 0; 1];
                         [1; 0; 1; 1]]%Z) [1%Z; 2%Z].

(** minimise -x0 subject to x0 + x1 = 2 and 2^-40 x0 + x2 = 3 (x1, x2
    basic); the second coefficient is positive but below the tolerance. *)
Definition masked_row_example : state :=
  mkState [[Qc_of_Z (-1); 0; 0; 0];
           [1; 1; 0; Qc_of_Z 2];
           [Q2Qc (1 # 1099511627776); 0; 1; Qc_of_Z 3]] [1%Z; 2%Z].

(** A fresh buffer that happens to be zero-filled, and one holding 1.0. *)
Definition zero_filled : nat -> nat -> bound := fun _ _ => Fin 0.
Definition one_filled : nat -> nat -> bound := fun _ _ => Fin 1.

(** minimise x0 subject to x0 >= 1, standardized by hand as
    x0 - s + a = 1 with the auxiliary column a basic in the only row. *)
Definition phase1_input : matrix := tableau_of_Z [[1; 0]; [1; 1]]%Z.

Definition phase1_example : standardized :=
  mkStd (tableau_of_Z [[1; 0; 0; 0]; [1; -1; 1; 1]]%Z) [] [] [] [2%Z] [2%Z].

(** ** The ratio test on a clean buffer *)

(** A fresh buffer is clean when line 44 turns every slot of it into Inf:
    the slot holds Inf or a finite value below the tolerance (a
    zero-filled page, for one). *)
Definition clean_buffer (buf : nat -> bound) : Prop :=
  forall r, threshold (buf r) = Inf.

(** The entry lines 43-44 leave for a row with right-hand side [x] and
    entering-column coefficient [a] when the buffer is clean: the ratio
    if the coefficient exceeds eps and the ratio is at least eps, Inf
    otherwise. *)
Definition ratio_bound (x a : Qc) : bound :=
  if Qcltb eps a && negb (Qcltb (x / a) eps) then Fin (x / a) else Inf.

Fixpoint ratio_bounds (b coefs : list Qc) : list bound :=
  match b, coefs with
  | x :: b', a :: coefs' => ratio_bound x a :: ratio_bounds b' coefs'
  | _, _ => []
  end.

(** A constraint row takes part in the ratio test of the program when
    its coefficient exceeds eps and its ratio is at least eps. *)
Definition eligible (x a : Qc) : Prop := eps < a /\ eps <= x / a.

(** Column [j] is zero in every row of the tableau. *)
Definition zero_column (T : matrix) (j : nat) : Prop :=
  forall r, (r < n_rows T)%nat -> entry T r j = 0.

(** A tableau whose objective row is not yet canonical for its basis. *)
Definition frame_example : state :=
  mkState (tableau_of_Z [[1; 1; 0]; [1; 1; 2]]%Z) [0%Z].

(** A phase-1 objective (1 on the auxiliary column 2) over the row
    x0 + 2 x1 + a = 3, with the auxiliary column basic. *)
Definition recanon_example : state :=
  mkState (tableau_of_Z [[0; 0; 1; 0]; [1; 2; 1; 3]]%Z) [2%Z].

Definition pivot_example : matrix :=
  tableau_of_Z [[-2; 0; 1]; [2; 1; 3]]%Z.

(** An optimal canonical tableau: x1 = 4 is basic, the value is 3. *)
Definition optimal_example : state :=
  mkState (tableau_of_Z [[1; 0; -3]; [2; 1; 4]]%Z) [1%Z].

(** The canonical tableau of x0 = 0, with x0 basic. *)
Definition zero_rhs_example : state :=
  mkState (tableau_of_Z [[0; 0]; [1; 0]]%Z) [0%Z].

(** minimise -x0 - x1 subject to x0 <= 1 and x0 + x1 <= 1 (slacks x2,
    x3 basic): bounded, with optimum -1; the first pivot ties and leaves
    a right-hand side equal to 0. *)
Definition degenerate_example : state :=
  mkState (tableau_of_Z [[-1; -1; 0; 0; 0];
                         [1; 0; 1; 0; 1];
                         [1; 1; 0; 1; 1]]%Z) [2%Z; 3%Z].

(** minimise -x0 subject to -x0 + x1 = 1 (x1 basic): unbounded, the
    entering column has no positive coefficient. *)
Definition unbounded_example : state :=
  mkState (tableau_of_Z [[-1; 0; 0]; [-1; 1; 1]]%Z) [1%Z].

(** ** Further notions and example data *)

(** The reduced costs of the basic columns are exactly zero, as
    transform_canonical leaves them. *)
Definition exact_costs (st : state) : Prop :=
  forall r, (r < length (bases st))%nat ->
    entry (LP_matrix st) 0 (basic_column st r) = 0.

(** A basis entry that names no column. *)
Definition bad_basis_tableau : matrix := tableau_of_Z [[0; 0]; [1; 1]]%Z.

(** Variable 1 was sign-flipped, variable 0 was split with column 2. *)
Definition flipped_example : standardized :=
  mkStd [] [1%Z] [0%Z] [2%Z] [] [].

(** x0 + a = 1 with a zero column for x0: the auxiliary column cannot
    leave the basis, phase 1 ends at the value 1. *)
Definition infeasible_example : standardized :=
  mkStd (tableau_of_Z [[1; 0; 0]; [0; 1; 1]]%Z) [] [] [] [1%Z] [1%Z].

(** ** The pivot in float64

    The pivot of lines 51-55 once more, now on IEEE binary64 numbers as
    the program computes it.  [np.dot] is taken as the sum of products
    accumulated from [0.0] in index order, every product and every sum
    rounded to nearest (a BLAS that fuses a product with the addition
    rounds once where this rounds twice). *)
Module F64.

Definition matrix := list (list float).

Definition n_rows (T : matrix) : nat := length T.
Definition n_columns (T : matrix) : nat := length (hd [] T).

Definition entry (T : matrix) (r j : nat) : float :=
  nth j (nth r T []) 0%float.

Definition column (j : nat) (T : matrix) : list float :=
  map (fun r => nth j r 0%float) T.

Definition dot (u v : list float) : float :=
  fold_left (fun acc xy => (acc + fst xy * snd xy)%float) (combine u v)
    0%float.

(** [np.dot(M, T)] for two 2-D arrays. *)
Definition matmul (M T : matrix) : matrix :=
  map (fun row => map (fun j => dot row (column j T)) (seq 0 (n_columns T))) M.

(** [np.identity(n, np.float64)]. *)
Definition identity (n : nat) : matrix :=
  map (fun r => map (fun k => if r =? k then 1%float else 0%float) (seq 0 n))
    (seq 0 n).

(** [M[:, l] = vals]. *)
Fixpoint set_column (l : nat) (vals : list float) (M : matrix) : matrix :=
  match M, vals with
  | row :: M', v :: vals' => update l v row :: set_column l vals' M'
  | _, _ => M
  end.

(** [M[r, k] = v]. *)
Definition set_entry (r k : nat) (v : float) (M : matrix) : matrix :=
  update r (update k v (nth r M [])) M.

(** Lines 52-54. *)
Definition modify (T : matrix) (i_leave i_enter : nat) (pivot : float)
  : matrix :=
  let m0 := identity (n_rows T) in
  let m1 := set_column i_leave
              (map (fun x => (- x / pivot)%float) (column i_enter T)) m0 in
  set_entry i_leave i_leave (1 / pivot)%float m1.

(** Lines 51-55. *)
Definition pivot_update (T : matrix) (i_leave i_enter : nat) : matrix :=
  let pivot := entry T i_leave i_enter in
  matmul (modify T i_leave i_enter pivot) T.

(** The spec's wording of the step, read in float64: the leaving row
    times [1/p]; every other row minus its entering-column coefficient
    times the rescaled leaving row. *)
Definition rescaled_leaving_row (T : matrix) (i_leave i_enter : nat)
  : list float :=
  let p := entry T i_leave i_enter in
  map (fun x => (x * (1 / p))%float) (nth i_leave T []).

Definition row_operation (T : matrix) (i_leave i_enter : nat) : matrix :=
  let L := rescaled_leaving_row T i_leave i_enter in
  map (fun r =>
         if r =? i_leave then L
         else map (fun xy => (fst xy - snd xy)%float)
                (combine (nth r T [])
                   (map (fun x => (entry T r i_enter * x)%float) L)))
      (seq 0 (n_rows T)).

(** Every entry is a finite double (no inf, no nan). *)
Definition finite_tableau (T : matrix) : Prop :=
  Forall (Forall (fun x => is_finite x = true)) T.

(** Equal as numbers: the same double, or two zeros of either sign. *)
Definition same_number (x y : float) : Prop :=
  x = y \/ ((x =? 0)%float = true /\ (y =? 0)%float = true).

(** The unit vector of position [r], of length [n]. *)
Definition unit_vector (n r : nat) : list float :=
  map (fun k => if r =? k then 1%float else 0%float) (seq 0 n).

End F64.

(** minimise -x0 subject to 49 x0 + x1 = 49, and minimise -3 x0
    subject to 3 x0 + x1 = 7; x1 is basic in both. *)
Definition rounding_example : F64.matrix :=
  [[-1; 0; 0]; [49; 1; 49]]%float.

Definition skew_example : F64.matrix :=
  [[-3; 0; 0]; [3; 1; 7]]%float.

(** minimise -x0 subject to 49 x0 + x1 = 49 and x0 + x2 = 1, with x1
    and x2 basic: column 2 is zero in row 1. *)
Definition two_basic_example : F64.matrix :=
  [[-1; 0; 0; 0]; [49; 1; 0; 49]; [1; 0; 1; 1]]%float.

(** The first of them in the exact model, with its basis. *)
Definition rounding_state : state :=
  mkState (tableau_of_Z [[-1; 0; 0]; [49; 1; 49]]%Z) [1%Z].
(** ** Basic facts *)

Lemma Qcltb_lt (x y : Qc) : Qcltb x y = true <-> x < y.
Proof.
  unfold Qcltb. rewrite Qclt_alt.
  destruct (x ?= y); split; congruence.
Qed.

Lemma Qcltb_ge (x y : Qc) : Qcltb x y = false <-> y <= x.
Proof.
  split; intro H.
  - apply Qcnot_lt_le. intro L. apply Qcltb_lt in L. congruence.
  - destruct (Qcltb x y) eqn:E; [|reflexivity].
    apply Qcltb_lt in E. exfalso. exact (Qcle_not_lt _ _ H E).
Qed.

Lemma Qceqb_eq (x y : Qc) : Qceqb x y = true <-> x = y.
Proof.
  unfold Qceqb. rewrite Qceq_alt.
  destruct (x ?= y); split; congruence.
Qed.

Lemma Qceqb_neq (x y : Qc) : Qceqb x y = false <-> x <> y.
Proof.
  rewrite <- Qceqb_eq. destruct (Qceqb x y); split; congruence.
Qed.

Lemma update_length {A} (k : nat) (v : A) (l : list A) :
  length (update k v l) = length l.
Proof.
  revert k; induction l as [|x l IH]; intros [|k]; simpl; auto.
Qed.

Lemma nth_update_eq {A} (k : nat) (v d : A) (l : list A) :
  (k < length l)%nat -> nth k (update k v l) d = v.
Proof.
  revert k; induction l as [|x l IH]; intros [|k] H; simpl in *;
    try lia; auto.
  apply IH. lia.
Qed.

Lemma nth_update_neq {A} (k j : nat) (v d : A) (l : list A) :
  k <> j -> nth j (update k v l) d = nth j l d.
Proof.
  revert k j; induction l as [|x l IH]; intros [|k] [|j] H; simpl;
    try congruence; auto.
Qed.

Lemma vec_sub_length (u v : list Qc) :
  length u = length v -> length (vec_sub u v) = length u.
Proof.
  revert v; induction u as [|x u IH]; intros [|y v] H; simpl in *;
    try discriminate; auto.
Qed.

Lemma nth_vec_sub (u v : list Qc) (j : nat) :
  length u = length v ->
  nth j (vec_sub u v) 0 = nth j u 0 - nth j v 0.
Proof.
  revert v j; induction u as [|x u IH]; intros [|y v] [|j] H; simpl in *;
    try discriminate; try ring; auto.
Qed.

Lemma column_length (j : nat) (T : matrix) : length (column j T) = length T.
Proof. apply length_map. Qed.

Lemma nth_column (j r : nat) (T : matrix) :
  nth r (column j T) 0 = entry T r j.
Proof.
  unfold column, entry. revert r. induction T as [|row T IH]; intros [|r];
    simpl; auto; destruct j; reflexivity.
Qed.

Lemma vecmat_length (columns : nat) (v : list Qc) (T : matrix) :
  length (vecmat columns v T) = columns.
Proof. unfold vecmat. now rewrite length_map, length_seq. Qed.

Lemma nth_map_seq {A} (f : nat -> A) (d : A) (s n j : nat) :
  (j < n)%nat -> nth j (map f (seq s n)) d = f (s + j)%nat.
Proof.
  revert s j. induction n as [|n IH]; intros s [|j] H; simpl; try lia.
  - f_equal. lia.
  - rewrite IH by lia. f_equal. lia.
Qed.

Lemma nth_vecmat (columns : nat) (v : list Qc) (T : matrix) (j : nat) :
  (j < columns)%nat -> nth j (vecmat columns v T) 0 = dot v (column j T).
Proof.
  intro H. unfold vecmat. now rewrite nth_map_seq.
Qed.

(** A dot product against a zero vector vanishes. *)
Lemma dot_zero (w col : list Qc) :
  (forall r, (r < length col)%nat -> nth r col 0 = 0) -> dot w col = 0.
Proof.
  revert col. induction w as [|x w IH]; intros [|y col] H; simpl; auto.
  rewrite (IH col) by (intros r Hr; exact (H (S r) (proj1 (Nat.succ_lt_mono _ _) Hr))).
  change y with (nth 0 (y :: col) 0). rewrite (H O) by (simpl; lia). ring.
Qed.

(** A dot product against a unit vector selects one entry. *)
Lemma dot_unit (w col : list Qc) (s : nat) :
  length w = length col ->
  (forall r, (r < length col)%nat -> nth r col 0 = if r =? s then 1 else 0) ->
  dot w col = nth s w 0.
Proof.
  revert col s. induction w as [|x w IH]; intros [|y col] s L H;
    simpl in *; try discriminate.
  - now destruct s.
  - assert (Hy : y = if 0 =? s then 1 else 0) by (apply (H O); lia).
    assert (Ht : forall r, (r < length col)%nat ->
                 nth r col 0 = if S r =? s then 1 else 0)
      by (intros r Hr; apply (H (S r)); lia).
    destruct s as [|s]; simpl in Hy, Ht; subst y.
    + rewrite (dot_zero w col Ht). ring.
    + rewrite (IH col s) by (auto; lia). ring.
Qed.

Lemma nth_map_lt {A B} (f : A -> B) (l : list A) (k : nat) (d : B) (d' : A) :
  (k < length l)%nat -> nth k (map f l) d = f (nth k l d').
Proof.
  revert k. induction l as [|x l IH]; intros [|k] H; simpl in *; try lia; auto.
  apply IH. lia.
Qed.

Lemma norm_index_nonneg (len : nat) (i : Z) :
  (0 <= i < Z.of_nat len)%Z -> norm_index len i = Some (Z.to_nat i).
Proof.
  intro H. unfold norm_index.
  destruct (Z.leb_spec 0 i), (Z.ltb_spec i (Z.of_nat len)); simpl;
    try lia; reflexivity.
Qed.

Lemma norm_indices_nonneg (len : nat) (idx : list Z) :
  Forall (fun i => (0 <= i < Z.of_nat len)%Z) idx ->
  norm_indices len idx = Some (map Z.to_nat idx).
Proof.
  induction 1 as [|i idx Hi _ IH]; simpl; auto.
  now rewrite norm_index_nonneg, IH.
Qed.

Lemma norm_indices_length (len : nat) (idx : list Z) (ks : list nat) :
  norm_indices len idx = Some ks -> length ks = length idx.
Proof.
  revert ks. induction idx as [|i idx IH]; simpl; intros ks H.
  - now inversion H.
  - destruct (norm_index len i); [|discriminate].
    destruct (norm_indices len idx); [|discriminate].
    inversion H; subst. simpl. f_equal. now apply IH.
Qed.

Lemma dot_weighted_row_sum (v : list Qc) (T : matrix) (j : nat) :
  dot v (column j T) = weighted_row_sum v T j.
Proof.
  revert T. induction v as [|x v IH]; intros [|row T]; simpl; auto.
  now rewrite IH.
Qed.

(** ** transform_canonical *)

(** The one write of transform_canonical is to row 0. *)
Lemma transform_canonical_writes_row0 (st st' : state) :
  transform_canonical st = inr st' ->
  tl (LP_matrix st') = tl (LP_matrix st) /\
  bases st' = bases st /\
  n_rows (LP_matrix st') = n_rows (LP_matrix st).
Proof.
  unfold transform_canonical.
  destruct (LP_matrix st) as [|c_and_z A_and_b] eqn:ET; [discriminate|].
  destruct (gather c_and_z (bases st)) as [transformer|]; [|discriminate].
  destruct (negb _); [discriminate|].
  intro H. inversion H; subst; simpl. auto.
Qed.

(** C10.  transform_canonical writes row 0 only: whenever the call
    completes, the constraint rows (rows 1 to m, right-hand sides
    included) and the basis are what they were, and the tableau has as
    many rows as before.  When the call raises, it does so before its one
    write (the in-place subtraction is its last statement). *)
Theorem transform_canonical_frame (st st' : state) :
  transform_canonical st = inr st' ->
  tl (LP_matrix st') = tl (LP_matrix st) /\
  bases st' = bases st /\
  n_rows (LP_matrix st') = n_rows (LP_matrix st).
Proof.
  exact (transform_canonical_writes_row0 st st').
Qed.

Lemma transform_canonical_frame_witness :
  exists st',
    transform_canonical frame_example = inr st' /\
    tl (LP_matrix st') = tl (LP_matrix frame_example) /\
    bases st' = bases frame_example /\
    n_rows (LP_matrix st') = n_rows (LP_matrix frame_example).
Proof.
  eexists. split; [reflexivity|].
  apply (transform_canonical_frame frame_example). reflexivity.
Defined.

(** C6.  On a tableau whose constraint rows, restricted to the basic
    columns, form the identity matrix, transform_canonical completes; the
    new objective row is the old one minus the sum over the constraint
    rows of (the old objective coefficient at the row's basic column)
    times that row; and the new objective row is zero at every basic
    column. *)
Theorem transform_canonical_zeroes_basic_costs (st : state) :
  rectangular (LP_matrix st) ->
  n_rows (LP_matrix st) = S (length (bases st)) ->
  Forall (fun i => (0 <= i < Z.of_nat (n_columns (LP_matrix st)))%Z)
    (bases st) ->
  (forall r s, (r < length (bases st))%nat -> (s < length (bases st))%nat ->
     entry (LP_matrix st) (S r) (basic_column st s)
     = if r =? s then 1 else 0) ->
  exists st',
    transform_canonical st = inr st' /\
    (forall j, (j < n_columns (LP_matrix st))%nat ->
       entry (LP_matrix st') 0 j
       = entry (LP_matrix st) 0 j
         - weighted_row_sum
             (map (fun i => entry (LP_matrix st) 0 (Z.to_nat i)) (bases st))
             (tl (LP_matrix st)) j) /\
    (forall s, (s < length (bases st))%nat ->
       entry (LP_matrix st') 0 (basic_column st s) = 0).
Proof.
  destruct st as [T B]; simpl. intros Hrect Hrows Hidx Hid.
  destruct T as [|row0 rest]; [discriminate|].
  unfold n_rows, n_columns in *; simpl in *.
  injection Hrows as Hrows.
  unfold transform_canonical, gather; simpl.
  rewrite (norm_indices_nonneg _ _ Hidx); simpl.
  rewrite !length_map, Hrows, Nat.eqb_refl; simpl.
  eexists; split; [reflexivity|]. simpl.
  set (w := map (fun k => nth k row0 0) (map Z.to_nat B)).
  assert (Hw : w = map (fun i => entry (row0 :: rest) 0 (Z.to_nat i)) B)
    by (unfold w; now rewrite map_map).
  assert (Hrow : forall j, (j < length row0)%nat ->
            nth j (vec_sub row0 (vecmat (length row0) w rest)) 0
            = nth j row0 0 - dot w (column j rest)).
  { intros j Hj.
    rewrite nth_vec_sub by now rewrite vecmat_length.
    now rewrite nth_vecmat. }
  split.
  - intros j Hj. unfold entry at 1 2; simpl.
    rewrite Hrow by assumption. now rewrite dot_weighted_row_sum, Hw.
  - intros s Hs. unfold entry; simpl.
    assert (Hb : (basic_column (mkState (row0 :: rest) B) s < length row0)%nat).
    { unfold basic_column; simpl.
      rewrite Forall_forall in Hidx.
      specialize (Hidx (nth s B 0%Z) (nth_In _ _ Hs)). lia. }
    rewrite Hrow by assumption.
    rewrite (dot_unit w _ s).
    + unfold w. rewrite map_map.
      rewrite (nth_map_lt _ B s 0 0%Z) by assumption.
      unfold basic_column; simpl. ring.
    + unfold w. now rewrite column_length, !length_map.
    + intros r Hr. rewrite column_length in Hr.
      rewrite nth_column. apply (Hid r s); lia.
Qed.

Lemma transform_canonical_zeroes_basic_costs_witness :
  exists st',
    transform_canonical recanon_example = inr st' /\
    (forall j, (j < n_columns (LP_matrix recanon_example))%nat ->
       entry (LP_matrix st') 0 j
       = entry (LP_matrix recanon_example) 0 j
         - weighted_row_sum
             (map (fun i => entry (LP_matrix recanon_example) 0 (Z.to_nat i))
                (bases recanon_example))
             (tl (LP_matrix recanon_example)) j) /\
    (forall s, (s < length (bases recanon_example))%nat ->
       entry (LP_matrix st') 0 (basic_column recanon_example s) = 0).
Proof.
  apply (transform_canonical_zeroes_basic_costs recanon_example).
  - repeat constructor.
  - reflexivity.
  - repeat constructor; simpl; lia.
  - intros r s Hr Hs. simpl in Hr, Hs.
    assert (r = O) by lia. assert (s = O) by lia. subst. reflexivity.
Defined.

(** ** The pivot *)

Lemma unit_row_length (n r : nat) : length (unit_row n r) = n.
Proof. unfold unit_row. now rewrite length_map, length_seq. Qed.

Lemma nth_unit_row (n r k : nat) :
  (k < n)%nat -> nth k (unit_row n r) 0 = if k =? r then 1 else 0.
Proof.
  intro H. unfold unit_row. rewrite nth_map_seq by assumption. simpl.
  now rewrite Nat.eqb_sym.
Qed.

Lemma dot_comm (u v : list Qc) : dot u v = dot v u.
Proof.
  revert v. induction u as [|x u IH]; intros [|y v]; simpl; auto.
  rewrite IH. ring.
Qed.

Lemma dot_unit_row (n r : nat) (w : list Qc) :
  length w = n -> dot (unit_row n r) w = nth r w 0.
Proof.
  intro H. rewrite dot_comm. apply dot_unit.
  - now rewrite unit_row_length.
  - intros k Hk. rewrite unit_row_length in Hk. now apply nth_unit_row.
Qed.

Lemma dot_update (l : nat) (v : Qc) (u w : list Qc) :
  (l < length u)%nat -> length u = length w ->
  dot (update l v u) w = dot u w + (v - nth l u 0) * nth l w 0.
Proof.
  revert l w. induction u as [|x u IH]; intros [|l] [|y w] Hl Hw;
    simpl in *; try lia; try discriminate.
  - ring.
  - rewrite IH by lia. ring.
Qed.

Lemma update_update {A} (l : nat) (a b : A) (u : list A) :
  update l a (update l b u) = update l a u.
Proof.
  revert l. induction u as [|x u IH]; intros [|l]; simpl; auto.
  now rewrite IH.
Qed.

Lemma nth_update_row (r l : nat) (x : list Qc) (M : matrix) :
  (l < length M)%nat ->
  nth r (update l x M) [] = if r =? l then x else nth r M [].
Proof.
  intro H. destruct (Nat.eqb_spec r l) as [->|N].
  - now apply nth_update_eq.
  - apply nth_update_neq. congruence.
Qed.

Lemma set_column_length (l : nat) (vals : list Qc) (M : matrix) :
  length (set_column l vals M) = length M.
Proof.
  revert vals. induction M as [|row M IH]; intros [|v vals]; simpl; auto.
Qed.

Lemma nth_set_column (l r : nat) (vals : list Qc) (M : matrix) :
  (r < length M)%nat -> length vals = length M ->
  nth r (set_column l vals M) [] = update l (nth r vals 0) (nth r M []).
Proof.
  revert r vals. induction M as [|row M IH]; intros [|r] [|v vals] Hr Hv;
    simpl in *; try lia; try discriminate; auto.
  apply IH; lia.
Qed.

Lemma nth_identity (n r : nat) :
  (r < n)%nat -> nth r (identity n) [] = unit_row n r.
Proof.
  intro H. unfold identity. now rewrite nth_map_seq.
Qed.

Lemma identity_length (n : nat) : length (identity n) = n.
Proof. unfold identity. now rewrite length_map, length_seq. Qed.

(** Row [r] of the elementary matrix: the unit row [r] with its entry at
    the leaving position replaced. *)
Lemma nth_modify (T : matrix) (l e r : nat) (p : Qc) :
  (l < n_rows T)%nat -> (r < n_rows T)%nat ->
  nth r (modify T l e p) []
  = update l (if r =? l then 1 / p else - entry T r e / p)
      (unit_row (n_rows T) r).
Proof.
  intros Hl Hr. unfold modify, set_entry.
  rewrite nth_update_row by now rewrite set_column_length, identity_length.
  assert (Hc : forall k, (k < n_rows T)%nat ->
            nth k (set_column l (map (fun x => - x / p) (column e T))
                     (identity (n_rows T))) []
            = update l (- entry T k e / p) (unit_row (n_rows T) k)).
  { intros k Hk.
    rewrite nth_set_column
      by (rewrite ?length_map, ?column_length, identity_length; auto).
    rewrite nth_identity by assumption.
    rewrite (nth_map_lt _ _ k 0 0) by now rewrite column_length.
    now rewrite nth_column. }
  destruct (Nat.eqb_spec r l) as [->|N].
  - rewrite Hc by assumption. apply update_update.
  - now apply Hc.
Qed.

Lemma modify_length (T : matrix) (l e : nat) (p : Qc) :
  length (modify T l e p) = n_rows T.
Proof.
  unfold modify, set_entry.
  now rewrite update_length, set_column_length, identity_length.
Qed.

(** One entry of the product with the elementary matrix. *)
Lemma entry_pivot_update (T : matrix) (l e r j : nat) :
  (l < n_rows T)%nat -> (r < n_rows T)%nat -> (j < n_columns T)%nat ->
  entry (pivot_update T l e) r j
  = if r =? l then entry T l j * (1 / entry T l e)
    else entry T r j - entry T r e * (entry T l j * (1 / entry T l e)).
Proof.
  intros Hl Hr Hj. unfold pivot_update, matmul, entry at 1.
  rewrite (nth_map_lt _ _ r [] []) by now rewrite modify_length.
  rewrite nth_map_seq by assumption. simpl.
  rewrite nth_modify by assumption.
  rewrite dot_update
    by (rewrite unit_row_length, ?column_length; auto).
  rewrite dot_unit_row by apply column_length.
  rewrite nth_unit_row by assumption.
  rewrite !nth_column.
  destruct (Nat.eqb_spec r l) as [->|N].
  - rewrite Nat.eqb_refl. unfold Qcdiv. ring.
  - destruct (Nat.eqb_spec l r); [congruence|]. unfold Qcdiv. ring.
Qed.

Lemma rectangular_nth (T : matrix) (r : nat) :
  rectangular T -> (r < n_rows T)%nat -> length (nth r T []) = n_columns T.
Proof.
  unfold rectangular. rewrite Forall_forall. intros H Hr.
  apply H. now apply nth_In.
Qed.

Lemma entry_row_operation (T : matrix) (l e r j : nat) :
  rectangular T ->
  (l < n_rows T)%nat -> (r < n_rows T)%nat -> (j < n_columns T)%nat ->
  entry (row_operation T l e) r j
  = if r =? l then entry T l j * (1 / entry T l e)
    else entry T r j - entry T r e * (entry T l j * (1 / entry T l e)).
Proof.
  intros HT Hl Hr Hj. unfold row_operation, entry at 1.
  rewrite nth_map_seq by assumption. simpl.
  unfold rescaled_leaving_row.
  destruct (r =? l).
  - rewrite (nth_map_lt _ _ j 0 0) by now rewrite rectangular_nth.
    reflexivity.
  - rewrite nth_vec_sub by now rewrite !length_map, !rectangular_nth.
    rewrite (nth_map_lt _ _ j 0 0)
      by now rewrite length_map, rectangular_nth.
    rewrite (nth_map_lt _ _ j 0 0) by now rewrite rectangular_nth.
    reflexivity.
Qed.

Lemma pivot_update_rows (T : matrix) (l e : nat) :
  n_rows (pivot_update T l e) = n_rows T.
Proof.
  unfold pivot_update, matmul, n_rows.
  now rewrite length_map, modify_length.
Qed.

Lemma pivot_update_row_length (T : matrix) (l e r : nat) :
  (r < n_rows T)%nat ->
  length (nth r (pivot_update T l e) []) = n_columns T.
Proof.
  intro Hr. unfold pivot_update, matmul.
  rewrite (nth_map_lt _ _ r [] []) by now rewrite modify_length.
  now rewrite length_map, length_seq.
Qed.

Lemma row_operation_row_length (T : matrix) (l e r : nat) :
  rectangular T -> (l < n_rows T)%nat -> (r < n_rows T)%nat ->
  length (nth r (row_operation T l e) []) = n_columns T.
Proof.
  intros HT Hl Hr. unfold row_operation, rescaled_leaving_row.
  rewrite nth_map_seq by assumption. simpl.
  destruct (r =? l).
  - now rewrite length_map, rectangular_nth.
  - rewrite vec_sub_length; rewrite ?length_map, !rectangular_nth; auto.
Qed.

Lemma pivot_update_unit_column (T : matrix) (l e : nat) :
  (l < n_rows T)%nat -> (e < n_columns T)%nat -> entry T l e <> 0 ->
  forall r, (r < n_rows T)%nat ->
    entry (pivot_update T l e) r e = if r =? l then 1 else 0.
Proof.
  intros Hl He Hp r Hr. rewrite entry_pivot_update by assumption.
  destruct (r =? l); field; assumption.
Qed.

(** In exact arithmetic the product with the elementary matrix is the
    spec's simultaneous row operation. *)
Lemma pivot_update_row_operation (T : matrix) (i_leave i_enter : nat) :
  rectangular T -> (i_leave < n_rows T)%nat ->
  pivot_update T i_leave i_enter = row_operation T i_leave i_enter.
Proof.
  intros HT Hl.
  apply (nth_ext _ _ [] []).
  - rewrite (pivot_update_rows T i_leave i_enter : length _ = _).
    unfold row_operation. now rewrite length_map, length_seq.
  - intros r Hr.
    rewrite (pivot_update_rows T i_leave i_enter : length _ = _) in Hr.
    apply (nth_ext _ _ 0 0).
    + now rewrite pivot_update_row_length, row_operation_row_length.
    + intros j Hj. rewrite pivot_update_row_length in Hj by assumption.
      change (entry (pivot_update T i_leave i_enter) r j
              = entry (row_operation T i_leave i_enter) r j).
      now rewrite entry_pivot_update, entry_row_operation.
Qed.

(** ** The pivot in float64 *)

Lemma f64_is_zero (x : float) :
  (x =? 0)%float = true <-> exists s, Prim2SF x = S754_zero s.
Proof.
  rewrite eqb_spec. change (Prim2SF 0%float) with (S754_zero false).
  destruct (Prim2SF x) as [s|s| |s m e]; simpl.
  - split; eauto.
  - destruct s; split; try discriminate; intros [s' H]; discriminate.
  - split; try discriminate; intros [s' H]; discriminate.
  - destruct s; split; try discriminate; intros [s' H]; discriminate.
Qed.

Lemma f64_is_finite (x : float) :
  is_finite x = true ->
  (exists s, Prim2SF x = S754_zero s) \/
  (exists s m e, Prim2SF x = S754_finite s m e).
Proof.
  unfold is_finite, is_nan, is_infinity.
  rewrite !eqb_spec, abs_spec.
  change (Prim2SF infinity) with (S754_infinity false).
  destruct (Prim2SF x) as [s|s| |s m e]; intro H.
  - eauto.
  - destruct s; discriminate H.
  - discriminate H.
  - right. eauto.
Qed.

Lemma same_number_refl (x : float) : F64.same_number x x.
Proof. now left. Qed.

Lemma same_number_sym (x y : float) :
  F64.same_number x y -> F64.same_number y x.
Proof. intros [->|[H1 H2]]; [now left|right; auto]. Qed.

Lemma same_number_trans (x y z : float) :
  F64.same_number x y -> F64.same_number y z -> F64.same_number x z.
Proof.
  intros [->|[H1 H2]] [->|[H3 H4]]; try (now left); right; auto.
Qed.

(** Adding a zero of either sign changes at most the sign of a zero. *)
Lemma f64_add_zero_l (z y : float) :
  (z =? 0)%float = true -> F64.same_number (z + y) y.
Proof.
  intro Hz. apply f64_is_zero in Hz. destruct Hz as [s Hz].
  destruct (Prim2SF y) as [s'|s'| |s' m e] eqn:Hy.
  - right. split; [|apply f64_is_zero; eauto].
    apply f64_is_zero. rewrite add_spec, Hz, Hy. unfold SF64add; simpl.
    destruct s, s'; eauto.
  - left. apply Prim2SF_inj. now rewrite add_spec, Hz, Hy.
  - left. apply Prim2SF_inj. now rewrite add_spec, Hz, Hy.
  - left. apply Prim2SF_inj. now rewrite add_spec, Hz, Hy.
Qed.

Lemma f64_add_zero_r (y z : float) :
  (z =? 0)%float = true -> F64.same_number (y + z) y.
Proof.
  intro Hz. apply f64_is_zero in Hz. destruct Hz as [s Hz].
  destruct (Prim2SF y) as [s'|s'| |s' m e] eqn:Hy.
  - right. split; [|apply f64_is_zero; eauto].
    apply f64_is_zero. rewrite add_spec, Hz, Hy. unfold SF64add; simpl.
    destruct s, s'; eauto.
  - left. apply Prim2SF_inj. now rewrite add_spec, Hz, Hy.
  - left. apply Prim2SF_inj. now rewrite add_spec, Hz, Hy.
  - left. apply Prim2SF_inj. now rewrite add_spec, Hz, Hy.
Qed.

Lemma f64_add_same_number (x x' y : float) :
  F64.same_number x x' -> F64.same_number (x + y) (x' + y).
Proof.
  intros [->|[H1 H2]]; [now left|].
  apply (same_number_trans _ y).
  - now apply f64_add_zero_l.
  - apply same_number_sym. now apply f64_add_zero_l.
Qed.

(** Zero times a finite double is a zero. *)
Lemma f64_mul_zero_l (y : float) :
  is_finite y = true -> (0 * y =? 0)%float = true.
Proof.
  intro Hy. apply f64_is_zero. rewrite mul_spec.
  change (Prim2SF 0%float) with (S754_zero false).
  destruct (f64_is_finite y Hy) as [[s ->]|(s & m & e & ->)];
    unfold SF64mul; simpl; eauto.
Qed.

Lemma f64_add_comm (x y : float) : (x + y = y + x)%float.
Proof.
  apply Prim2SF_inj. rewrite !add_spec. unfold SF64add.
  destruct (Prim2SF x) as [s|s| |s m e], (Prim2SF y) as [s'|s'| |s' m' e'];
    simpl; try reflexivity; try (destruct s, s'; reflexivity).
  rewrite Z.min_comm. f_equal. apply Z.add_comm.
Qed.

(** One times a double is that double: the product of the mantissas is
    the mantissa shifted by 52 bits, and rounding shifts it back. *)
Lemma f64_mul_one_l (y : float) : (1 * y = y)%float.
Proof.
  apply Prim2SF_inj. rewrite mul_spec.
  change (Prim2SF 1%float) with (S754_finite false 4503599627370496 (-52)).
  pose proof (Prim2SF_valid y) as V.
  destruct (Prim2SF y) as [s|s| |s m e]; try reflexivity.
  unfold SF64mul, SFmul.
  change (xorb false s) with s.
  unfold SpecFloat.valid_binary, bounded, canonical_mantissa in V.
  apply andb_true_iff in V. destruct V as [C B]. apply Z.eqb_eq in C.
  unfold binary_round_aux, shr_fexp.
  cbn [Pos.mul Zdigits2 digits2_pos].
  rewrite !Pos2Z.inj_succ.
  set (d := Z.pos (digits2_pos m)) in *.
  match goal with
  | |- context [fexp prec emax (?a + (-52 + e))] =>
      replace (a + (-52 + e))%Z with (d + e)%Z by lia
  end.
  rewrite C.
  replace (e - (-52 + e))%Z with 52%Z by lia.
  cbn -[fexp Z.add Z.sub Z.leb].
  replace (-52 + e + 52)%Z with e by lia.
  fold d. rewrite C, Z.sub_diag. cbn [shr shr_m]. now rewrite B.
Qed.

Lemma fold_left_firstn_S {A B} (f : A -> B -> A) (w : list B) (a : A)
  (d : B) (k : nat) :
  (k < length w)%nat ->
  fold_left f (firstn (S k) w) a = f (fold_left f (firstn k w) a) (nth k w d).
Proof.
  revert a k. induction w as [|x w IH]; intros a [|k] H; simpl in *;
    try lia; auto.
  apply IH. lia.
Qed.

(** A dot product whose left factor is a unit vector with one entry
    replaced, against finite doubles: every other product is a zero, so
    at most two terms are left. *)
Lemma f64_dot_sparse (u v : list float) (a : float) (r l : nat) :
  length u = length v -> (r < length v)%nat -> (l < length v)%nat ->
  (forall k, (k < length v)%nat ->
     nth k u 0%float
     = if k =? l then a else if k =? r then 1%float else 0%float) ->
  Forall (fun x => is_finite x = true) v ->
  F64.same_number (F64.dot u v)
    (if r =? l then (a * nth l v 0)%float
     else (nth r v 0 + a * nth l v 0)%float).
Proof.
  intros Hlen Hr Hl Hu Hv.
  set (step := fun (acc : float) (xy : float * float) =>
                 (acc + fst xy * snd xy)%float).
  set (w := combine u v).
  assert (Hw : length w = length v)
    by (unfold w; rewrite length_combine; lia).
  set (E := fun k : nat =>
              if (r <? k) && negb (r =? l)
              then if l <? k then (nth r v 0 + a * nth l v 0)%float
                   else nth r v 0%float
              else if l <? k then (a * nth l v 0)%float else 0%float).
  assert (Inv : forall k, (k <= length v)%nat ->
            F64.same_number (fold_left step (firstn k w) 0%float) (E k)).
  { induction k as [|k IH]; intro Hk.
    - unfold E. simpl. apply same_number_refl.
    - specialize (IH ltac:(lia)).
      rewrite (fold_left_firstn_S step w _ (0%float, 0%float)) by lia.
      unfold w at 2. rewrite combine_nth by assumption.
      unfold step at 1. cbn [fst snd]. rewrite Hu by lia.
      fold w.
      set (acc := fold_left step (firstn k w) 0%float) in *.
      unfold E in *.
      destruct (Nat.eqb_spec k l) as [Ekl|Nkl].
      + (* the replaced entry *)
        subst k. rewrite Nat.ltb_irrefl in IH.
        replace (l <? S l) with true by (symmetry; apply Nat.ltb_lt; lia).
        destruct (Nat.eqb_spec r l) as [Erl|Nrl].
        * rewrite andb_false_r in *.
          apply (same_number_trans _ (0 + a * nth l v 0)%float).
          -- now apply f64_add_same_number.
          -- apply f64_add_zero_l. reflexivity.
        * simpl negb in *. rewrite andb_true_r in *.
          destruct (Nat.ltb_spec r l) as [Lrl|Grl].
          -- replace (r <? S l) with true
               by (symmetry; apply Nat.ltb_lt; lia).
             now apply f64_add_same_number.
          -- replace (r <? S l) with false
               by (symmetry; apply Nat.ltb_ge; lia).
             apply (same_number_trans _ (0 + a * nth l v 0)%float).
             ++ now apply f64_add_same_number.
             ++ apply f64_add_zero_l. reflexivity.
      + destruct (Nat.eqb_spec k r) as [Ekr|Nkr].
        * (* the one of the unit vector *)
          subst k. rewrite Nat.ltb_irrefl in IH. simpl in IH.
          rewrite f64_mul_one_l.
          replace (r <? S r) with true by (symmetry; apply Nat.ltb_lt; lia).
          destruct (Nat.eqb_spec r l) as [Erl|Nrl]; [congruence|].
          simpl.
          destruct (Nat.ltb_spec l r) as [Llr|Glr].
          -- replace (l <? S r) with true
               by (symmetry; apply Nat.ltb_lt; lia).
             rewrite (f64_add_comm (nth r v 0%float)).
             now apply f64_add_same_number.
          -- replace (l <? S r) with false
               by (symmetry; apply Nat.ltb_ge; lia).
             apply (same_number_trans _ (0 + nth r v 0)%float).
             ++ now apply f64_add_same_number.
             ++ apply f64_add_zero_l. reflexivity.
        * (* a zero of the unit vector *)
          replace (r <? S k) with (r <? k).
          2:{ destruct (Nat.ltb_spec r k), (Nat.ltb_spec r (S k));
                try reflexivity; lia. }
          replace (l <? S k) with (l <? k).
          2:{ destruct (Nat.ltb_spec l k), (Nat.ltb_spec l (S k));
                try reflexivity; lia. }
          apply (same_number_trans _ acc); [|exact IH].
          apply f64_add_zero_r. apply f64_mul_zero_l.
          rewrite Forall_forall in Hv. apply Hv. apply nth_In. lia. }
  specialize (Inv (length v) (Nat.le_refl _)).
  assert (Hall : firstn (length v) w = w)
    by (rewrite <- Hw; apply firstn_all).
  rewrite Hall in Inv. unfold E in Inv.
  replace (r <? length v) with true in Inv
    by (symmetry; apply Nat.ltb_lt; lia).
  replace (l <? length v) with true in Inv
    by (symmetry; apply Nat.ltb_lt; lia).
  destruct (r =? l); exact Inv.
Qed.

Lemma f64_column_length (j : nat) (T : F64.matrix) :
  length (F64.column j T) = length T.
Proof. apply length_map. Qed.

Lemma f64_nth_column (j r : nat) (T : F64.matrix) :
  nth r (F64.column j T) 0%float = F64.entry T r j.
Proof.
  unfold F64.column, F64.entry. revert r.
  induction T as [|row T IH]; intros [|r]; simpl; auto;
    destruct j; reflexivity.
Qed.

Lemma f64_column_finite (j : nat) (T : F64.matrix) :
  F64.finite_tableau T ->
  Forall (fun x => is_finite x = true) (F64.column j T).
Proof.
  unfold F64.finite_tableau, F64.column. intro F. apply Forall_map.
  eapply Forall_impl; [|exact F]. simpl. intros row Hrow.
  destruct (Nat.ltb_spec j (length row)) as [L|G].
  - rewrite Forall_forall in Hrow. apply Hrow. now apply nth_In.
  - rewrite nth_overflow by assumption. reflexivity.
Qed.

Lemma f64_set_column_length (l : nat) (vals : list float) (M : F64.matrix) :
  length (F64.set_column l vals M) = length M.
Proof.
  revert vals. induction M as [|row M IH]; intros [|v vals]; simpl; auto.
Qed.

Lemma f64_nth_set_column (l r : nat) (vals : list float) (M : F64.matrix) :
  (r < length M)%nat -> length vals = length M ->
  nth r (F64.set_column l vals M) []
  = update l (nth r vals 0%float) (nth r M []).
Proof.
  revert r vals. induction M as [|row M IH]; intros [|r] [|v vals] Hr Hv;
    simpl in *; try lia; try discriminate; auto.
  apply IH; lia.
Qed.

Lemma f64_identity_length (n : nat) : length (F64.identity n) = n.
Proof. unfold F64.identity. now rewrite length_map, length_seq. Qed.

Lemma f64_nth_identity (n r : nat) :
  (r < n)%nat -> nth r (F64.identity n) [] = F64.unit_vector n r.
Proof.
  intro H. unfold F64.identity. now rewrite nth_map_seq.
Qed.

Lemma f64_modify_length (T : F64.matrix) (l e : nat) (p : float) :
  length (F64.modify T l e p) = F64.n_rows T.
Proof.
  unfold F64.modify, F64.set_entry.
  now rewrite update_length, f64_set_column_length, f64_identity_length.
Qed.

(** Row [r] of the elementary matrix of lines 52-54: the unit vector of
    [r] with its entry at the leaving position replaced. *)
Lemma f64_nth_modify (T : F64.matrix) (l e r : nat) (p : float) :
  (l < F64.n_rows T)%nat -> (r < F64.n_rows T)%nat ->
  nth r (F64.modify T l e p) []
  = update l (if r =? l then (1 / p)%float
              else (- F64.entry T r e / p)%float)
      (F64.unit_vector (F64.n_rows T) r).
Proof.
  intros Hl Hr. unfold F64.modify, F64.set_entry.
  assert (Hc : forall k, (k < F64.n_rows T)%nat ->
            nth k (F64.set_column l
                     (map (fun x => (- x / p)%float) (F64.column e T))
                     (F64.identity (F64.n_rows T))) []
            = update l (- F64.entry T k e / p)%float
                (F64.unit_vector (F64.n_rows T) k)).
  { intros k Hk.
    rewrite f64_nth_set_column
      by (rewrite ?length_map, ?f64_column_length, f64_identity_length; auto).
    rewrite f64_nth_identity by assumption.
    rewrite (nth_map_lt _ _ k 0%float 0%float)
      by now rewrite f64_column_length.
    now rewrite f64_nth_column. }
  destruct (Nat.eqb_spec r l) as [->|N].
  - rewrite nth_update_eq
      by now rewrite f64_set_column_length, f64_identity_length.
    rewrite Hc by assumption. apply update_update.
  - rewrite nth_update_neq by congruence. now apply Hc.
Qed.

(** One entry of the product of lines 52-55 on a tableau of finite
    doubles: the leaving row is multiplied by the rounded [1/p]; any
    other row gains the rounded quotient [-a/p], with [a] its
    entering-column coefficient, times the old leaving row. *)
Lemma f64_entry_pivot_update (T : F64.matrix) (l e r j : nat) :
  F64.finite_tableau T ->
  (l < F64.n_rows T)%nat -> (r < F64.n_rows T)%nat ->
  (j < F64.n_columns T)%nat ->
  F64.same_number (F64.entry (F64.pivot_update T l e) r j)
    (if r =? l
     then (1 / F64.entry T l e * F64.entry T l j)%float
     else (F64.entry T r j
           + - F64.entry T r e / F64.entry T l e * F64.entry T l j)%float).
Proof.
  intros HF Hl Hr Hj. unfold F64.pivot_update, F64.matmul, F64.entry at 1.
  rewrite (nth_map_lt _ _ r [] []) by now rewrite f64_modify_length.
  rewrite nth_map_seq by assumption. simpl.
  rewrite f64_nth_modify by assumption.
  set (a := if r =? l then (1 / F64.entry T l e)%float
            else (- F64.entry T r e / F64.entry T l e)%float).
  pose proof (f64_dot_sparse
                (update l a (F64.unit_vector (F64.n_rows T) r))
                (F64.column j T) a r l) as D.
  rewrite !f64_nth_column in D.
  assert (Hn : length (F64.unit_vector (F64.n_rows T) r) = F64.n_rows T)
    by (unfold F64.unit_vector; now rewrite length_map, length_seq).
  rewrite f64_column_length in D.
  unfold a in *. destruct (Nat.eqb_spec r l) as [E|N]; apply D;
    try (now rewrite update_length, Hn); try assumption;
    try (now apply f64_column_finite).
  - intros k Hk. destruct (Nat.eqb_spec k l) as [->|Nk].
    + apply nth_update_eq. now rewrite Hn.
    + rewrite nth_update_neq by congruence.
      unfold F64.unit_vector. rewrite nth_map_seq by assumption. simpl.
      subst r. destruct (Nat.eqb_spec l k); [congruence|].
      destruct (Nat.eqb_spec k l); [congruence|reflexivity].
  - intros k Hk. destruct (Nat.eqb_spec k l) as [->|Nk].
    + apply nth_update_eq. now rewrite Hn.
    + rewrite nth_update_neq by congruence.
      unfold F64.unit_vector. rewrite nth_map_seq by assumption. simpl.
      now rewrite Nat.eqb_sym.
Qed.

(** A finite double times a zero is a zero. *)
Lemma f64_mul_zero_r (m x : float) :
  is_finite m = true -> (x =? 0)%float = true -> (m * x =? 0)%float = true.
Proof.
  intros Hm Hx. apply f64_is_zero in Hx. destruct Hx as [s Hx].
  apply f64_is_zero. rewrite mul_spec, Hx.
  destruct (f64_is_finite m Hm) as [[s' ->]|(s' & m' & e' & ->)];
    unfold SF64mul; simpl; eauto.
Qed.

(** X19.  What a pivot in float64 leaves alone: in a tableau of finite
    doubles, a column whose entry in the leaving row is zero keeps, up
    to the sign of a zero, its entry in every other row whose multiplier
    [-a/p] is finite, and keeps a zero in the leaving row when [1/p] is
    finite.  This is what holds the unit vectors of the other basic
    columns, and a column zeroed after phase 1, in place. *)
Theorem f64_pivot_keeps_zero_columns (T : F64.matrix)
  (i_leave i_enter r j : nat) :
  F64.finite_tableau T ->
  (i_leave < F64.n_rows T)%nat -> (r < F64.n_rows T)%nat ->
  (j < F64.n_columns T)%nat ->
  (F64.entry T i_leave j =? 0)%float = true ->
  (r <> i_leave ->
   is_finite (- F64.entry T r i_enter / F64.entry T i_leave i_enter) = true ->
   F64.same_number (F64.entry (F64.pivot_update T i_leave i_enter) r j)
     (F64.entry T r j)) /\
  (r = i_leave ->
   is_finite (1 / F64.entry T i_leave i_enter) = true ->
   (F64.entry (F64.pivot_update T i_leave i_enter) r j =? 0)%float = true).
Proof.
  intros HF Hl Hr Hj Hz.
  pose proof (f64_entry_pivot_update T i_leave i_enter r j HF Hl Hr Hj) as E.
  split.
  - intros N Hm. destruct (Nat.eqb_spec r i_leave) as [|_]; [congruence|].
    apply (same_number_trans _ _ _ E).
    apply f64_add_zero_r. now apply f64_mul_zero_r.
  - intros -> Hm. rewrite Nat.eqb_refl in E.
    pose proof (f64_mul_zero_r _ _ Hm Hz) as Z.
    destruct E as [->|[E _]]; assumption.
Qed.

Lemma two_basic_example_finite : F64.finite_tableau two_basic_example.
Proof. repeat constructor. Defined.

Lemma f64_pivot_keeps_zero_columns_witness :
  F64.same_number (F64.entry (F64.pivot_update two_basic_example 1 0) 2 2)
    (F64.entry two_basic_example 2 2) /\
  (F64.entry (F64.pivot_update two_basic_example 1 0) 1 2 =? 0)%float = true.
Proof.
  split.
  - apply (f64_pivot_keeps_zero_columns two_basic_example 1 0 2 2
             two_basic_example_finite);
      try (unfold F64.n_rows, F64.n_columns, two_basic_example; simpl; lia);
      reflexivity.
  - apply (f64_pivot_keeps_zero_columns two_basic_example 1 0 1 2
             two_basic_example_finite);
      try (unfold F64.n_rows, F64.n_columns, two_basic_example; simpl; lia);
      reflexivity.
Defined.

(** C4, as the program has it.  The pivot is the product of the elementary
    transformation matrix of lines 52-54, built from the tableau before
    the pivot, with that tableau.  In exact arithmetic the product is
    the spec's simultaneous row operation: the leaving row is rescaled by
    [1/p] and every other row, the objective row included, loses its old
    entering-column coefficient times the rescaled leaving row, and for
    a non-zero [p] the entering column is afterwards the unit vector of
    the leaving row.  In the float64 arithmetic of the program, on a
    tableau of finite doubles, the product gives as leaving row the old
    leaving row times the rounded [1/p], and as any other row that row
    plus the rounded [-a/p], with [a] its old entering-column
    coefficient, times the old leaving row, every product and sum
    rounded, up to the sign of a zero. *)
Theorem pivot_update_is_rounded_row_operation :
  (forall (T : matrix) (i_leave i_enter : nat),
     rectangular T -> (i_leave < n_rows T)%nat ->
     pivot_update T i_leave i_enter = row_operation T i_leave i_enter /\
     ((i_enter < n_columns T)%nat -> entry T i_leave i_enter <> 0 ->
      forall r, (r < n_rows T)%nat ->
        entry (pivot_update T i_leave i_enter) r i_enter
        = if r =? i_leave then 1 else 0)) /\
  (forall (T : F64.matrix) (i_leave i_enter : nat),
     F64.finite_tableau T -> (i_leave < F64.n_rows T)%nat ->
     forall r j, (r < F64.n_rows T)%nat -> (j < F64.n_columns T)%nat ->
       F64.same_number
         (F64.entry (F64.pivot_update T i_leave i_enter) r j)
         (if r =? i_leave
          then (1 / F64.entry T i_leave i_enter
                * F64.entry T i_leave j)%float
          else (F64.entry T r j
                + - F64.entry T r i_enter / F64.entry T i_leave i_enter
                  * F64.entry T i_leave j)%float)).
Proof.
  split.
  - intros T i_leave i_enter HT Hl. split.
    + now apply pivot_update_row_operation.
    + intros He Hp. now apply pivot_update_unit_column.
  - intros T i_leave i_enter HF Hl r j Hr Hj.
    now apply f64_entry_pivot_update.
Qed.

Lemma rounding_example_finite : F64.finite_tableau rounding_example.
Proof. repeat constructor. Defined.

Lemma pivot_update_is_rounded_row_operation_witness :
  (pivot_update pivot_example 1 0 = row_operation pivot_example 1 0 /\
   forall r, (r < n_rows pivot_example)%nat ->
     entry (pivot_update pivot_example 1 0) r 0 = if r =? 1 then 1 else 0) /\
  F64.same_number (F64.entry (F64.pivot_update rounding_example 1 0) 1 0)
    (1 / 49 * 49)%float /\
  F64.same_number (F64.entry (F64.pivot_update rounding_example 1 0) 0 0)
    (-1 + - (-1) / 49 * 49)%float.
Proof.
  destruct pivot_update_is_rounded_row_operation as [Exact Float].
  split; [|split].
  - destruct (Exact pivot_example 1%nat 0%nat) as [E U].
    + repeat constructor.
    + unfold n_rows, pivot_example; simpl; lia.
    + split; [exact E|]. apply U.
      * unfold n_columns, pivot_example; simpl; lia.
      * apply Qceqb_neq. reflexivity.
  - apply (Float rounding_example 1%nat 0%nat rounding_example_finite);
      unfold F64.n_rows, F64.n_columns, rounding_example; simpl; lia.
  - apply (Float rounding_example 1%nat 0%nat rounding_example_finite);
      unfold F64.n_rows, F64.n_columns, rounding_example; simpl; lia.
Defined.

(** C4 as the spec words it does not hold of the program's arithmetic.
    On the tableau [[-1, 0, 0], [49, 1, 49]] with basis [1], which the
    entry checks accept and on which every run pivots on row 1 and
    column 0, the entering column is [-2^-53, 1 - 2^-53] after the
    pivot, not the unit vector [0, 1]: the rounded [1/49] times [49] is
    [0.9999999999999999].  And on [[-3, 0, 0], [3, 1, 7]] the product
    leaves 7 as right-hand side of the objective row where the row
    operation, rescaled row first, gives [6.999999999999999]. *)
Lemma pivot_update_rounds :
  check_preconditions (as_tableau rounding_state) (as_basis rounding_state)
  = inr rounding_state /\
  (forall buf,
     iteration buf rounding_state
     = Continue (mkState (pivot_update (LP_matrix rounding_state) 1 0)
                   [0%Z])) /\
  F64.column 0 (F64.pivot_update rounding_example 1 0)
  = [-0x1p-53; 0x1.fffffffffffffp-1]%float /\
  F64.column 0 (F64.pivot_update rounding_example 1 0)
  <> F64.unit_vector 2 1 /\
  (F64.entry (F64.pivot_update rounding_example 1 0) 1 0 =? 1)%float = false /\
  (F64.entry (F64.pivot_update rounding_example 1 0) 0 0 =? 0)%float = false /\
  F64.entry (F64.pivot_update skew_example 1 0) 0 2 = 7%float /\
  F64.entry (F64.row_operation skew_example 1 0) 0 2
  = 0x1.bffffffffffffp+2%float /\
  F64.pivot_update skew_example 1 0 <> F64.row_operation skew_example 1 0.
Proof.
  split; [reflexivity|]. split; [intro buf; reflexivity|].
  split; [reflexivity|].
  split.
  { intro H. apply (f_equal (fun c => (nth 1 c 0 =? 1)%float)) in H.
    vm_compute in H. discriminate H. }
  split; [reflexivity|]. split; [reflexivity|].
  split; [reflexivity|]. split; [reflexivity|].
  intro H. apply (f_equal (fun M => (F64.entry M 0 2 =? 7)%float)) in H.
  vm_compute in H. discriminate H.
Qed.

(** ** Termination test and returned solution *)

Lemma first_negative_none (c : list Qc) :
  first_negative c = None <->
  forall j, (j < length c)%nat -> ~ nth j c 0 < - eps.
Proof.
  induction c as [|x c IH]; simpl.
  - split; [intros _ j Hj; lia|reflexivity].
  - destruct (Qcltb x (- eps)) eqn:E.
    + split; [discriminate|]. intro H. exfalso.
      apply (H O); [lia|]. now apply Qcltb_lt.
    + destruct (first_negative c) as [k|]; simpl.
      * split; [discriminate|]. intro H. exfalso.
        assert (D : Some k = None); [|discriminate D].
        apply IH. intros j Hj. apply (H (S j)). lia.
      * split; [|reflexivity]. intros _ [|j] Hj.
        -- intro L. apply Qcltb_lt in L. congruence.
        -- apply (proj1 IH eq_refl). lia.
Qed.

Lemma first_negative_some (c : list Qc) (k : nat) :
  first_negative c = Some k ->
  (k < length c)%nat /\ nth k c 0 < - eps /\
  forall j, (j < k)%nat -> ~ nth j c 0 < - eps.
Proof.
  revert k. induction c as [|x c IH]; simpl; intros k H; [discriminate|].
  destruct (Qcltb x (- eps)) eqn:E.
  - inversion H; subst. repeat split; [lia|now apply Qcltb_lt|].
    intros j Hj; lia.
  - destruct (first_negative c) as [k'|]; [|discriminate].
    inversion H; subst. destruct (IH k' eq_refl) as (L & N & M).
    repeat split; [simpl; lia|exact N|].
    intros [|j] Hj.
    + intro L'. apply Qcltb_lt in L'. congruence.
    + apply M. lia.
Qed.

Lemma scatter_at_spec (ks : list nat) (vals a : list Qc) :
  length ks = length vals -> NoDup ks ->
  Forall (fun k => (k < length a)%nat) ks ->
  length (scatter_at a ks vals) = length a /\
  (forall r, (r < length ks)%nat ->
     nth (nth r ks O) (scatter_at a ks vals) 0 = nth r vals 0) /\
  (forall j, ~ In j ks -> nth j (scatter_at a ks vals) 0 = nth j a 0).
Proof.
  revert vals a. induction ks as [|k ks IH]; intros [|v vals] a L D F;
    simpl in *; try discriminate.
  - repeat split; auto. intros r Hr; lia.
  - inversion D as [|? ? Hk D']; subst.
    inversion F as [|? ? Fk F']; subst.
    destruct (IH vals (update k v a)) as (IL & IR & IJ);
      [lia|assumption|now rewrite update_length|].
    rewrite update_length in IL.
    repeat split; [exact IL| |].
    + intros [|r] Hr.
      * rewrite IJ by assumption. now apply nth_update_eq.
      * apply IR. lia.
    + intros j Hj. rewrite IJ by tauto. apply nth_update_neq. tauto.
Qed.

Lemma NoDup_map_to_nat (B : list Z) :
  Forall (fun i => (0 <= i)%Z) B -> NoDup B -> NoDup (map Z.to_nat B).
Proof.
  induction 1 as [|i B Hi HB IH]; simpl; intro D; [constructor|].
  inversion D as [|? ? N D']; subst. constructor; [|now apply IH].
  intro H. apply in_map_iff in H. destruct H as (z & E & Hz).
  apply N. rewrite Forall_forall in HB. specialize (HB z Hz).
  assert (z = i) by lia. now subst.
Qed.

(** Invariant (c) makes the basis repetition-free: a column cannot be the
    unit vector of two rows. *)
Lemma basic_form_NoDup (st : state) : basic_form st -> NoDup (bases st).
Proof.
  intros [_ _ Hid]. apply (NoDup_nth _ 0%Z). intros r s Hr Hs E.
  destruct (Nat.eq_dec r s) as [|N]; [assumption|exfalso].
  pose proof (Hid r r Hr Hr) as H1. pose proof (Hid r s Hr Hs) as H2.
  unfold basic_column in *. rewrite <- E, H1 in H2.
  rewrite Nat.eqb_refl in H2. destruct (Nat.eqb_spec r s); [congruence|].
  apply Q_apart_0_1. exact H2.
Qed.

Lemma nth_firstn_lt {A} (n j : nat) (l : list A) (d : A) :
  (j < n)%nat -> nth j (firstn n l) d = nth j l d.
Proof.
  revert j l. induction n as [|n IH]; intros j [|x l] H; simpl;
    try lia; auto.
  destruct j; auto. apply IH. lia.
Qed.

Lemma entry_tl (T : matrix) (r j : nat) :
  entry (tl T) r j = entry T (S r) j.
Proof. unfold entry. destruct T as [|row T]; [now destruct r|reflexivity]. Qed.

Lemma reduced_costs_length (st : state) :
  wf_state st ->
  length (reduced_costs st) = (n_columns (LP_matrix st) - 1)%nat.
Proof.
  intros [_ _ Hc _]. unfold reduced_costs, n_columns in *.
  rewrite length_firstn. lia.
Qed.

Lemma nth_reduced_costs (st : state) (j : nat) :
  (j < n_columns (LP_matrix st) - 1)%nat ->
  nth j (reduced_costs st) 0 = entry (LP_matrix st) 0 j.
Proof.
  intro H. unfold reduced_costs, entry. rewrite nth_firstn_lt by assumption.
  now destruct (LP_matrix st).
Qed.

Lemma optimal_iff (st : state) :
  wf_state st ->
  first_negative (reduced_costs st) = None <->
  forall j, (j < n_columns (LP_matrix st) - 1)%nat ->
    ~ entry (LP_matrix st) 0 j < - eps.
Proof.
  intro W. rewrite first_negative_none, reduced_costs_length by assumption.
  split; intros H j Hj.
  - rewrite <- nth_reduced_costs by assumption. now apply H.
  - rewrite nth_reduced_costs by assumption. now apply H.
Qed.

(** What a pass does on a well-formed state, split on the termination
    test. *)
Lemma iteration_unfold (buf : nat -> bound) (st : state) :
  wf_state st ->
  iteration buf st =
  match first_negative (reduced_costs st) with
  | None =>
      Done (scatter_at (repeat 0 (n_columns (LP_matrix st) - 1))
              (map Z.to_nat (bases st))
              (column (n_columns (LP_matrix st) - 1) (tl (LP_matrix st))))
           (- entry (LP_matrix st) 0 (n_columns (LP_matrix st) - 1))
  | Some i_enter =>
      let T := LP_matrix st in
      let n := (n_columns T - 1)%nat in
      let bounds :=
        map threshold
          (np_divide_where buf (column n (tl T))
             (column i_enter (map (firstn n) (tl T)))) in
      if forallb is_inf bounds then Raise Unbounded else
      if length (bases st) <=? np_argmin bounds then Raise IndexError else
      if Qceqb (entry T (S (np_argmin bounds)) i_enter) 0
      then Raise NonFinite
      else Continue
             (mkState (pivot_update T (S (np_argmin bounds)) i_enter)
                (update (np_argmin bounds) (Z.of_nat i_enter) (bases st)))
  end.
Proof.
  intros W. pose proof (reduced_costs_length st W) as Hlen.
  destruct W as [Hrect Hrows Hcols Hb].
  unfold iteration, reduced_costs in *.
  destruct st as [T B]; simpl in *.
  destruct T as [|row0 rest]; [discriminate|].
  unfold n_columns in *; simpl in *.
  destruct (Nat.eqb_spec (length row0) 0) as [E|_]; [lia|].
  destruct (first_negative (firstn (length row0 - 1) row0)); [reflexivity|].
  unfold scatter. rewrite repeat_length, Hlen.
  rewrite (norm_indices_nonneg _ _ Hb).
  rewrite column_length, length_map.
  unfold n_rows in Hrows; simpl in Hrows. injection Hrows as Hrows.
  rewrite Hrows, Nat.eqb_refl. unfold entry; simpl. reflexivity.
Qed.

Lemma iteration_pivot_not_done (buf : nat -> bound) (st : state) (k : nat) :
  wf_state st -> first_negative (reduced_costs st) = Some k ->
  forall solution value, iteration buf st <> Done solution value.
Proof.
  intros W E solution value. rewrite (iteration_unfold buf st W), E. simpl.
  repeat match goal with
         | |- (if ?b then _ else _) <> _ => destruct b
         end; discriminate.
Qed.

(** A pass returns exactly when no reduced cost is below -eps. *)
Lemma iteration_done_iff (buf : nat -> bound) (st : state) :
  wf_state st ->
  (exists solution value, iteration buf st = Done solution value) <->
  (forall j, (j < n_columns (LP_matrix st) - 1)%nat ->
     ~ entry (LP_matrix st) 0 j < - eps).
Proof.
  intro W. rewrite <- (optimal_iff st W).
  destruct (first_negative (reduced_costs st)) as [k|] eqn:E.
  - split; [|discriminate]. intros (s & v & H). exfalso.
    exact (iteration_pivot_not_done buf st k W E s v H).
  - split; [reflexivity|]. intros _.
    rewrite (iteration_unfold buf st W), E. eauto.
Qed.

Lemma optimal_example_wf : wf_state optimal_example.
Proof.
  constructor.
  - repeat constructor.
  - reflexivity.
  - unfold n_columns; simpl; lia.
  - repeat constructor; unfold n_columns; simpl; lia.
Defined.

(** ** The entry checks *)

Lemma forallb_nth {A} (f : A -> bool) (l : list A) (d : A) :
  forallb f l = true <->
  forall r, (r < length l)%nat -> f (nth r l d) = true.
Proof.
  rewrite forallb_forall. split.
  - intros H r Hr. apply H. now apply nth_In.
  - intros H x Hx. destruct (In_nth _ _ d Hx) as [r [Hr E]]. rewrite <- E. now apply H.
Qed.

Lemma forallb_nth_false {A} (f : A -> bool) (l : list A) (d : A) (r : nat) :
  (r < length l)%nat -> f (nth r l d) = false -> forallb f l = false.
Proof.
  intros Hr Hf. destruct (forallb f l) eqn:E; [|reflexivity].
  rewrite (forallb_nth f l d) in E. rewrite (E r Hr) in Hf. discriminate.
Qed.

Lemma scatter_error (a : list Qc) (idx : list Z) (vals : list Qc) (e : error) :
  scatter a idx vals = inl e -> e = IndexError \/ e = ShapeError.
Proof.
  unfold scatter. destruct (norm_indices _ _); [|intro H; inversion H; auto].
  destruct (_ =? _); [discriminate|].
  destruct (_ =? _); [discriminate|]. intro H; inversion H; auto.
Qed.

(** The only exceptions a pass can raise. *)
Lemma iteration_raise (buf : nat -> bound) (st : state) (e : error) :
  iteration buf st = Raise e ->
  e = IndexError \/ e = ShapeError \/ e = Unbounded \/ e = NonFinite.
Proof.
  unfold iteration. destruct (LP_matrix st) as [|row0 rest].
  { intro H; inversion H; auto. }
  destruct (_ =? 0). { intro H; inversion H; auto. }
  destruct (first_negative _).
  - destruct (forallb _ _). { intro H; inversion H; auto. }
    destruct (_ <=? _). { intro H; inversion H; auto. }
    destruct (Qceqb _ _); [|discriminate]. intro H; inversion H; auto.
  - destruct (scatter _ _ _) as [e'|s] eqn:E; [|discriminate].
    intro H; inversion H; subst. destruct (scatter_error _ _ _ _ E); auto.
Qed.

Lemma simplex_loop_raise (fuel : nat) (uninit : nat -> nat -> bound)
  (it : nat) (st : state) (e : error) :
  simplex_loop fuel uninit it st = Raised e ->
  e <> InvalidInput /\ e <> Infeasible.
Proof.
  revert it st. induction fuel as [|fuel IH]; simpl; intros it st H.
  - inversion H; subst. split; discriminate.
  - destruct (iteration (uninit (S it)) st) as [s v|e'|st'] eqn:E.
    + discriminate.
    + inversion H; subst.
      destruct (iteration_raise _ _ _ E) as [-> | [-> | [-> | ->]]];
        split; discriminate.
    + eapply IH; eassumption.
Qed.

(** The checks of lines 9-21 pass on a well-formed state whose reduced
    costs at the basic columns are below the tolerance in absolute value
    and whose right-hand sides are above it. *)
Lemma check_preconditions_accepts (T : matrix) (B : list Z) :
  wf_state (mkState T B) ->
  (forall r, (r < length B)%nat ->
     Qcabs' (entry T 0 (basic_column (mkState T B) r)) < eps) ->
  (forall r, (r < length B)%nat -> eps < entry T (S r) (n_columns T - 1)) ->
  check_preconditions (Arr2 float64 T) (Arr1 int64 B) = inr (mkState T B).
Proof.
  intros [Hrect Hrows Hcols Hb] Hcost Hrhs; simpl in *.
  unfold check_preconditions; simpl.
  rewrite Hrows.
  replace (Z.of_nat (S (length B)) - 1 =? Z.of_nat (length B))%Z with true
    by (symmetry; apply Z.eqb_eq; lia).
  simpl. unfold gather.
  assert (Hb' : Forall (fun i => (0 <= i < Z.of_nat (length (hd [] T)))%Z) B)
    by (eapply Forall_impl; [|exact Hb]; unfold n_columns; simpl; intros; lia).
  rewrite (norm_indices_nonneg _ _ Hb'). simpl.
  replace (forallb _ (map _ (map Z.to_nat B))) with true.
  2:{ symmetry. apply (forallb_nth _ _ 0). intros r Hr.
      rewrite !length_map in Hr. rewrite map_map.
      rewrite (nth_map_lt _ _ r 0 0%Z) by assumption.
      apply Qcltb_lt. specialize (Hcost r Hr).
      unfold entry, basic_column in Hcost; simpl in Hcost.
      now destruct T. }
  simpl. destruct (Nat.eqb_spec (n_columns T) 0) as [E|_]; [lia|].
  replace (forallb _ (column _ _)) with true; [reflexivity|].
  symmetry. apply (forallb_nth _ _ 0). intros r Hr.
  rewrite column_length in Hr. rewrite nth_column, entry_tl.
  apply Qcltb_lt. apply Hrhs.
  unfold n_rows in Hrows. destruct T; simpl in *; [discriminate|lia].
Qed.

Lemma check_preconditions_cost (T : matrix) (B : list Z) (r : nat) :
  wf_state (mkState T B) ->
  (r < length B)%nat ->
  eps <= Qcabs' (entry T 0 (basic_column (mkState T B) r)) ->
  check_preconditions (Arr2 float64 T) (Arr1 int64 B) = inl InvalidInput.
Proof.
  intros [Hrect Hrows Hcols Hb] Hr Hcost; simpl in *.
  unfold check_preconditions; simpl.
  rewrite Hrows.
  replace (Z.of_nat (S (length B)) - 1 =? Z.of_nat (length B))%Z with true
    by (symmetry; apply Z.eqb_eq; lia).
  simpl. unfold gather.
  assert (Hb' : Forall (fun i => (0 <= i < Z.of_nat (length (hd [] T)))%Z) B)
    by (eapply Forall_impl; [|exact Hb]; unfold n_columns; simpl; intros; lia).
  rewrite (norm_indices_nonneg _ _ Hb'). simpl.
  rewrite (forallb_nth_false _ _ 0 r); [reflexivity| |].
  - now rewrite !length_map.
  - rewrite map_map, (nth_map_lt _ _ r 0 0%Z) by assumption.
    apply Qcltb_ge. unfold entry, basic_column in Hcost; simpl in Hcost.
    now destruct T.
Qed.

Lemma check_preconditions_rhs (T : matrix) (B : list Z) (r : nat) :
  wf_state (mkState T B) ->
  (forall r, (r < length B)%nat ->
     Qcabs' (entry T 0 (basic_column (mkState T B) r)) < eps) ->
  (r < length B)%nat ->
  entry T (S r) (n_columns T - 1) <= eps ->
  check_preconditions (Arr2 float64 T) (Arr1 int64 B) = inl InvalidInput.
Proof.
  intros W Hcost Hr Hrhs. pose proof W as [Hrect Hrows Hcols Hb]; simpl in *.
  unfold check_preconditions; simpl.
  rewrite Hrows.
  replace (Z.of_nat (S (length B)) - 1 =? Z.of_nat (length B))%Z with true
    by (symmetry; apply Z.eqb_eq; lia).
  simpl. unfold gather.
  assert (Hb' : Forall (fun i => (0 <= i < Z.of_nat (length (hd [] T)))%Z) B)
    by (eapply Forall_impl; [|exact Hb]; unfold n_columns; simpl; intros; lia).
  rewrite (norm_indices_nonneg _ _ Hb'). simpl.
  replace (forallb _ (map _ (map Z.to_nat B))) with true.
  2:{ symmetry. apply (forallb_nth _ _ 0). intros k Hk.
      rewrite !length_map in Hk. rewrite map_map.
      rewrite (nth_map_lt _ _ k 0 0%Z) by assumption.
      apply Qcltb_lt. specialize (Hcost k Hk).
      unfold entry, basic_column in Hcost; simpl in Hcost.
      now destruct T. }
  simpl. destruct (Nat.eqb_spec (n_columns T) 0) as [E|_]; [lia|].
  rewrite (forallb_nth_false _ _ 0 r); [reflexivity| |].
  - rewrite column_length.
    unfold n_rows in Hrows. destruct T; simpl in *; [discriminate|lia].
  - rewrite nth_column, entry_tl. now apply Qcltb_ge.
Qed.

(** C8, as the program has it.  solve_canonical_LP raises InvalidInput,
    whatever the iteration budget (so before any pivot), when the tableau
    is not 2-D, the basis is not 1-D, the basis dtype is not an integer
    type, the tableau dtype is not float, the basis size is not the row
    count minus 1, some basic column has a reduced cost of absolute value
    at least eps, or some constraint row has a right-hand side that is
    not strictly above eps (so also for one that is exactly 0).  It
    accepts, and never raises InvalidInput on, a well-formed tableau whose
    reduced costs at the basic columns are below eps in absolute value
    and whose right-hand sides are all strictly above eps. *)
Theorem solve_canonical_LP_entry_checks (fuel : nat)
  (uninit : nat -> nat -> bound) (LPm : ndarray Qc) (bs : ndarray Z) :
  (ndim LPm <> 2%nat \/ ndim bs <> 1%nat \/
   is_integer (dtype bs) = false \/ is_float (dtype LPm) = false ->
   solve_canonical_LP fuel uninit LPm bs = Raised InvalidInput) /\
  (forall T B, LPm = Arr2 float64 T -> bs = Arr1 int64 B ->
     (n_rows T <> S (length B) ->
      solve_canonical_LP fuel uninit LPm bs = Raised InvalidInput) /\
     (wf_state (mkState T B) ->
      ((exists r, (r < length B)%nat /\
          eps <= Qcabs' (entry T 0 (basic_column (mkState T B) r))) ->
       solve_canonical_LP fuel uninit LPm bs = Raised InvalidInput) /\
      ((forall r, (r < length B)%nat ->
          Qcabs' (entry T 0 (basic_column (mkState T B) r)) < eps) ->
       ((exists r, (r < length B)%nat /\
           entry T (S r) (n_columns T - 1) <= eps) ->
        solve_canonical_LP fuel uninit LPm bs = Raised InvalidInput) /\
       ((forall r, (r < length B)%nat ->
           eps < entry T (S r) (n_columns T - 1)) ->
        check_preconditions LPm bs = inr (mkState T B) /\
        solve_canonical_LP fuel uninit LPm bs <> Raised InvalidInput)))).
Proof.
  split.
  - intro H. unfold solve_canonical_LP, check_preconditions.
    destruct (Nat.eqb_spec (ndim LPm) 2) as [E1|]; [simpl|reflexivity].
    destruct (Nat.eqb_spec (ndim bs) 1) as [E2|]; [simpl|reflexivity].
    destruct (is_integer (dtype bs)) eqn:E3; [simpl|reflexivity].
    destruct (is_float (dtype LPm)) eqn:E4; [simpl|reflexivity].
    exfalso. destruct H as [H|[H|[H|H]]]; congruence.
  - intros T B -> ->. split; [|intro W; split; [|intro Hcost; split]].
    + intro H. unfold solve_canonical_LP, check_preconditions; simpl.
      destruct (Z.eqb_spec (Z.of_nat (n_rows T) - 1) (Z.of_nat (length B)));
        [lia|reflexivity].
    + intros (r & Hr & Hc). unfold solve_canonical_LP.
      now rewrite (check_preconditions_cost T B r).
    + intros (r & Hr & Hc). unfold solve_canonical_LP.
      now rewrite (check_preconditions_rhs T B r).
    + intro Hrhs. unfold solve_canonical_LP.
      rewrite (check_preconditions_accepts T B) by assumption.
      split; [reflexivity|]. intro H.
      apply simplex_loop_raise in H. tauto.
Qed.

(** C8 as the spec words it does not hold: a canonical tableau whose single
    right-hand side is exactly 0 is rejected by the entry checks. *)
Lemma zero_rhs_rejected :
  canonical zero_rhs_example /\
  forall fuel uninit,
    solve_canonical_LP fuel uninit (as_tableau zero_rhs_example)
      (as_basis zero_rhs_example) = Raised InvalidInput.
Proof.
  split; [|reflexivity].
  constructor.
  - constructor.
    + constructor.
      * repeat constructor.
      * reflexivity.
      * unfold n_columns; simpl; lia.
      * repeat constructor; unfold n_columns; simpl; lia.
    + intros r Hr. simpl in Hr. assert (r = O) by lia. subst.
      apply Qcltb_lt. reflexivity.
    + intros r s Hr Hs. simpl in Hr, Hs.
      assert (r = O) by lia. assert (s = O) by lia. subst. reflexivity.
  - intros r Hr. simpl in Hr. assert (r = O) by lia. subst.
    apply Qcltb_ge. reflexivity.
Qed.

Lemma solve_canonical_LP_entry_checks_witness :
  check_preconditions (as_tableau optimal_example) (as_basis optimal_example)
  = inr optimal_example /\
  solve_canonical_LP 5 zero_filled (as_tableau optimal_example)
    (as_basis optimal_example) <> Raised InvalidInput.
Proof.
  destruct (solve_canonical_LP_entry_checks 5 zero_filled
              (as_tableau optimal_example) (as_basis optimal_example))
    as [_ H].
  destruct (H _ _ eq_refl eq_refl) as [_ H1].
  destruct (H1 optimal_example_wf) as [_ H2].
  assert (Hcost : forall r, (r < 1)%nat ->
            Qcabs' (entry (LP_matrix optimal_example) 0
                      (basic_column optimal_example r)) < eps).
  { intros r Hr. assert (r = O) by lia. subst.
    apply Qcltb_lt. reflexivity. }
  destruct (H2 Hcost) as [_ H3]. apply H3.
  intros r Hr. simpl in Hr. assert (r = O) by lia. subst.
  apply Qcltb_lt. reflexivity.
Defined.

(** ** The ratio test on concrete tableaux *)

(** Canonicity of a concrete state with at most two constraint rows. *)
Ltac basic_form_by_computation :=
  constructor;
  [ constructor;
    [ repeat constructor
    | reflexivity
    | unfold n_columns; simpl; lia
    | repeat constructor; unfold n_columns; simpl; lia ]
  | intros r Hr; simpl in Hr; destruct r as [|[|r]]; try lia;
    apply Qcltb_lt; reflexivity
  | intros r s Hr Hs; simpl in Hr, Hs;
    destruct r as [|[|r]]; destruct s as [|[|s]]; try lia;
    apply Qceqb_eq; reflexivity ].

Ltac canonical_by_computation :=
  constructor;
  [ basic_form_by_computation
  | intros r Hr; simpl in Hr; destruct r as [|[|r]]; try lia;
    apply Qcltb_ge; reflexivity ].

Lemma steep_row_example_canonical : canonical steep_row_example.
Proof. canonical_by_computation. Qed.

Lemma two_rows_example_canonical : canonical two_rows_example.
Proof. canonical_by_computation. Qed.

Lemma masked_row_example_canonical : canonical masked_row_example.
Proof. canonical_by_computation. Qed.

(** C2 at a concrete tableau.  The entering column 0 has the coefficient
    1e11, far above eps, in the only constraint row, and the checks
    accept the tableau; yet the ratio 1e-11 is below eps, line 44 turns
    it into Inf, and the solver raises Unbounded in its first pass,
    whatever the fresh buffer holds. *)
Theorem steep_row_raises_unbounded :
  canonical steep_row_example /\
  first_negative (reduced_costs steep_row_example) = Some O /\
  eps < entry (LP_matrix steep_row_example) 1 0 /\
  forall fuel uninit,
    solve_canonical_LP (S fuel) uninit (as_tableau steep_row_example)
      (as_basis steep_row_example) = Raised Unbounded.
Proof.
  split; [exact steep_row_example_canonical|].
  split; [reflexivity|]. split; [apply Qcltb_lt; reflexivity|].
  intros fuel uninit. reflexivity.
Qed.

Lemma degenerate_example_canonical : canonical degenerate_example.
Proof. canonical_by_computation. Qed.

(** The same defect on a degenerate vertex, with a zero-filled buffer:
    the first pivot ties and leaves a right-hand side 0; in the second
    pass the entering column has the coefficient 1 in that row, the ratio
    0 is turned into Inf, and the solver reports a bounded problem as
    unbounded. *)
Lemma degenerate_tie_raises_unbounded :
  canonical degenerate_example /\
  solve_canonical_LP 5 zero_filled (as_tableau degenerate_example)
    (as_basis degenerate_example) = Raised Unbounded /\
  exists st',
    iteration (zero_filled 1) degenerate_example = Continue st' /\
    first_negative (reduced_costs st') = Some 1%nat /\
    eps < entry (LP_matrix st') 2 1 /\
    entry (LP_matrix st') 2 4 = 0.
Proof.
  split; [exact degenerate_example_canonical|].
  split; [reflexivity|].
  eexists. split; [reflexivity|]. split; [reflexivity|].
  split; [apply Qcltb_lt|apply Qceqb_eq]; vm_compute; reflexivity.
Qed.

Lemma unbounded_example_canonical : canonical unbounded_example.
Proof. canonical_by_computation. Qed.

(** An entering column without positive coefficient: Unbounded is raised
    when the fresh buffer is zero-filled, but a stale 1.0 in the masked
    slot is taken for a ratio and the pass pivots on the coefficient -1
    instead. *)
Lemma unbounded_example_depends_on_buffer :
  canonical unbounded_example /\
  (forall fuel,
     solve_canonical_LP (S fuel) zero_filled (as_tableau unbounded_example)
       (as_basis unbounded_example) = Raised Unbounded) /\
  exists st',
    iteration (one_filled 1) unbounded_example = Continue st' /\
    bases st' = [0%Z].
Proof.
  split; [exact unbounded_example_canonical|].
  split; [intro fuel; reflexivity|].
  eexists. split; reflexivity.
Qed.

(** C3 at a concrete tableau.  Both constraint rows have an
    entering-column coefficient above eps, and the first has the smaller
    ratio (1e-11 against 1); the pass nevertheless makes the second row
    leave, because line 44 has replaced the first ratio by Inf.  The
    basis is written once, at the leaving row, with the entering
    column. *)
Theorem two_rows_leaving_row :
  canonical two_rows_example /\
  first_negative (reduced_costs two_rows_example) = Some O /\
  eps < entry (LP_matrix two_rows_example) 1 0 /\
  eps < entry (LP_matrix two_rows_example) 2 0 /\
  entry (LP_matrix two_rows_example) 1 3
    / entry (LP_matrix two_rows_example) 1 0
  < entry (LP_matrix two_rows_example) 2 3
    / entry (LP_matrix two_rows_example) 2 0 /\
  forall buf, exists st',
    iteration buf two_rows_example = Continue st' /\
    bases st' = update 1 0%Z (bases two_rows_example).
Proof.
  split; [exact two_rows_example_canonical|].
  split; [reflexivity|].
  repeat (split; [apply Qcltb_lt; reflexivity|]).
  intro buf. eexists. split; reflexivity.
Qed.

(** C5 at the same tableau.  The pivot of that pass leaves the first
    constraint row with the right-hand side 1 - 1e11, far below -eps, and
    the run ends by returning that value as the basic variable x1. *)
Theorem two_rows_negative_rhs :
  canonical two_rows_example /\
  (forall r, (r < 2)%nat ->
     eps < entry (LP_matrix two_rows_example) (S r) 3) /\
  (forall buf, exists st',
     iteration buf two_rows_example = Continue st' /\
     entry (LP_matrix st') 1 3 = Qc_of_Z (-99999999999) /\
     entry (LP_matrix st') 1 3 < - eps) /\
  forall fuel uninit, exists solution value final,
    solve_canonical_LP (S (S fuel)) uninit (as_tableau two_rows_example)
      (as_basis two_rows_example) = Returned solution value final /\
    nth 1 solution 0 = Qc_of_Z (-99999999999).
Proof.
  split; [exact two_rows_example_canonical|].
  split.
  { intros r Hr. destruct r as [|[|r]]; try lia; apply Qcltb_lt; reflexivity. }
  split.
  - intro buf. eexists. split; [reflexivity|].
    split; [apply Qceqb_eq|apply Qcltb_lt]; vm_compute; reflexivity.
  - intros fuel uninit. do 3 eexists. split; [reflexivity|].
    apply Qceqb_eq. vm_compute. reflexivity.
Qed.

(** C9 at a concrete tableau.  Two runs on the same canonical tableau
    and basis return different solutions and values when the fresh
    buffers of [np.divide] differ at the masked slot: with a zero-filled
    buffer the first row leaves and the value is -2; with 1.0 in the
    buffer the masked second row leaves and the value is -3 * 2^40. *)
Theorem masked_row_two_runs :
  canonical masked_row_example /\
  exists s1 v1 f1 s2 v2 f2,
    solve_canonical_LP 5 zero_filled (as_tableau masked_row_example)
      (as_basis masked_row_example) = Returned s1 v1 f1 /\
    solve_canonical_LP 5 one_filled (as_tableau masked_row_example)
      (as_basis masked_row_example) = Returned s2 v2 f2 /\
    v1 = Qc_of_Z (-2) /\
    v2 = Qc_of_Z (-3298534883328) /\
    s1 <> s2 /\ v1 <> v2.
Proof.
  split; [exact masked_row_example_canonical|].
  do 6 eexists. split; [reflexivity|]. split; [reflexivity|].
  split; [apply Qceqb_eq; vm_compute; reflexivity|].
  split; [apply Qceqb_eq; vm_compute; reflexivity|].
  split.
  - intro E. apply (f_equal (fun s => nth 0 s 0)) in E. revert E.
    apply Qceqb_neq. vm_compute. reflexivity.
  - apply Qceqb_neq. vm_compute. reflexivity.
Qed.

(** ** solve_LP *)

Lemma scatter_at_zero (ks : list nat) (row : list Qc) (j : nat) :
  Forall (fun k => (k < length row)%nat) ks ->
  length (scatter_at row ks (repeat 0 (length ks))) = length row /\
  nth j (scatter_at row ks (repeat 0 (length ks))) 0
  = if in_dec Nat.eq_dec j ks then 0 else nth j row 0.
Proof.
  revert row. induction ks as [|k ks IH]; intros row F; simpl.
  - auto.
  - inversion F as [|? ? Fk F']; subst.
    destruct (IH (update k 0 row)) as [IL IN];
      [now rewrite update_length|].
    rewrite update_length in IL. split; [exact IL|].
    rewrite IN.
    destruct (in_dec Nat.eq_dec j ks) as [I|I];
      destruct (Nat.eq_dec k j) as [E|E]; try reflexivity.
    + subst. now apply nth_update_eq.
    + now apply nth_update_neq.
Qed.

Lemma norm_index_lt (len : nat) (i : Z) (k : nat) :
  norm_index len i = Some k -> (k < len)%nat.
Proof.
  unfold norm_index.
  destruct (Z.leb_spec 0 i), (Z.ltb_spec i (Z.of_nat len)); simpl;
    try (intro E; inversion E; lia);
    destruct (Z.leb_spec (- Z.of_nat len) i), (Z.ltb_spec i 0); simpl;
    intro E; inversion E; lia.
Qed.

Lemma norm_indices_lt (len : nat) (idx : list Z) (ks : list nat) :
  norm_indices len idx = Some ks -> Forall (fun k => (k < len)%nat) ks.
Proof.
  revert ks. induction idx as [|i idx IH]; simpl; intros ks H.
  - inversion H. constructor.
  - destruct (norm_index len i) as [k|] eqn:E; [|discriminate].
    destruct (norm_indices len idx) as [ks'|]; [|discriminate].
    inversion H; subst. constructor; [now apply (norm_index_lt len i)|].
    now apply IH.
Qed.

(** Lines 92-93 entry by entry: every auxiliary column is zero in every
    row; elsewhere the objective row holds the saved coefficients in its
    first n columns and keeps its right-hand side, and the constraint rows
    are what they were. *)
Lemma restore_objective_spec (c : list Qc) (aux : list Z) (T T3 : matrix) :
  rectangular T -> (0 < n_columns T)%nat ->
  restore_objective c aux T = inr T3 ->
  exists ks,
    norm_indices (n_columns T) aux = Some ks /\
    n_rows T3 = n_rows T /\
    forall r j, (r < n_rows T)%nat -> (j < n_columns T)%nat ->
      entry T3 r j
      = if in_dec Nat.eq_dec j ks then 0
        else if (r =? 0) && (j <? n_columns T - 1) then nth j c 0
             else entry T r j.
Proof.
  intros HT Hc. unfold restore_objective.
  destruct T as [|row0 rest]; [discriminate|].
  unfold n_columns in *; simpl in *.
  destruct (Nat.eqb_spec (length c) (length (firstn (length row0 - 1) row0)))
    as [Hlen|]; [simpl|discriminate].
  rewrite length_firstn in Hlen.
  assert (Hrow : length (c ++ skipn (length row0 - 1) row0) = length row0)
    by (rewrite length_app, length_skipn; lia).
  unfold zero_columns, n_columns; simpl. rewrite Hrow.
  destruct (norm_indices (length row0) aux) as [ks|] eqn:E; [|discriminate].
  intro H. inversion H; subst T3; clear H.
  exists ks. split; [reflexivity|]. split; [unfold n_rows; simpl;
    now rewrite length_map|].
  pose proof (norm_indices_lt _ _ _ E) as Hks.
  intros r j Hr Hj. unfold entry.
  destruct r as [|r]; simpl.
  - destruct (scatter_at_zero ks (c ++ skipn (length row0 - 1) row0) j)
      as [_ ->]; [now rewrite Hrow|].
    destruct (in_dec Nat.eq_dec j ks); [reflexivity|].
    destruct (Nat.ltb_spec j (length row0 - 1)).
    + rewrite app_nth1 by lia. reflexivity.
    + rewrite app_nth2 by lia. rewrite nth_skipn. f_equal. lia.
  - unfold n_rows in Hr; simpl in Hr.
    rewrite (nth_map_lt _ _ r [] []) by lia.
    assert (Hl : length (nth r rest []) = length row0).
    { inversion HT as [|? ? _ HT']; subst. rewrite Forall_forall in HT'.
      apply HT'. apply nth_In. lia. }
    destruct (scatter_at_zero ks (nth r rest []) j) as [_ ->];
      [now rewrite Hl|].
    reflexivity.
Qed.

Lemma bind_not_infeasible {A B} (x : error + A) (f : A -> error + B) :
  not_infeasible x -> (forall a, not_infeasible (f a)) ->
  not_infeasible (bind x f).
Proof.
  unfold not_infeasible. destruct x as [e|a]; simpl; intros Hx Hf.
  - intro H. apply Hx. inversion H. reflexivity.
  - apply Hf.
Qed.

Lemma scatter_not_infeasible (a : list Qc) (idx : list Z) (vals : list Qc) :
  not_infeasible (scatter a idx vals).
Proof.
  intro H. destruct (scatter_error _ _ _ _ H); discriminate.
Qed.

Lemma of_option_not_infeasible {A} (x : option A) :
  not_infeasible (of_option IndexError x).
Proof. destruct x; discriminate. Qed.

Lemma transform_canonical_not_infeasible (st : state) :
  not_infeasible (transform_canonical st).
Proof.
  unfold transform_canonical, not_infeasible.
  destruct (LP_matrix st); [discriminate|].
  destruct (gather _ _); [|discriminate].
  destruct (negb _); discriminate.
Qed.

Lemma restore_objective_not_infeasible (c : list Qc) (aux : list Z)
  (T : matrix) : not_infeasible (restore_objective c aux T).
Proof.
  unfold restore_objective, zero_columns, not_infeasible.
  destruct T; [discriminate|].
  destruct (negb _); [discriminate|].
  destruct (norm_indices _ _); discriminate.
Qed.

Lemma check_preconditions_not_infeasible (LPm : ndarray Qc) (bs : ndarray Z) :
  not_infeasible (check_preconditions LPm bs).
Proof.
  unfold check_preconditions, not_infeasible.
  repeat match goal with
         | |- (if ?b then _ else _) <> _ => destruct b; try discriminate
         end.
  destruct LPm, bs; try discriminate.
  repeat match goal with
         | |- (if ?b then _ else _) <> _ => destruct b; try discriminate
         | |- match ?x with _ => _ end <> _ => destruct x; try discriminate
         end.
Qed.

Lemma solve_canonical_LP_not_infeasible (fuel : nat)
  (uninit : nat -> nat -> bound) (LPm : ndarray Qc) (bs : ndarray Z) :
  not_infeasible (run (solve_canonical_LP fuel uninit LPm bs)).
Proof.
  unfold solve_canonical_LP, not_infeasible.
  destruct (check_preconditions LPm bs) as [e|st] eqn:E; simpl.
  - intro H. inversion H; subst.
    exact (check_preconditions_not_infeasible _ _ E).
  - destruct (simplex_loop fuel uninit 0 st) as [s v f|e] eqn:L; simpl;
      [discriminate|].
    intro H. inversion H; subst.
    apply simplex_loop_raise in L. tauto.
Qed.

Lemma postprocess_not_infeasible (s : standardized) (var_number : nat)
  (solution : list Qc) : not_infeasible (postprocess s var_number solution).
Proof.
  unfold postprocess.
  apply bind_not_infeasible; [apply of_option_not_infeasible|intro negs].
  apply bind_not_infeasible; [apply scatter_not_infeasible|intro s1].
  apply bind_not_infeasible; [|discriminate].
  destruct (no_constraint_vars s); [discriminate|].
  apply bind_not_infeasible; [apply of_option_not_infeasible|intro lhs].
  apply bind_not_infeasible; [apply of_option_not_infeasible|intro rhs].
  destruct (_ =? _); [apply scatter_not_infeasible|].
  destruct (_ =? _); [apply scatter_not_infeasible|discriminate].
Qed.

(** ** What every pivot keeps *)

Lemma pivot_update_columns (T : matrix) (l e : nat) :
  (0 < n_rows T)%nat -> n_columns (pivot_update T l e) = n_columns T.
Proof.
  intro H. unfold n_columns at 1.
  replace (hd [] (pivot_update T l e)) with (nth 0 (pivot_update T l e) [])
    by now destruct (pivot_update T l e).
  now apply pivot_update_row_length.
Qed.

Lemma pivot_update_rectangular (T : matrix) (l e : nat) :
  (0 < n_rows T)%nat -> rectangular (pivot_update T l e).
Proof.
  intro H. unfold rectangular. rewrite pivot_update_columns by assumption.
  unfold pivot_update, matmul. apply Forall_map, Forall_forall.
  intros row _. now rewrite length_map, length_seq.
Qed.

Lemma Forall_update {A} (P : A -> Prop) (k : nat) (v : A) (l : list A) :
  P v -> Forall P l -> Forall P (update k v l).
Proof.
  intros Hv H. revert k. induction H as [|x l Hx Hl IH]; intros [|k]; simpl;
    constructor; auto.
Qed.

(** The facts a pass that pivots has established, on a well-formed
    state. *)
Lemma iteration_continue (buf : nat -> bound) (st st' : state) :
  wf_state st ->
  iteration buf st = Continue st' ->
  exists i_enter i_leave,
    first_negative (reduced_costs st) = Some i_enter /\
    (i_enter < n_columns (LP_matrix st) - 1)%nat /\
    (i_leave < length (bases st))%nat /\
    entry (LP_matrix st) (S i_leave) i_enter <> 0 /\
    st' = mkState (pivot_update (LP_matrix st) (S i_leave) i_enter)
            (update i_leave (Z.of_nat i_enter) (bases st)).
Proof.
  intros W H. rewrite (iteration_unfold buf st W) in H.
  destruct (first_negative (reduced_costs st)) as [e|] eqn:E; [|discriminate].
  simpl in H.
  destruct (forallb _ _); [discriminate|].
  destruct (Nat.leb_spec (length (bases st))
              (np_argmin
                 (map threshold
                    (np_divide_where buf
                       (column (n_columns (LP_matrix st) - 1)
                          (tl (LP_matrix st)))
                       (column e
                          (map (firstn (n_columns (LP_matrix st) - 1))
                             (tl (LP_matrix st))))))));
    [discriminate|].
  destruct (Qceqb _ _) eqn:P; [discriminate|].
  inversion H; subst st'; clear H.
  apply first_negative_some in E as E'. destruct E' as (He & _ & _).
  rewrite reduced_costs_length in He by assumption.
  eexists _, _. repeat split; try eassumption.
  now apply Qceqb_neq.
Qed.

Lemma iteration_preserves_wf (buf : nat -> bound) (st st' : state) :
  wf_state st -> iteration buf st = Continue st' -> wf_state st'.
Proof.
  intros W H.
  destruct (iteration_continue buf st st' W H) as (e & l & _ & He & Hl & _ & ->).
  destruct W as [Hrect Hrows Hcols Hb].
  assert (Hpos : (0 < n_rows (LP_matrix st))%nat) by lia.
  constructor; simpl.
  - now apply pivot_update_rectangular.
  - now rewrite pivot_update_rows, update_length.
  - now rewrite pivot_update_columns.
  - rewrite pivot_update_columns by assumption.
    apply Forall_update; [lia|assumption].
Qed.

Lemma basic_column_update (st : state) (T' : matrix) (l s : nat) (e : nat) :
  (l < length (bases st))%nat ->
  basic_column (mkState T' (update l (Z.of_nat e) (bases st))) s
  = if s =? l then e else basic_column st s.
Proof.
  intro Hl. unfold basic_column; simpl.
  destruct (Nat.eqb_spec s l) as [->|N].
  - rewrite nth_update_eq by assumption. apply Nat2Z.id.
  - rewrite nth_update_neq by congruence. reflexivity.
Qed.

Lemma Qcabs'_0 : Qcabs' 0 < eps.
Proof. apply Qcltb_lt. reflexivity. Qed.

(** ** The ratio test on a clean buffer *)

Lemma bounds_clean (buf : nat -> bound) (b coefs : list Qc) :
  clean_buffer buf ->
  map threshold (np_divide_where buf b coefs) = ratio_bounds b coefs.
Proof.
  revert buf coefs. induction b as [|x b IH]; intros buf [|a coefs] C;
    simpl; auto.
  rewrite (IH (fun i => buf (S i))) by (intro r; apply C).
  f_equal. unfold ratio_bound.
  destruct (Qcltb eps a); simpl; [|apply C].
  destruct (Qcltb (x / a) eps); reflexivity.
Qed.

(** The ratio test, and with it the whole pass, does not depend on the
    contents of a clean buffer. *)
Lemma iteration_clean (buf1 buf2 : nat -> bound) (st : state) :
  clean_buffer buf1 -> clean_buffer buf2 ->
  iteration buf1 st = iteration buf2 st.
Proof.
  intros C1 C2. unfold iteration.
  destruct (LP_matrix st) as [|row0 rest]; [reflexivity|].
  destruct (_ =? 0); [reflexivity|].
  destruct (first_negative _); [|reflexivity].
  now rewrite (bounds_clean buf1), (bounds_clean buf2).
Qed.

Lemma simplex_loop_clean (fuel : nat) (uninit1 uninit2 : nat -> nat -> bound)
  (it : nat) (st : state) :
  (forall k, clean_buffer (uninit1 k)) ->
  (forall k, clean_buffer (uninit2 k)) ->
  simplex_loop fuel uninit1 it st = simplex_loop fuel uninit2 it st.
Proof.
  intros C1 C2. revert it st. induction fuel as [|fuel IH]; simpl;
    intros it st; [reflexivity|].
  rewrite (iteration_clean (uninit1 (S it)) (uninit2 (S it))) by auto.
  destruct (iteration (uninit2 (S it)) st); auto.
Qed.

(** X6.  On clean buffers the solver is a function of the tableau and the
    basis alone. *)
Lemma solve_canonical_LP_clean (fuel : nat)
  (uninit1 uninit2 : nat -> nat -> bound) (LPm : ndarray Qc)
  (bs : ndarray Z) :
  (forall k, clean_buffer (uninit1 k)) ->
  (forall k, clean_buffer (uninit2 k)) ->
  solve_canonical_LP fuel uninit1 LPm bs
  = solve_canonical_LP fuel uninit2 LPm bs.
Proof.
  intros C1 C2. unfold solve_canonical_LP.
  destruct (check_preconditions LPm bs); [reflexivity|].
  now apply simplex_loop_clean.
Qed.

Lemma zero_filled_clean (k : nat) : clean_buffer (zero_filled k).
Proof. intro r. reflexivity. Qed.

(** *** numpy's argmin on an array without NaN *)

Lemma bound_ltb_irrefl (x : bound) : bound_ltb x x = false.
Proof.
  destruct x as [q| |]; simpl; auto.
  apply Qcltb_ge. apply Qcle_refl.
Qed.

Lemma bound_ltb_trans (x y z : bound) :
  bound_ltb x y = true -> bound_ltb y z = true -> bound_ltb x z = true.
Proof.
  destruct x as [a| |], y as [b| |], z as [c| |]; simpl; try discriminate;
    auto.
  rewrite !Qcltb_lt. apply Qclt_trans.
Qed.

Lemma bound_ltb_asym (x y : bound) :
  bound_ltb x y = true -> bound_ltb y x = false.
Proof.
  destruct x as [a| |], y as [b| |]; simpl; try discriminate; auto.
  rewrite Qcltb_lt, Qcltb_ge. apply Qclt_le_weak.
Qed.

(** [a < m] and [not (x < m)] give [a < x], NaN apart. *)
Lemma bound_ltb_below (a m x : bound) :
  finite_or_inf x ->
  bound_ltb a m = true -> bound_ltb x m = false -> bound_ltb a x = true.
Proof.
  unfold finite_or_inf.
  destruct a as [p| |], m as [q| |], x as [r| |]; simpl; try discriminate;
    try congruence; auto.
  rewrite !Qcltb_lt, Qcltb_ge. intros _ H1 H2.
  eapply Qclt_le_trans; eassumption.
Qed.

Lemma argmin_from_spec (l : list bound) (mp : bound) (min_ind i : nat) :
  Forall finite_or_inf l ->
  let k := argmin_from mp min_ind i l in
  (k = min_ind /\
   forall j, (j < length l)%nat -> bound_ltb (nth j l Inf) mp = false) \/
  (exists j, (j < length l)%nat /\ k = (i + j)%nat /\
     bound_ltb (nth j l Inf) mp = true /\
     (forall j', (j' < length l)%nat ->
        bound_ltb (nth j' l Inf) (nth j l Inf) = false) /\
     (forall j', (j' < j)%nat ->
        bound_ltb (nth j l Inf) (nth j' l Inf) = true)).
Proof.
  intro F. revert mp min_ind i.
  induction F as [|x l Hx F IH]; intros mp min_ind i; simpl.
  - left. split; [reflexivity|]. intros j Hj; lia.
  - assert (E : argmin_from mp min_ind i (x :: l)
                = if bound_ltb x mp then argmin_from x i (S i) l
                  else argmin_from mp min_ind (S i) l).
    { simpl. destruct x; [reflexivity|reflexivity|].
      exfalso. now apply Hx. }
    simpl in E. rewrite E. clear E.
    destruct (bound_ltb x mp) eqn:Lt.
    + right. destruct (IH x i (S i)) as [(Ek & Hall)|(j & Hj & Ek & Hlt & Hmin & Hfirst)].
      * exists O. repeat split; [lia|lia|exact Lt| |intros j' Hj'; lia].
        intros [|j'] Hj'; [apply bound_ltb_irrefl|]. apply Hall. lia.
      * exists (S j). repeat split; [lia|lia| | |].
        -- exact (bound_ltb_trans _ _ _ Hlt Lt).
        -- intros [|j'] Hj'; [now apply bound_ltb_asym|]. apply Hmin. lia.
        -- intros [|j'] Hj'; [exact Hlt|]. apply Hfirst. lia.
    + destruct (IH mp min_ind (S i)) as [(Ek & Hall)|(j & Hj & Ek & Hlt & Hmin & Hfirst)].
      * left. split; [exact Ek|].
        intros [|j] Hj; [exact Lt|]. apply Hall. lia.
      * right. exists (S j). repeat split; [lia|lia|exact Hlt| |].
        -- intros [|j'] Hj'; [|apply Hmin; lia].
           destruct (bound_ltb x (nth j l Inf)) eqn:Lx; [|reflexivity].
           rewrite (bound_ltb_trans _ _ _ Lx Hlt) in Lt. discriminate.
        -- intros [|j'] Hj'; [|apply Hfirst; lia].
           exact (bound_ltb_below _ _ _ Hx Hlt Lt).
Qed.

(** [np.argmin] returns the first position of a minimum. *)
Lemma np_argmin_spec (l : list bound) :
  l <> [] -> Forall finite_or_inf l ->
  let k := np_argmin l in
  (k < length l)%nat /\
  (forall j, (j < length l)%nat ->
     bound_ltb (nth j l Inf) (nth k l Inf) = false) /\
  (forall j, (j < k)%nat -> bound_ltb (nth k l Inf) (nth j l Inf) = true).
Proof.
  destruct l as [|x l]; [congruence|]. intros _ F.
  inversion F as [|? ? Hx F']; subst.
  assert (E : np_argmin (x :: l) = argmin_from x 0 1 l)
    by (destruct x; [reflexivity|reflexivity|exfalso; now apply Hx]).
  cbv zeta. rewrite E. clear E.
  destruct (argmin_from_spec l x 0 1 F')
    as [(Ek & Hall)|(j & Hj & Ek & Hlt & Hmin & Hfirst)]; simpl in *.
  - rewrite Ek. repeat split; [lia| |intros j Hj; lia].
    intros [|j] Hj; [apply bound_ltb_irrefl|]. apply Hall. lia.
  - rewrite Ek. simpl. repeat split; [lia| |].
    + intros [|j'] Hj'; [now apply bound_ltb_asym|]. apply Hmin. lia.
    + intros [|j'] Hj'; [exact Hlt|]. apply Hfirst. lia.
Qed.

(** *** The leaving row *)

Lemma ratio_bounds_length (b coefs : list Qc) :
  length b = length coefs -> length (ratio_bounds b coefs) = length b.
Proof.
  revert coefs. induction b as [|x b IH]; intros [|a coefs] H; simpl in *;
    try discriminate; auto.
Qed.

Lemma nth_ratio_bounds (b coefs : list Qc) (r : nat) :
  length b = length coefs -> (r < length b)%nat ->
  nth r (ratio_bounds b coefs) Inf = ratio_bound (nth r b 0) (nth r coefs 0).
Proof.
  revert coefs r. induction b as [|x b IH]; intros [|a coefs] [|r] H Hr;
    simpl in *; try discriminate; try lia; auto.
  apply IH; lia.
Qed.

Lemma ratio_bounds_finite_or_inf (b coefs : list Qc) :
  Forall finite_or_inf (ratio_bounds b coefs).
Proof.
  revert coefs. induction b as [|x b IH]; intros [|a coefs]; simpl;
    constructor; auto.
  unfold ratio_bound, finite_or_inf. destruct (_ && _); discriminate.
Qed.

Lemma ratio_bound_eligible (x a : Qc) :
  eligible x a -> ratio_bound x a = Fin (x / a).
Proof.
  intros [Ha Hr]. unfold ratio_bound.
  apply Qcltb_lt in Ha. apply Qcltb_ge in Hr. now rewrite Ha, Hr.
Qed.

Lemma ratio_bound_not_eligible (x a : Qc) :
  ~ eligible x a -> ratio_bound x a = Inf.
Proof.
  intro N. unfold ratio_bound.
  destruct (Qcltb eps a) eqn:Ha; [|reflexivity].
  destruct (Qcltb (x / a) eps) eqn:Hr; [reflexivity|].
  exfalso. apply N. split; [now apply Qcltb_lt|now apply Qcltb_ge].
Qed.

Lemma eligible_dec (x a : Qc) : {eligible x a} + {~ eligible x a}.
Proof.
  unfold eligible.
  destruct (Qclt_le_dec eps a) as [Ha|Ha].
  - destruct (Qclt_le_dec (x / a) eps) as [Hr|Hr].
    + right. intros [_ H]. exact (Qcle_not_lt _ _ H Hr).
    + left. auto.
  - right. intros [H _]. exact (Qcle_not_lt _ _ Ha H).
Qed.

Lemma eps_pos : 0 < eps.
Proof. apply Qcltb_lt. reflexivity. Qed.

Lemma entry_map_firstn (M : matrix) (n r j : nat) :
  (j < n)%nat -> entry (map (firstn n) M) r j = entry M r j.
Proof.
  intro H. unfold entry.
  destruct (Nat.lt_ge_cases r (length M)) as [Hr|Hr].
  - rewrite (nth_map_lt _ _ r [] []) by assumption.
    now apply nth_firstn_lt.
  - rewrite !(nth_overflow _ []) by (rewrite ?length_map; lia).
    reflexivity.
Qed.

(** The ratio test as the program performs it, on a clean buffer: with
    [e] the entering column, the pass raises Unbounded when no constraint
    row is eligible (coefficient above eps and ratio at least eps);
    otherwise it pivots on an eligible row of minimum ratio, the first
    such row, and writes the basis once, at that row. *)
Lemma ratio_test_clean (buf : nat -> bound) (st : state) (e : nat) :
  wf_state st -> clean_buffer buf ->
  first_negative (reduced_costs st) = Some e ->
  let T := LP_matrix st in
  let n := (n_columns T - 1)%nat in
  let m := length (bases st) in
  ((forall r, (r < m)%nat ->
      ~ eligible (entry T (S r) n) (entry T (S r) e)) ->
   iteration buf st = Raise Unbounded) /\
  ((exists r, (r < m)%nat /\
      eligible (entry T (S r) n) (entry T (S r) e)) ->
   exists l,
     (l < m)%nat /\
     eligible (entry T (S l) n) (entry T (S l) e) /\
     (forall r, (r < m)%nat ->
        eligible (entry T (S r) n) (entry T (S r) e) ->
        entry T (S l) n / entry T (S l) e
        <= entry T (S r) n / entry T (S r) e) /\
     (forall r, (r < l)%nat ->
        eligible (entry T (S r) n) (entry T (S r) e) ->
        entry T (S l) n / entry T (S l) e
        < entry T (S r) n / entry T (S r) e) /\
     iteration buf st
     = Continue (mkState (pivot_update T (S l) e)
                   (update l (Z.of_nat e) (bases st)))).
Proof.
  intros W C E T n m.
  pose proof W as [Hrect Hrows Hcols Hb].
  pose proof (first_negative_some _ _ E) as (He & _ & _).
  rewrite reduced_costs_length in He by assumption.
  fold T in He, Hrows. fold n in He.
  rewrite (iteration_unfold buf st W), E. cbv zeta. fold T. fold n.
  rewrite (bounds_clean buf) by assumption.
  set (b := column n (tl T)).
  set (coefs := column e (map (firstn n) (tl T))).
  assert (Hm : length (tl T) = m).
  { unfold n_rows in Hrows. unfold m.
    destruct T; simpl in *; [discriminate|lia]. }
  assert (Hlb : length b = m) by (unfold b; now rewrite column_length).
  assert (Hlc : length coefs = m)
    by (unfold coefs; now rewrite column_length, length_map).
  assert (Hlen : length (ratio_bounds b coefs) = m)
    by (rewrite ratio_bounds_length; congruence).
  assert (Hnth : forall r, (r < m)%nat ->
            nth r (ratio_bounds b coefs) Inf
            = ratio_bound (entry T (S r) n) (entry T (S r) e)).
  { intros r Hr. rewrite nth_ratio_bounds by congruence.
    unfold b, coefs. rewrite !nth_column, entry_map_firstn by assumption.
    now rewrite !entry_tl. }
  split.
  - intro Hnone.
    replace (forallb is_inf (ratio_bounds b coefs)) with true; [reflexivity|].
    symmetry. apply (forallb_nth _ _ Inf). intros r Hr.
    rewrite Hlen in Hr. rewrite Hnth by assumption.
    now rewrite ratio_bound_not_eligible by auto.
  - intros (r0 & Hr0 & El0).
    assert (Hne : ratio_bounds b coefs <> [])
      by (intro Z; rewrite Z in Hlen; simpl in Hlen; lia).
    destruct (np_argmin_spec _ Hne (ratio_bounds_finite_or_inf b coefs))
      as (Hk & Hmin & Hfirst).
    set (k := np_argmin (ratio_bounds b coefs)) in *.
    rewrite Hlen in Hk, Hmin.
    assert (Elk : eligible (entry T (S k) n) (entry T (S k) e)).
    { destruct (eligible_dec (entry T (S k) n) (entry T (S k) e)) as [|N];
        [assumption|exfalso].
      specialize (Hmin r0 Hr0).
      rewrite (Hnth r0), (Hnth k) in Hmin by assumption.
      rewrite (ratio_bound_eligible _ _ El0) in Hmin.
      rewrite (ratio_bound_not_eligible _ _ N) in Hmin. discriminate. }
    rewrite (forallb_nth_false is_inf _ Inf k);
      [|now rewrite Hlen
       |rewrite Hnth by assumption; now rewrite ratio_bound_eligible].
    destruct (Nat.leb_spec (length (bases st)) k); [unfold m in Hk; lia|].
    assert (Hp : entry T (S k) e <> 0).
    { destruct Elk as [Ha _]. intro Z. rewrite Z in Ha.
      exact (Qclt_not_le _ _ Ha (Qclt_le_weak _ _ eps_pos)). }
    apply Qceqb_neq in Hp. rewrite Hp.
    exists k. split; [exact Hk|]. split; [exact Elk|].
    split; [|split; [|reflexivity]].
    + intros r Hr Elr. specialize (Hmin r Hr).
      rewrite (Hnth r), (Hnth k) in Hmin by assumption.
      rewrite (ratio_bound_eligible _ _ Elr) in Hmin.
      rewrite (ratio_bound_eligible _ _ Elk) in Hmin.
      simpl in Hmin. now apply Qcltb_ge.
    + intros r Hr Elr. specialize (Hfirst r Hr).
      rewrite (Hnth r), (Hnth k) in Hfirst by lia.
      rewrite (ratio_bound_eligible _ _ Elr) in Hfirst.
      rewrite (ratio_bound_eligible _ _ Elk) in Hfirst.
      simpl in Hfirst. now apply Qcltb_lt.
Qed.

(** ** Zeroed auxiliary columns stay out of the basis *)

Lemma pivot_update_zero_column (T : matrix) (l e j : nat) :
  (l < n_rows T)%nat -> (j < n_columns T)%nat ->
  zero_column T j -> zero_column (pivot_update T l e) j.
Proof.
  intros Hl Hj Z r Hr. rewrite pivot_update_rows in Hr.
  rewrite entry_pivot_update by assumption.
  rewrite (Z l Hl), (Z r Hr). destruct (r =? l); ring.
Qed.

Lemma not_negative_zero : ~ 0 < - eps.
Proof.
  intro H. apply Qcltb_lt in H. discriminate H.
Qed.

(** A pass that pivots does not pick a zero column to enter, and leaves
    it zero. *)
Lemma iteration_zero_column (buf : nat -> bound) (st st' : state) (j : nat) :
  wf_state st -> (j < n_columns (LP_matrix st) - 1)%nat ->
  zero_column (LP_matrix st) j ->
  iteration buf st = Continue st' ->
  zero_column (LP_matrix st') j /\
  forall r, (r < length (bases st))%nat ->
    basic_column st' r = j -> basic_column st r = j.
Proof.
  intros W Hj Z H.
  destruct (iteration_continue buf st st' W H)
    as (e & l & E & He & Hl & Hp & ->).
  pose proof W as [Hrect Hrows Hcols Hb]. simpl.
  assert (Hne : e <> j).
  { intro Eq. subst e.
    destruct (first_negative_some _ _ E) as (_ & Hneg & _).
    rewrite nth_reduced_costs in Hneg by assumption.
    rewrite (Z O) in Hneg by lia. exact (not_negative_zero Hneg). }
  split.
  - apply pivot_update_zero_column; [lia|lia|assumption].
  - intros r Hr. rewrite basic_column_update by assumption.
    destruct (r =? l); [congruence|auto].
Qed.

Lemma simplex_loop_zero_column (fuel : nat) (uninit : nat -> nat -> bound)
  (it : nat) (st final : state) (solution : list Qc) (value : Qc) (j : nat) :
  wf_state st -> (j < n_columns (LP_matrix st) - 1)%nat ->
  zero_column (LP_matrix st) j ->
  simplex_loop fuel uninit it st = Returned solution value final ->
  zero_column (LP_matrix final) j /\
  length (bases final) = length (bases st) /\
  forall r, (r < length (bases st))%nat ->
    basic_column final r = j -> basic_column st r = j.
Proof.
  revert it st. induction fuel as [|fuel IH]; simpl; intros it st W Hj Z H;
    [discriminate|].
  destruct (iteration (uninit (S it)) st) as [s v|e|st'] eqn:E;
    [|discriminate|].
  - inversion H; subst. auto.
  - pose proof (iteration_preserves_wf _ _ _ W E) as W'.
    destruct (iteration_zero_column _ _ _ j W Hj Z E) as [Z' Hb'].
    destruct (iteration_continue _ _ _ W E) as (e & l & _ & _ & Hl & _ & Est).
    assert (Hcols : n_columns (LP_matrix st') = n_columns (LP_matrix st)).
    { subst st'; simpl. apply pivot_update_columns.
      destruct W as [_ Hrows _ _]. lia. }
    assert (Hlen : length (bases st') = length (bases st))
      by (subst st'; simpl; apply update_length).
    destruct (IH (S it) st' W') as (Zf & Lf & Hf); try assumption.
    { now rewrite Hcols. }
    split; [exact Zf|]. split; [congruence|].
    intros r Hr Eq. apply Hb'; [assumption|]. apply Hf; [lia|assumption].
Qed.

Lemma check_preconditions_state (LPm : ndarray Qc) (bs : ndarray Z)
  (st : state) :
  check_preconditions LPm bs = inr st ->
  exists dT dB, LPm = Arr2 dT (LP_matrix st) /\ bs = Arr1 dB (bases st).
Proof.
  unfold check_preconditions.
  repeat match goal with
         | |- (if ?b then _ else _) = _ -> _ => destruct b; try discriminate
         end.
  destruct LPm as [|dT T|], bs as [dB B| |]; try discriminate.
  repeat match goal with
         | |- (if ?b then _ else _) = _ -> _ => destruct b; try discriminate
         | |- match ?x with _ => _ end = _ -> _ => destruct x; try discriminate
         end.
  intro H. inversion H; subst; simpl. eauto.
Qed.

Lemma transform_canonical_zero_column (st st' : state) (j : nat) :
  rectangular (LP_matrix st) -> (j < n_columns (LP_matrix st))%nat ->
  zero_column (LP_matrix st) j ->
  transform_canonical st = inr st' ->
  zero_column (LP_matrix st') j.
Proof.
  unfold transform_canonical. intros HT Hj Z.
  destruct (LP_matrix st) as [|row0 rest] eqn:ET; [discriminate|].
  destruct (gather row0 (bases st)) as [w|]; [|discriminate].
  destruct (negb _); [discriminate|].
  intro H. inversion H; subst st'; clear H. simpl.
  unfold n_columns in Hj; simpl in Hj.
  intros [|r] Hr.
  - unfold entry; simpl.
    rewrite nth_vec_sub by now rewrite vecmat_length.
    rewrite nth_vecmat by assumption.
    rewrite dot_zero.
    + specialize (Z O). unfold entry, n_rows in Z; simpl in Z.
      rewrite Z by lia. ring.
    + intros k Hk. rewrite column_length in Hk. rewrite nth_column.
      apply (Z (S k)). unfold n_rows; simpl. lia.
  - apply (Z (S r)). exact Hr.
Qed.

Lemma transform_canonical_wf (st st' : state) :
  wf_state st -> transform_canonical st = inr st' -> wf_state st'.
Proof.
  intros [Hrect Hrows Hcols Hb]. unfold transform_canonical.
  destruct (LP_matrix st) as [|row0 rest] eqn:ET; [discriminate|].
  destruct (gather row0 (bases st)) as [w|]; [|discriminate].
  destruct (negb _); [discriminate|].
  intro H. inversion H; subst st'; clear H.
  assert (Hn : n_columns (vec_sub row0 (vecmat (length row0) w rest) :: rest)
               = n_columns (row0 :: rest)).
  { unfold n_columns; simpl.
    apply vec_sub_length. now rewrite vecmat_length. }
  constructor; simpl; rewrite ?Hn; auto.
  unfold rectangular in *. rewrite Hn.
  inversion Hrect; subst. constructor; auto.
Qed.

Lemma restore_objective_wf (c : list Qc) (aux : list Z) (st : state)
  (T3 : matrix) :
  wf_state st ->
  restore_objective c aux (LP_matrix st) = inr T3 ->
  wf_state (mkState T3 (bases st)) /\
  n_columns T3 = n_columns (LP_matrix st).
Proof.
  intros [Hrect Hrows Hcols Hb]. unfold restore_objective.
  destruct (LP_matrix st) as [|row0 rest] eqn:ET; [discriminate|].
  unfold n_columns in *; simpl in *.
  destruct (Nat.eqb_spec (length c) (length (firstn (length row0 - 1) row0)))
    as [Hlen|]; [simpl|discriminate].
  rewrite length_firstn in Hlen.
  assert (Hrow : length (c ++ skipn (length row0 - 1) row0) = length row0)
    by (rewrite length_app, length_skipn; lia).
  unfold zero_columns, n_columns; simpl. rewrite Hrow.
  destruct (norm_indices (length row0) aux) as [ks|] eqn:E; [|discriminate].
  intro H. inversion H; subst T3; clear H.
  pose proof (norm_indices_lt _ _ _ E) as Hks.
  assert (Hn : length (scatter_at (c ++ skipn (length row0 - 1) row0) ks
                         (repeat 0 (length ks))) = length row0).
  { destruct (scatter_at_zero ks (c ++ skipn (length row0 - 1) row0) O)
      as [-> _]; [now rewrite Hrow|exact Hrow]. }
  set (T3 := scatter_at (c ++ skipn (length row0 - 1) row0) ks
               (repeat 0 (length ks))
             :: map (fun row => scatter_at row ks (repeat 0 (length ks)))
                  rest).
  assert (Hnc : n_columns T3 = length row0) by exact Hn.
  split; [|exact Hnc].
  constructor; simpl; rewrite ?Hnc; auto.
  - unfold rectangular. rewrite Hnc. unfold T3.
    constructor; [exact Hn|].
    inversion Hrect as [|? ? _ Hrest]; subst.
    apply Forall_map. eapply Forall_impl; [|exact Hrest]. simpl.
    intros row Hl. unfold n_columns in Hl; simpl in Hl.
    destruct (scatter_at_zero ks row O) as [-> _]; [now rewrite Hl|exact Hl].
  - unfold n_rows, T3 in *; simpl in *. now rewrite length_map.
Qed.

(** After the phase-1 hand-over (lines 92-96) no zeroed auxiliary column
    enters the basis in phase 2: in the state phase 2 returns from, such
    a column is still zero, and it is basic only in rows where it was
    basic when phase 1 ended. *)
Lemma aux_columns_stay_out (fuel : nat) (uninit : nat -> nat -> bound)
  (c : list Qc) (aux : list Z) (ks : list nat) (st2 st3 final : state)
  (T3 : matrix) (solution : list Qc) (value : Qc) (j : nat) :
  wf_state st2 ->
  norm_indices (n_columns (LP_matrix st2)) aux = Some ks ->
  restore_objective c aux (LP_matrix st2) = inr T3 ->
  transform_canonical (mkState T3 (bases st2)) = inr st3 ->
  solve_canonical_LP fuel uninit (as_tableau st3) (as_basis st3)
  = Returned solution value final ->
  In j ks -> (j < n_columns (LP_matrix st2) - 1)%nat ->
  zero_column (LP_matrix final) j /\
  forall r, (r < length (bases st2))%nat ->
    basic_column final r = j -> basic_column st2 r = j.
Proof.
  intros W Hks HR HT HS Hj Hjn.
  pose proof W as [Hrect Hrows Hcols Hb].
  destruct (restore_objective_wf c aux st2 T3 W HR) as [W3 Hc3].
  destruct (restore_objective_spec c aux _ T3 Hrect Hcols HR)
    as (ks' & Hks' & Hr3 & Hentry).
  rewrite Hks in Hks'. inversion Hks'; subst ks'; clear Hks'.
  assert (Z3 : zero_column T3 j).
  { intros r Hr. rewrite Hr3 in Hr. rewrite Hentry by (auto; lia).
    destruct (in_dec Nat.eq_dec j ks); [reflexivity|contradiction]. }
  pose proof (transform_canonical_wf _ _ W3 HT) as Wst3.
  assert (Zst3 : zero_column (LP_matrix st3) j).
  { apply (transform_canonical_zero_column (mkState T3 (bases st2)) st3 j);
      simpl; auto.
    - exact (wf_rect _ W3).
    - rewrite Hc3. lia. }
  destruct (transform_canonical_writes_row0 _ _ HT) as (Htl & Hbs & Hnr).
  simpl in Htl, Hbs, Hnr.
  assert (Hcst3 : n_columns (LP_matrix st3) = n_columns (LP_matrix st2)).
  { rewrite <- Hc3. unfold transform_canonical in HT. simpl in HT.
    destruct T3 as [|row0 rest]; [discriminate|].
    destruct (gather row0 (bases st2)) as [w|]; [|discriminate].
    destruct (negb _); [discriminate|].
    inversion HT; subst st3; simpl. unfold n_columns; simpl.
    apply vec_sub_length. now rewrite vecmat_length. }
  unfold solve_canonical_LP in HS.
  destruct (check_preconditions (as_tableau st3) (as_basis st3))
    as [e|st4] eqn:EC; [discriminate|].
  destruct (check_preconditions_state _ _ _ EC) as (dT & dB & ET & EB).
  inversion ET. inversion EB.
  assert (st4 = st3) by (destruct st3, st4; simpl in *; congruence).
  subst st4.
  destruct (simplex_loop_zero_column fuel uninit 0 st3 final solution value j)
    as (Zf & Lf & Hf); auto.
  { rewrite Hcst3. exact Hjn. }
  split; [exact Zf|].
  intros r Hr Eq.
  assert (Hb3 : basic_column st3 r = j)
    by (apply Hf; [rewrite Hbs; exact Hr|exact Eq]).
  unfold basic_column in *. now rewrite Hbs in Hb3.
Qed.

Lemma scatter_at_length (ks : list nat) (vals a : list Qc) :
  length (scatter_at a ks vals) = length a.
Proof.
  revert vals a. induction ks as [|k ks IH]; intros [|v vals] a; simpl; auto.
  now rewrite IH, update_length.
Qed.

(** ** The loop as a whole *)

Lemma argmin_from_range (l : list bound) (mp : bound) (min_ind i : nat) :
  argmin_from mp min_ind i l = min_ind \/
  (i <= argmin_from mp min_ind i l < i + length l)%nat.
Proof.
  revert mp min_ind i. induction l as [|x l IH]; intros mp min_ind i; simpl.
  - now left.
  - destruct x as [q| |].
    + destruct (bound_ltb (Fin q) mp).
      * right. destruct (IH (Fin q) i (S i)) as [->|H]; lia.
      * destruct (IH mp min_ind (S i)) as [->|H]; [now left|right; lia].
    + destruct (bound_ltb Inf mp).
      * right. destruct (IH Inf i (S i)) as [->|H]; lia.
      * destruct (IH mp min_ind (S i)) as [->|H]; [now left|right; lia].
    + right. lia.
Qed.

(** [np.argmin] answers a position of the array, whatever it holds. *)
Lemma np_argmin_lt (l : list bound) :
  l <> [] -> (np_argmin l < length l)%nat.
Proof.
  destruct l as [|x l]; [congruence|]. intros _. simpl.
  destruct x as [q| |]; try lia.
  - destruct (argmin_from_range l (Fin q) 0 1) as [->|H]; lia.
  - destruct (argmin_from_range l Inf 0 1) as [->|H]; lia.
Qed.

Lemma np_divide_where_length (buf : nat -> bound) (b coefs : list Qc) :
  length b = length coefs -> length (np_divide_where buf b coefs) = length b.
Proof.
  revert buf coefs. induction b as [|x b IH]; intros buf [|a coefs] H;
    simpl in *; try discriminate; auto.
Qed.

Lemma eligible_rows_dec (T : matrix) (e n m : nat) :
  (forall r, (r < m)%nat ->
     ~ eligible (entry T (S r) n) (entry T (S r) e)) \/
  (exists r, (r < m)%nat /\ eligible (entry T (S r) n) (entry T (S r) e)).
Proof.
  induction m as [|m IH].
  - left. intros r Hr; lia.
  - destruct IH as [IH|(r & Hr & El)]; [|right; exists r; split; [lia|auto]].
    destruct (eligible_dec (entry T (S m) n) (entry T (S m) e)) as [El|N].
    + right. exists m. split; [lia|auto].
    + left. intros r Hr. destruct (Nat.eq_dec r m) as [->|]; [auto|].
      apply IH. lia.
Qed.

(** On a well-formed state a pass raises nothing but Unbounded, apart
    from the division by a zero pivot that only a row taken from the raw
    buffer can cause; on a clean buffer it raises nothing but
    Unbounded. *)
Lemma iteration_raise_wf (buf : nat -> bound) (st : state) (e : error) :
  wf_state st -> iteration buf st = Raise e ->
  (e = Unbounded \/ e = NonFinite) /\
  (clean_buffer buf -> e = Unbounded).
Proof.
  intros W H.
  pose proof W as [Hrect Hrows Hcols Hb].
  assert (Hany : e = Unbounded \/ e = NonFinite).
  { rewrite (iteration_unfold buf st W) in H.
    destruct (first_negative (reduced_costs st)) as [k|]; [|discriminate].
    cbv zeta in H.
    set (bounds := map threshold _) in H.
    destruct (forallb is_inf bounds) eqn:F; [inversion H; auto|].
    assert (Hlen : length bounds = length (bases st)).
    { unfold bounds. rewrite length_map, np_divide_where_length;
        rewrite !column_length, ?length_map; auto.
      unfold n_rows in Hrows. destruct (LP_matrix st); simpl in *;
        [discriminate|lia]. }
    assert (Hne : bounds <> []) by (intro Z; rewrite Z in F; discriminate).
    pose proof (np_argmin_lt bounds Hne) as Hk. rewrite Hlen in Hk.
    destruct (Nat.leb_spec (length (bases st)) (np_argmin bounds)); [lia|].
    destruct (Qceqb _ _); [inversion H; auto|discriminate]. }
  split; [exact Hany|]. intro C.
  destruct Hany as [Hu | ->]; [assumption|exfalso].
  destruct (first_negative (reduced_costs st)) as [k|] eqn:E.
  2:{ rewrite (iteration_unfold buf st W), E in H. discriminate. }
  destruct (ratio_test_clean buf st k W C E) as [Hnone Hsome].
  destruct (eligible_rows_dec (LP_matrix st) k
              (n_columns (LP_matrix st) - 1) (length (bases st))) as [D|D].
  - rewrite (Hnone D) in H. discriminate.
  - destruct (Hsome D) as (l & _ & _ & _ & _ & Hc). rewrite Hc in H.
    discriminate.
Qed.

(** A run of the loop from a well-formed state either returns, with a
    tableau of the same shape, a basis of the same length still naming
    variable columns only, and a solution of length n; or it raises
    Unbounded, or stops on a zero pivot or on the iteration budget.  It
    never raises IndexError, a shape error or an entry-check error. *)
Lemma simplex_loop_outcome (fuel : nat) (uninit : nat -> nat -> bound)
  (it : nat) (st : state) :
  wf_state st ->
  match simplex_loop fuel uninit it st with
  | Returned solution value final =>
      wf_state final /\
      n_rows (LP_matrix final) = n_rows (LP_matrix st) /\
      n_columns (LP_matrix final) = n_columns (LP_matrix st) /\
      length (bases final) = length (bases st) /\
      length solution = (n_columns (LP_matrix st) - 1)%nat
  | Raised e => e = Unbounded \/ e = NonFinite \/ e = OutOfFuel
  end.
Proof.
  revert it st. induction fuel as [|fuel IH]; simpl; intros it st W; [auto|].
  destruct (iteration (uninit (S it)) st) as [s v|e|st'] eqn:E.
  - split; [exact W|]. do 3 (split; [reflexivity|]).
    rewrite (iteration_unfold _ st W) in E.
    destruct (first_negative (reduced_costs st)).
    + exfalso. cbv zeta in E.
      repeat match type of E with
             | (if ?b then _ else _) = _ => destruct b
             end; discriminate.
    + inversion E; subst.
      pose proof W as [Hrect Hrows Hcols Hb].
      now rewrite scatter_at_length, repeat_length.
  - destruct (iteration_raise_wf _ _ _ W E) as [[-> | ->] _]; auto.
  - pose proof (iteration_preserves_wf _ _ _ W E) as W'.
    destruct (iteration_continue _ _ _ W E) as (e & l & _ & _ & Hl & _ & Est).
    specialize (IH (S it) st' W').
    destruct (simplex_loop fuel uninit (S it) st') as [s v f|e']; [|exact IH].
    destruct IH as (Wf & Hr & Hc & Hb & Hs).
    assert (Hpos : (0 < n_rows (LP_matrix st))%nat)
      by (destruct W as [_ Hrows _ _]; lia).
    subst st'; simpl in *.
    rewrite pivot_update_rows in Hr.
    rewrite pivot_update_columns in Hc, Hs by assumption.
    rewrite update_length in Hb. auto.
Qed.

(** ** What the solver returns, and when *)

(** [a[ks] = vals] read back without assuming the indices distinct: a
    position named several times keeps the value written last. *)
Lemma scatter_at_last (ks : list nat) (vals a : list Qc) :
  length ks = length vals ->
  Forall (fun k => (k < length a)%nat) ks ->
  (forall r, (r < length ks)%nat ->
     (forall r', (r < r' < length ks)%nat -> nth r' ks O <> nth r ks O) ->
     nth (nth r ks O) (scatter_at a ks vals) 0 = nth r vals 0) /\
  (forall j, ~ In j ks -> nth j (scatter_at a ks vals) 0 = nth j a 0).
Proof.
  revert vals a. induction ks as [|k ks IH]; intros [|v vals] a L F;
    simpl in *; try discriminate.
  - split; [intros r Hr; lia|auto].
  - inversion F as [|? ? Fk F']; subst.
    destruct (IH vals (update k v a)) as [IR IJ];
      [lia|now rewrite update_length|].
    split.
    + intros [|r] Hr Hlast.
      * rewrite IJ.
        -- now apply nth_update_eq.
        -- intro I. destruct (In_nth _ _ O I) as (r' & Hr' & E).
           apply (Hlast (S r')); [lia|exact E].
      * apply IR; [lia|]. intros r' Hr'. apply (Hlast (S r')). lia.
    + intros j Hj. rewrite IJ by tauto. apply nth_update_neq. tauto.
Qed.

(** Lines 32-39 on a well-formed state: a pass that returns found no
    reduced cost below -eps, and what it returns is read off the tableau
    by [solution[bases] = b]. *)
Lemma iteration_done_read_off (buf : nat -> bound) (st : state)
  (solution : list Qc) (value : Qc) :
  wf_state st ->
  iteration buf st = Done solution value ->
  (forall j, (j < n_columns (LP_matrix st) - 1)%nat ->
     ~ entry (LP_matrix st) 0 j < - eps) /\
  value = - entry (LP_matrix st) 0 (n_columns (LP_matrix st) - 1) /\
  length solution = (n_columns (LP_matrix st) - 1)%nat /\
  (forall r, (r < length (bases st))%nat ->
     (forall r', (r < r' < length (bases st))%nat ->
        basic_column st r' <> basic_column st r) ->
     nth (basic_column st r) solution 0
     = entry (LP_matrix st) (S r) (n_columns (LP_matrix st) - 1)) /\
  (forall j, (j < n_columns (LP_matrix st) - 1)%nat ->
     (forall r, (r < length (bases st))%nat -> basic_column st r <> j) ->
     nth j solution 0 = 0).
Proof.
  intros W H.
  split.
  { apply (proj1 (iteration_done_iff buf st W)). eauto. }
  destruct (first_negative (reduced_costs st)) as [k|] eqn:E.
  { exfalso. exact (iteration_pivot_not_done buf st k W E _ _ H). }
  rewrite (iteration_unfold buf st W), E in H.
  set (T := LP_matrix st) in *. set (n := (n_columns T - 1)%nat) in *.
  inversion H; subst solution value; clear H.
  pose proof W as [Hrect Hrows Hcols Hb].
  assert (Hlt : Forall (fun k => (k < length (repeat (Q2Qc 0) n))%nat)
                  (map Z.to_nat (bases st))).
  { rewrite repeat_length. apply Forall_map.
    eapply Forall_impl; [|exact Hb]. simpl. fold T. fold n. intros; lia. }
  assert (Hm : length (tl T) = length (bases st)).
  { unfold n_rows in Hrows. fold T in Hrows.
    destruct T; simpl in *; [discriminate|lia]. }
  destruct (scatter_at_last (map Z.to_nat (bases st)) (column n (tl T))
              (repeat 0 n)) as (SR & SJ).
  { now rewrite length_map, column_length. }
  { exact Hlt. }
  rewrite length_map in SR.
  split; [reflexivity|]. split; [now rewrite scatter_at_length, repeat_length|].
  split.
  + intros r Hr Hlast. specialize (SR r Hr).
    rewrite (nth_map_lt _ _ r O 0%Z) in SR by assumption.
    unfold basic_column. rewrite SR.
    * rewrite nth_column. apply entry_tl.
    * intros r' Hr'. rewrite (nth_map_lt _ _ r' O 0%Z) by lia.
      apply (Hlast r' Hr').
  + intros j Hj Hnb. rewrite SJ.
    * apply nth_repeat.
    * intro I. apply in_map_iff in I. destruct I as (z & Ez & Iz).
      destruct (In_nth _ _ 0%Z Iz) as (r & Hr & Er).
      apply (Hnb r Hr). unfold basic_column. now rewrite Er.
Qed.

(** A run that returns does so from the test of lines 32-33 on the state
    it hands back. *)
Lemma simplex_loop_done (fuel : nat) (uninit : nat -> nat -> bound)
  (it : nat) (st final : state) (solution : list Qc) (value : Qc) :
  wf_state st ->
  simplex_loop fuel uninit it st = Returned solution value final ->
  wf_state final /\
  exists k, iteration (uninit k) final = Done solution value.
Proof.
  revert it st. induction fuel as [|fuel IH]; simpl; intros it st W H;
    [discriminate|].
  destruct (iteration (uninit (S it)) st) as [s v|e|st'] eqn:E;
    [|discriminate|].
  - inversion H; subst. split; [exact W|]. now exists (S it).
  - apply (IH (S it) st'); [|exact H].
    exact (iteration_preserves_wf _ _ _ W E).
Qed.

(** A pass on a state without reduced cost below -eps ends the run. *)
Lemma simplex_loop_optimal (fuel : nat) (uninit : nat -> nat -> bound)
  (it : nat) (st : state) :
  wf_state st ->
  (forall j, (j < n_columns (LP_matrix st) - 1)%nat ->
     ~ entry (LP_matrix st) 0 j < - eps) ->
  exists solution,
    simplex_loop (S fuel) uninit it st
    = Returned solution
        (- entry (LP_matrix st) 0 (n_columns (LP_matrix st) - 1)) st.
Proof.
  intros W O. apply (optimal_iff st W) in O. simpl.
  rewrite (iteration_unfold _ st W), O. eauto.
Qed.

(** A pass on a state with a reduced cost below -eps raises or pivots on
    the first such column. *)
Lemma simplex_loop_pivots (fuel : nat) (uninit : nat -> nat -> bound)
  (it : nat) (st : state) (j : nat) :
  wf_state st ->
  (j < n_columns (LP_matrix st) - 1)%nat -> entry (LP_matrix st) 0 j < - eps ->
  simplex_loop (S fuel) uninit it st = Raised Unbounded \/
  simplex_loop (S fuel) uninit it st = Raised NonFinite \/
  exists e l,
    (e < n_columns (LP_matrix st) - 1)%nat /\
    entry (LP_matrix st) 0 e < - eps /\
    (forall k, (k < e)%nat -> ~ entry (LP_matrix st) 0 k < - eps) /\
    (l < length (bases st))%nat /\
    simplex_loop (S fuel) uninit it st
    = simplex_loop fuel uninit (S it)
        (mkState (pivot_update (LP_matrix st) (S l) e)
           (update l (Z.of_nat e) (bases st))).
Proof.
  intros W Hj Hneg. simpl.
  destruct (iteration (uninit (S it)) st) as [s v|err|st'] eqn:E.
  - exfalso.
    apply (proj1 (iteration_done_iff (uninit (S it)) st W)) in Hneg; eauto.
  - destruct (iteration_raise_wf _ _ _ W E) as [[-> | ->] _]; auto.
  - right. right.
    destruct (iteration_continue _ _ _ W E) as (e & l & Fe & He & Hl & _ & ->).
    destruct (first_negative_some _ _ Fe) as (_ & Ne & Me).
    rewrite nth_reduced_costs in Ne by assumption.
    exists e, l. repeat split; auto.
    intros k Hk. rewrite <- nth_reduced_costs by lia. now apply Me.
Qed.

(** C1.  On a canonical tableau and basis that the entry checks accept,
    solve_canonical_LP returns from its first pass exactly when no
    objective coefficient among the first n columns is below -eps: then
    it hands back the tableau as it is, a solution of length n holding at
    each basic column the right-hand side of that column's row and 0 at
    every other column, and the negated right-hand-side entry of the
    objective row as value.  With a coefficient below -eps the first pass
    does not return: it raises Unbounded, or the run goes on from the
    tableau pivoted on the first such column (the model stops where the
    pivot entry is zero).  The same test decides every later pass, and
    whenever the solver returns, the tableau it returns from has no
    coefficient below -eps, the value is the negated right-hand side of
    its objective row, and the solution is read off it by
    [solution[bases] = b]: the right-hand side of a row at that row's
    basic column (of the last such row, should the basis name a column
    twice) and 0 at every column that is not basic. *)
Theorem solve_canonical_LP_returns_iff_optimal (fuel : nat)
  (uninit : nat -> nat -> bound) (st : state) :
  canonical st ->
  check_preconditions (as_tableau st) (as_basis st) = inr st ->
  let T := LP_matrix st in
  let n := (n_columns T - 1)%nat in
  let m := length (bases st) in
  ((forall j, (j < n)%nat -> ~ entry T 0 j < - eps) ->
   exists solution,
     solve_canonical_LP (S fuel) uninit (as_tableau st) (as_basis st)
     = Returned solution (- entry T 0 n) st /\
     length solution = n /\
     (forall r, (r < m)%nat ->
        nth (basic_column st r) solution 0 = entry T (S r) n) /\
     (forall j, (j < n)%nat ->
        (forall r, (r < m)%nat -> basic_column st r <> j) ->
        nth j solution 0 = 0)) /\
  ((exists j, (j < n)%nat /\ entry T 0 j < - eps) ->
   (forall solution value final,
      solve_canonical_LP 1 uninit (as_tableau st) (as_basis st)
      <> Returned solution value final) /\
   (solve_canonical_LP (S fuel) uninit (as_tableau st) (as_basis st)
    = Raised Unbounded \/
    solve_canonical_LP (S fuel) uninit (as_tableau st) (as_basis st)
    = Raised NonFinite \/
    exists e l,
      (e < n)%nat /\ entry T 0 e < - eps /\
      (forall k, (k < e)%nat -> ~ entry T 0 k < - eps) /\
      (l < m)%nat /\
      solve_canonical_LP (S fuel) uninit (as_tableau st) (as_basis st)
      = simplex_loop fuel uninit 1
          (mkState (pivot_update T (S l) e)
             (update l (Z.of_nat e) (bases st))))) /\
  (forall it st',
     wf_state st' ->
     let T' := LP_matrix st' in
     let n' := (n_columns T' - 1)%nat in
     ((forall j, (j < n')%nat -> ~ entry T' 0 j < - eps) ->
      exists solution,
        simplex_loop (S fuel) uninit it st'
        = Returned solution (- entry T' 0 n') st') /\
     ((exists j, (j < n')%nat /\ entry T' 0 j < - eps) ->
      forall solution value final,
        simplex_loop 1 uninit it st' <> Returned solution value final)) /\
  (forall solution value final,
     solve_canonical_LP fuel uninit (as_tableau st) (as_basis st)
     = Returned solution value final ->
     let T' := LP_matrix final in
     n_rows T' = n_rows T /\ n_columns T' = n_columns T /\
     length (bases final) = m /\
     (forall j, (j < n)%nat -> ~ entry T' 0 j < - eps) /\
     value = - entry T' 0 n /\
     length solution = n /\
     (forall r, (r < m)%nat ->
        (forall r', (r < r' < m)%nat ->
           basic_column final r' <> basic_column final r) ->
        nth (basic_column final r) solution 0 = entry T' (S r) n) /\
     (forall j, (j < n)%nat ->
        (forall r, (r < m)%nat -> basic_column final r <> j) ->
        nth j solution 0 = 0)).
Proof.
  intros C A T n m.
  pose proof (bf_wf _ (can_basic _ C)) as W.
  pose proof (basic_form_NoDup _ (can_basic _ C)) as D.
  assert (Hsolve : forall k,
            solve_canonical_LP k uninit (as_tableau st) (as_basis st)
            = simplex_loop k uninit 0 st)
    by (intro k; unfold solve_canonical_LP; now rewrite A).
  split; [|split; [|split]].
  - intro O. rewrite Hsolve. simpl.
    destruct (iteration (uninit 1%nat) st) as [s v|err|st'] eqn:E.
    + destruct (iteration_done_read_off _ _ _ _ W E) as (_ & Hv & Hl & Hb & Hz).
      exists s. subst v. split; [reflexivity|]. split; [exact Hl|].
      split; [|exact Hz].
      intros r Hr. apply Hb; [exact Hr|]. intros r' Hr' Eq.
      unfold basic_column in Eq.
      pose proof (wf_bases _ W) as Hrange. rewrite Forall_forall in Hrange.
      assert (Hr'' : (r' < length (bases st))%nat) by (fold m; lia).
      pose proof (Hrange _ (nth_In (bases st) 0%Z Hr'')) as R1.
      pose proof (Hrange _ (nth_In (bases st) 0%Z Hr)) as R2.
      assert (Eq' : nth r' (bases st) 0%Z = nth r (bases st) 0%Z) by lia.
      apply (proj1 (NoDup_nth (bases st) 0%Z) D) in Eq'; [lia|exact Hr''|exact Hr].
    + exfalso. apply (proj2 (iteration_done_iff (uninit 1%nat) st W)) in O.
      destruct O as (s & v & O). congruence.
    + exfalso. apply (proj2 (iteration_done_iff (uninit 1%nat) st W)) in O.
      destruct O as (s & v & O). congruence.
  - intros (j & Hj & Hneg). split.
    + intros s v f. rewrite Hsolve.
      destruct (simplex_loop_pivots 0 uninit 0 st j W Hj Hneg)
        as [-> | [-> | (e & l & _ & _ & _ & _ & ->)]]; discriminate.
    + rewrite Hsolve. exact (simplex_loop_pivots fuel uninit 0 st j W Hj Hneg).
  - intros it st' W' T' n'. split.
    + intro O. exact (simplex_loop_optimal fuel uninit it st' W' O).
    + intros (j & Hj & Hneg) s v f.
      destruct (simplex_loop_pivots 0 uninit it st' j W' Hj Hneg)
        as [-> | [-> | (e & l & _ & _ & _ & _ & ->)]]; discriminate.
  - intros s v final H T'. rewrite Hsolve in H.
    pose proof (simplex_loop_outcome fuel uninit 0 st W) as Shape.
    rewrite H in Shape. destruct Shape as (_ & Hr & Hc & Hb & _).
    destruct (simplex_loop_done _ _ _ _ _ _ _ W H) as (Wf & k & Hk).
    destruct (iteration_done_read_off _ _ _ _ Wf Hk)
      as (Ho & Hv & Hl & Hrd & Hz).
    fold T' in Ho, Hv, Hl, Hrd, Hz, Hr, Hc.
    fold T in Hr, Hc. fold m in Hb.
    rewrite Hc in Ho, Hv, Hl, Hrd, Hz. rewrite Hb in Hrd, Hz.
    fold n in Ho, Hv, Hl, Hrd, Hz.
    repeat (split; [assumption|]). assumption.
Qed.

Lemma optimal_example_canonical : canonical optimal_example.
Proof. canonical_by_computation. Defined.

Lemma solve_canonical_LP_returns_iff_optimal_witness :
  (exists solution,
     solve_canonical_LP 3 zero_filled (as_tableau optimal_example)
       (as_basis optimal_example)
     = Returned solution (- entry (LP_matrix optimal_example) 0 2)
         optimal_example /\
     length solution = 2%nat /\
     (forall r, (r < 1)%nat ->
        nth (basic_column optimal_example r) solution 0
        = entry (LP_matrix optimal_example) (S r) 2) /\
     (forall j, (j < 2)%nat ->
        (forall r, (r < 1)%nat -> basic_column optimal_example r <> j) ->
        nth j solution 0 = 0)) /\
  (forall solution value final,
     solve_canonical_LP 1 zero_filled (as_tableau masked_row_example)
       (as_basis masked_row_example)
     <> Returned solution value final) /\
  (exists solution value final,
     solve_canonical_LP 2 zero_filled (as_tableau masked_row_example)
       (as_basis masked_row_example)
     = Returned solution value final /\
     bases final = [0%Z; 2%Z] /\
     (forall j, (j < 3)%nat -> ~ entry (LP_matrix final) 0 j < - eps) /\
     value = - entry (LP_matrix final) 0 3 /\
     length solution = 3%nat /\
     (forall r, (r < 2)%nat ->
        (forall r', (r < r' < 2)%nat ->
           basic_column final r' <> basic_column final r) ->
        nth (basic_column final r) solution 0
        = entry (LP_matrix final) (S r) 3)).
Proof.
  split; [|split].
  - destruct (solve_canonical_LP_returns_iff_optimal 2 zero_filled
                optimal_example optimal_example_canonical eq_refl)
      as (A & _).
    apply A. intros j Hj L. simpl in Hj.
    destruct j as [|[|j]]; try lia; apply Qcltb_lt in L; discriminate L.
  - destruct (solve_canonical_LP_returns_iff_optimal 2 zero_filled
                masked_row_example masked_row_example_canonical eq_refl)
      as (_ & B & _).
    apply B. exists O. split; [simpl; lia|]. apply Qcltb_lt. reflexivity.
  - destruct (solve_canonical_LP_returns_iff_optimal 2 zero_filled
                masked_row_example masked_row_example_canonical eq_refl)
      as (_ & _ & _ & R).
    do 3 eexists. split; [reflexivity|]. split; [reflexivity|].
    destruct (R _ _ _ eq_refl) as (_ & _ & _ & Ho & Hv & Hl & Hb & _).
    auto.
Defined.

(** ** More on transform_canonical *)

Lemma norm_index_some (len : nat) (i : Z) :
  (exists k, norm_index len i = Some k) <->
  (- Z.of_nat len <= i < Z.of_nat len)%Z.
Proof.
  unfold norm_index.
  destruct (Z.leb_spec 0 i) as [H0|H0];
    destruct (Z.ltb_spec i (Z.of_nat len)) as [H1|H1]; simpl.
  - split; [intros _; lia|intros _; eexists; reflexivity].
  - destruct (Z.leb_spec (- Z.of_nat len) i) as [H2|H2];
      destruct (Z.ltb_spec i 0) as [H3|H3]; simpl; try lia;
      (split; [intros [k E]; discriminate E|intro; lia]).
  - destruct (Z.leb_spec (- Z.of_nat len) i) as [H2|H2];
      destruct (Z.ltb_spec i 0) as [H3|H3]; simpl; try lia.
    + split; [intros _; lia|intros _; eexists; reflexivity].
    + split; [intros [k E]; discriminate E|intro; lia].
  - lia.
Qed.

Lemma norm_indices_some (len : nat) (idx : list Z) :
  (exists ks, norm_indices len idx = Some ks) <->
  Forall (fun i => (- Z.of_nat len <= i < Z.of_nat len)%Z) idx.
Proof.
  induction idx as [|i idx IH]; simpl.
  - split; [constructor|eauto].
  - split.
    + intros [ks E].
      destruct (norm_index len i) as [k|] eqn:Ei; [|discriminate].
      destruct (norm_indices len idx) as [ks'|]; [|discriminate].
      constructor; [apply norm_index_some; eauto|apply IH; eauto].
    + intro F. inversion F as [|? ? Hi F']; subst.
      apply norm_index_some in Hi. destruct Hi as [k ->].
      apply IH in F'. destruct F' as [ks ->]. eauto.
Qed.

(** When transform_canonical completes and how it fails otherwise: it
    needs a tableau with an objective row, basis entries that are numpy
    indices of a column, and as many of them as constraint rows; an
    empty tableau or a basis entry outside [-columns, columns) raises
    IndexError, a basis of the wrong size a shape error. *)
Lemma transform_canonical_outcome (st : state) :
  match transform_canonical st with
  | inr st' =>
      LP_matrix st <> [] /\
      Forall (fun i => (- Z.of_nat (n_columns (LP_matrix st)) <= i
                        < Z.of_nat (n_columns (LP_matrix st)))%Z) (bases st) /\
      length (bases st) = length (tl (LP_matrix st))
  | inl e =>
      (e = IndexError /\
       (LP_matrix st = [] \/
        ~ Forall (fun i => (- Z.of_nat (n_columns (LP_matrix st)) <= i
                            < Z.of_nat (n_columns (LP_matrix st)))%Z)
            (bases st))) \/
      (e = ShapeError /\ LP_matrix st <> [] /\
       length (bases st) <> length (tl (LP_matrix st)))
  end.
Proof.
  unfold transform_canonical, gather.
  destruct (LP_matrix st) as [|row0 rest] eqn:ET.
  { left. auto. }
  unfold n_columns; simpl.
  destruct (norm_indices (length row0) (bases st)) as [ks|] eqn:E; simpl.
  - pose proof (norm_indices_length _ _ _ E) as Hl.
    rewrite length_map, Hl.
    destruct (Nat.eqb_spec (length (bases st)) (length rest)); simpl.
    + split; [discriminate|]. split; [|assumption].
      apply norm_indices_some. eauto.
    + right. split; [reflexivity|]. split; [discriminate|assumption].
  - left. split; [reflexivity|]. right. intro F.
    apply norm_indices_some in F. destruct F as [ks E']. congruence.
Qed.

Lemma dot_zero_l (u y : list Qc) :
  (forall j, (j < length u)%nat -> nth j u 0 = 0) -> dot u y = 0.
Proof. intro H. rewrite dot_comm. now apply dot_zero. Qed.

(** On a well-formed tableau whose constraint rows are the identity on
    the basic columns, transform_canonical completes and leaves a state
    in basic form whose reduced costs on the basis are exactly zero. *)
Lemma transform_canonical_basic_form (st : state) :
  wf_state st ->
  (forall r s, (r < length (bases st))%nat -> (s < length (bases st))%nat ->
     entry (LP_matrix st) (S r) (basic_column st s)
     = if r =? s then 1 else 0) ->
  exists st',
    transform_canonical st = inr st' /\ basic_form st' /\ exact_costs st'.
Proof.
  intros W Hid.
  destruct (transform_canonical st) as [e|st'] eqn:E.
  { exfalso. pose proof (transform_canonical_outcome st) as O.
    rewrite E in O. destruct W as [Hrect Hrows Hcols Hb].
    destruct O as [(_ & [Z|N])|(_ & _ & N)].
    - unfold n_rows in Hrows. rewrite Z in Hrows. discriminate.
    - apply N. eapply Forall_impl; [|exact Hb]. simpl. intros; lia.
    - apply N. unfold n_rows in Hrows.
      destruct (LP_matrix st); simpl in *; [discriminate|lia]. }
  exists st'. split; [reflexivity|].
  pose proof (transform_canonical_wf _ _ W E) as W'.
  destruct (transform_canonical_writes_row0 _ _ E) as (Htl & Hbs & _).
  assert (Hrows' : forall r j,
            entry (LP_matrix st') (S r) j = entry (LP_matrix st) (S r) j)
    by (intros r j; now rewrite <- !entry_tl, Htl).
  assert (Hcol : forall s, basic_column st' s = basic_column st s)
    by (intro s; unfold basic_column; now rewrite Hbs).
  assert (X : exact_costs st').
  { intros s Hs. rewrite Hbs in Hs. rewrite Hcol.
    pose proof W as [Hrect Hrows Hcols Hb].
    unfold transform_canonical, gather in E.
    destruct (LP_matrix st) as [|row0 rest] eqn:ET; [discriminate|].
    unfold n_columns in Hb, Hcols; simpl in Hb, Hcols.
    assert (Hb' : Forall (fun i => (0 <= i < Z.of_nat (length row0))%Z)
                    (bases st))
      by (eapply Forall_impl; [|exact Hb]; simpl; intros; lia).
    rewrite (norm_indices_nonneg _ _ Hb') in E. simpl in E.
    destruct (negb _); [discriminate|].
    inversion E; subst st'; clear E. simpl. unfold entry at 1; simpl.
    assert (Hj : (basic_column st s < length row0)%nat).
    { unfold basic_column. rewrite Forall_forall in Hb.
      specialize (Hb (nth s (bases st) 0%Z) (nth_In _ _ Hs)). lia. }
    rewrite nth_vec_sub by now rewrite vecmat_length.
    rewrite nth_vecmat by assumption.
    rewrite (dot_unit _ _ s).
    - rewrite map_map. rewrite (nth_map_lt _ _ s 0 0%Z) by assumption.
      unfold basic_column. ring.
    - rewrite column_length, !length_map.
      unfold n_rows in Hrows; simpl in Hrows. lia.
    - intros r Hr. rewrite column_length in Hr. rewrite nth_column.
      unfold n_rows in Hrows; simpl in Hrows.
      apply (Hid r s); lia. }
  split; [|exact X].
  constructor; [exact W'| |].
  - intros r Hr. rewrite (X r Hr). apply Qcabs'_0.
  - intros r s Hr Hs. rewrite Hbs in Hr, Hs. rewrite Hrows', Hcol.
    now apply Hid.
Qed.

Lemma vec_sub_zero (u v : list Qc) :
  length u = length v ->
  (forall j, (j < length v)%nat -> nth j v 0 = 0) -> vec_sub u v = u.
Proof.
  intros L Z. apply (nth_ext _ _ 0 0).
  - now apply vec_sub_length.
  - intros j Hj. rewrite vec_sub_length in Hj by assumption.
    rewrite nth_vec_sub by assumption. rewrite Z by lia. ring.
Qed.

(** A state in basic form with exactly zero reduced costs on its basis
    is left as it is: running transform_canonical again changes
    nothing. *)
Lemma transform_canonical_fixpoint (st : state) :
  basic_form st -> exact_costs st -> transform_canonical st = inr st.
Proof.
  intros [W _ _] X. pose proof W as [Hrect Hrows Hcols Hb].
  destruct st as [T B]; simpl in *.
  destruct T as [|row0 rest]; [discriminate|].
  unfold transform_canonical, gather; simpl.
  unfold n_columns, n_rows in *; simpl in *.
  assert (Hb' : Forall (fun i => (0 <= i < Z.of_nat (length row0))%Z) B)
    by (eapply Forall_impl; [|exact Hb]; simpl; intros; lia).
  rewrite (norm_indices_nonneg _ _ Hb'). simpl.
  rewrite !length_map.
  destruct (Nat.eqb_spec (length B) (length rest)); [simpl|lia].
  rewrite vec_sub_zero; [reflexivity|now rewrite vecmat_length|].
  intros j Hj. rewrite vecmat_length in Hj. rewrite nth_vecmat by assumption.
  apply dot_zero_l. intros s Hs. rewrite !length_map in Hs.
  rewrite map_map. rewrite (nth_map_lt _ _ s 0 0%Z) by assumption.
  exact (X s Hs).
Qed.

(** X12.  transform_canonical is idempotent on the tableaux it is meant for. *)
Lemma transform_canonical_idempotent (st st' : state) :
  wf_state st ->
  (forall r s, (r < length (bases st))%nat -> (s < length (bases st))%nat ->
     entry (LP_matrix st) (S r) (basic_column st s)
     = if r =? s then 1 else 0) ->
  transform_canonical st = inr st' ->
  transform_canonical st' = inr st'.
Proof.
  intros W Hid E.
  destruct (transform_canonical_basic_form st W Hid) as (st1 & E1 & F & X).
  rewrite E in E1. inversion E1; subst st1.
  now apply transform_canonical_fixpoint.
Qed.

(** ** Edge cases of the entry checks and of the loop *)

(** X14.  An index error, not InvalidInput, is what a bad basis entry gives:
    with dimensions, dtypes and sizes as required, a basis entry outside
    [-columns, columns) makes line 18 raise IndexError before anything
    is compared, and so does a tableau without any column at line 20. *)
Lemma solve_canonical_LP_index_error (fuel : nat)
  (uninit : nat -> nat -> bound) (T : matrix) (B : list Z) :
  n_rows T = S (length B) ->
  (~ Forall (fun i => (- Z.of_nat (n_columns T) <= i
                       < Z.of_nat (n_columns T))%Z) B ->
   solve_canonical_LP fuel uninit (Arr2 float64 T) (Arr1 int64 B)
   = Raised IndexError) /\
  (n_columns T = O -> B = [] ->
   solve_canonical_LP fuel uninit (Arr2 float64 T) (Arr1 int64 B)
   = Raised IndexError).
Proof.
  intro Hrows. unfold solve_canonical_LP, check_preconditions; simpl.
  rewrite Hrows.
  replace (Z.of_nat (S (length B)) - 1 =? Z.of_nat (length B))%Z with true
    by (symmetry; apply Z.eqb_eq; lia).
  simpl. unfold gather. split.
  - intro N.
    destruct (norm_indices (length (hd [] T)) B) as [ks|] eqn:E;
      [|reflexivity].
    exfalso. apply N. apply norm_indices_some. unfold n_columns. eauto.
  - intros Hc ->. simpl. now rewrite Hc.
Qed.

(** X15.  A tableau without constraint rows: the solver raises Unbounded as
    soon as some reduced cost is below -eps, and otherwise returns the
    zero vector with the negated right-hand side of the objective row,
    leaving the tableau untouched. *)
Lemma solve_canonical_LP_no_rows (fuel : nat) (uninit : nat -> nat -> bound)
  (row0 : list Qc) :
  (0 < length row0)%nat ->
  let st := mkState [row0] [] in
  let n := (length row0 - 1)%nat in
  ((exists j, (j < n)%nat /\ nth j row0 0 < - eps) ->
   solve_canonical_LP (S fuel) uninit (as_tableau st) (as_basis st)
   = Raised Unbounded) /\
  ((forall j, (j < n)%nat -> ~ nth j row0 0 < - eps) ->
   solve_canonical_LP (S fuel) uninit (as_tableau st) (as_basis st)
   = Returned (repeat 0 n) (- nth n row0 0) st).
Proof.
  intros Hlen st n.
  assert (W : wf_state st).
  { constructor; simpl.
    - repeat constructor.
    - reflexivity.
    - exact Hlen.
    - constructor. }
  assert (Hc : check_preconditions (as_tableau st) (as_basis st) = inr st).
  { apply (check_preconditions_accepts [row0] [] W); simpl; intros; lia. }
  unfold solve_canonical_LP. rewrite Hc. simpl.
  rewrite (iteration_unfold _ st W).
  split.
  - intros (j & Hj & Hneg).
    destruct (first_negative (reduced_costs st)) as [k|] eqn:E;
      [reflexivity|exfalso].
    apply (proj1 (optimal_iff st W) E j); [exact Hj|exact Hneg].
  - intro Hopt.
    rewrite (proj2 (optimal_iff st W)) by exact Hopt.
    reflexivity.
Qed.

(** ** Back to the caller's variables *)

Lemma gather_nonneg (a : list Qc) (idx : list Z) :
  Forall (fun i => (0 <= i < Z.of_nat (length a))%Z) idx ->
  gather a idx = Some (map (fun k => nth k a 0) (map Z.to_nat idx)).
Proof.
  intro F. unfold gather. now rewrite (norm_indices_nonneg _ _ F).
Qed.

Lemma scatter_nonneg (a : list Qc) (idx : list Z) (vals : list Qc) :
  Forall (fun i => (0 <= i < Z.of_nat (length a))%Z) idx ->
  length vals = length idx ->
  scatter a idx vals = inr (scatter_at a (map Z.to_nat idx) vals).
Proof.
  intros F L. unfold scatter. rewrite (norm_indices_nonneg _ _ F).
  now rewrite length_map, L, Nat.eqb_refl.
Qed.

Lemma Forall_to_nat_lt (len : nat) (idx : list Z) :
  Forall (fun i => (0 <= i < Z.of_nat len)%Z) idx ->
  Forall (fun k => (k < len)%nat) (map Z.to_nat idx) /\
  Forall (fun i => (0 <= i)%Z) idx.
Proof.
  intro F. split.
  - apply Forall_map. eapply Forall_impl; [|exact F]. simpl. intros; lia.
  - eapply Forall_impl; [|exact F]. simpl. intros; lia.
Qed.

Lemma match_nonempty {A B} (l : list A) (a b : B) :
  l <> [] -> match l with [] => a | _ :: _ => b end = b.
Proof. destruct l; [congruence|reflexivity]. Qed.

(** X16.  Lines 99-102 entry by entry, for index lists without repetition that
    name entries of the solution: the sign-flipped entries are negated,
    each split variable then loses the value of its paired column, every
    other entry is kept, and the result is cut to the original variable
    count. *)
Lemma postprocess_spec (s : standardized) (var_number : nat)
  (solution : list Qc) :
  let in_range :=
    Forall (fun i => (0 <= i < Z.of_nat (length solution))%Z) in
  let neg := map Z.to_nat (neg_constraint_vars s) in
  let no := map Z.to_nat (no_constraint_vars s) in
  let extra := map Z.to_nat (nolimit_extra s) in
  let flip := fun j =>
    if in_dec Nat.eq_dec j neg then - nth j solution 0
    else nth j solution 0 in
  in_range (neg_constraint_vars s) -> NoDup (neg_constraint_vars s) ->
  in_range (no_constraint_vars s) -> NoDup (no_constraint_vars s) ->
  in_range (nolimit_extra s) ->
  length (nolimit_extra s) = length (no_constraint_vars s) ->
  exists out,
    postprocess s var_number solution = inr (firstn var_number out) /\
    length out = length solution /\
    (forall i, (i < length no)%nat ->
       nth (nth i no O) out 0 = flip (nth i no O) - flip (nth i extra O)) /\
    (forall j, ~ In j no -> nth j out 0 = flip j).
Proof.
  intros in_range neg no extra flip Fneg Dneg Fno Dno Fex Lex.
  destruct (Forall_to_nat_lt _ _ Fneg) as [Fneg' Nneg].
  destruct (Forall_to_nat_lt _ _ Fno) as [Fno' Nno].
  destruct (Forall_to_nat_lt _ _ Fex) as [Fex' Nex].
  unfold postprocess.
  rewrite (gather_nonneg _ _ Fneg). simpl.
  rewrite scatter_nonneg by (rewrite ?length_map; auto). simpl.
  fold neg.
  set (sol1 := scatter_at solution neg
                 (map Qcopp (map (fun k => nth k solution 0) neg))).
  destruct (scatter_at_spec neg
              (map Qcopp (map (fun k => nth k solution 0) neg)) solution)
    as (L1 & R1 & J1).
  { now rewrite !length_map. }
  { now apply NoDup_map_to_nat. }
  { exact Fneg'. }
  fold sol1 in L1, R1, J1.
  assert (Hflip : forall j, nth j sol1 0 = flip j).
  { intro j. unfold flip. destruct (in_dec Nat.eq_dec j neg) as [I|I].
    - destruct (In_nth _ _ O I) as (r & Hr & <-).
      rewrite R1 by assumption.
      rewrite (nth_map_lt _ _ r 0 0) by now rewrite length_map.
      now rewrite (nth_map_lt _ _ r 0 O).
    - now apply J1. }
  assert (Hcase : no_constraint_vars s = [] \/ no_constraint_vars s <> [])
    by (destruct (no_constraint_vars s); [left|right]; congruence).
  subst no extra.
  destruct Hcase as [Eno|Eno].
  - rewrite Eno. simpl. exists sol1. split; [reflexivity|]. split; [exact L1|].
    split; [intros i Hi; simpl in Hi; lia|]. intros j _. apply Hflip.
  - rewrite (match_nonempty _ _ _ Eno).
    set (no := map Z.to_nat (no_constraint_vars s)) in *.
    set (extra := map Z.to_nat (nolimit_extra s)) in *.
    assert (Fno1 : Forall (fun i => (0 <= i < Z.of_nat (length sol1))%Z)
                     (no_constraint_vars s)) by now rewrite L1.
    assert (Fex1 : Forall (fun i => (0 <= i < Z.of_nat (length sol1))%Z)
                     (nolimit_extra s)) by now rewrite L1.
    rewrite (gather_nonneg _ _ Fno1), (gather_nonneg _ _ Fex1). simpl.
    fold no. fold extra.
    assert (Lne : length no = length extra)
      by (unfold no, extra; now rewrite !length_map).
    rewrite !length_map. fold no extra.
    replace (length extra =? length no) with true
      by (symmetry; apply Nat.eqb_eq; lia).
    set (vals := vec_sub (map (fun k => nth k sol1 0) no)
                   (map (fun k => nth k sol1 0) extra)).
    assert (Lvals : length vals = length (no_constraint_vars s)).
    { unfold vals. rewrite vec_sub_length by now rewrite !length_map.
      unfold no. now rewrite !length_map. }
    rewrite (scatter_nonneg sol1 _ vals Fno1 Lvals).
    fold no. simpl.
    destruct (scatter_at_spec no vals sol1) as (L2 & R2 & J2).
    { unfold vals. rewrite vec_sub_length; now rewrite !length_map. }
    { now apply NoDup_map_to_nat. }
    { now rewrite L1. }
    exists (scatter_at sol1 no vals).
    split; [reflexivity|split; [congruence|split]].
    + intros i Hi. rewrite R2 by assumption. unfold vals.
      rewrite nth_vec_sub by now rewrite !length_map.
      rewrite (nth_map_lt _ _ i 0 O) by assumption.
      rewrite (nth_map_lt _ _ i 0 O) by lia.
      now rewrite !Hflip.
    + intros j Hj. rewrite J2 by assumption. apply Hflip.
Qed.

(** ** solve_LP as a whole *)

(** X17.  The only way solve_LP reports infeasibility: auxiliary columns are
    present, phase 1 ran to its optimum, and that optimum exceeds eps.
    In particular a problem without auxiliary columns is never reported
    infeasible, and neither is one whose phase 1 failed otherwise. *)
Lemma solve_LP_infeasible_only_if
  (standardize : matrix -> list Z -> list Z -> standardized)
  (fuel : nat) (uninit1 uninit2 : nat -> nat -> bound)
  (LP : matrix) (var_constraints func_constraints : list Z) :
  solve_LP standardize fuel uninit1 uninit2 LP var_constraints
    func_constraints = inl Infeasible ->
  let s := standardize LP var_constraints func_constraints in
  phase1_slack_vars s <> [] /\
  exists c T1 st1 solution1 value1 st2,
    phase1_objective (phase1_slack_vars s) (std_LP_matrix s) = inr (c, T1) /\
    transform_canonical (mkState T1 (std_bases s)) = inr st1 /\
    solve_canonical_LP fuel uninit1 (as_tableau st1) (as_basis st1)
    = Returned solution1 value1 st2 /\
    eps < value1.
Proof.
  intros H s. unfold solve_LP in H. fold s in H.
  assert (Hrest : forall st,
            not_infeasible
              (do r <- run (solve_canonical_LP fuel uninit2
                              (as_tableau st) (as_basis st)) ;;
               let '(solution, solution_value, _) := r in
               do solution' <- postprocess s (n_columns LP - 1) solution ;;
               inr (solution', solution_value))).
  { intro st.
    apply bind_not_infeasible;
      [apply solve_canonical_LP_not_infeasible|intros [[sol v] f]].
    apply bind_not_infeasible;
      [apply postprocess_not_infeasible|discriminate]. }
  destruct (phase1_slack_vars s) as [|a aux] eqn:Ea.
  { exfalso. simpl in H. exact (Hrest _ H). }
  split; [discriminate|]. rewrite <- Ea in *. clear Ea a aux.
  destruct (negb (length (phase1_slack_vars s) =? 0)).
  2:{ exfalso. simpl in H. exact (Hrest _ H). }
  destruct (phase1 fuel uninit1 (phase1_slack_vars s)
              (mkState (std_LP_matrix s) (std_bases s))) as [e|st] eqn:P.
  2:{ exfalso. simpl in H. exact (Hrest _ H). }
  simpl in H. inversion H; subst e; clear H.
  unfold phase1 in P. simpl in P.
  destruct (phase1_objective (phase1_slack_vars s) (std_LP_matrix s))
    as [e|[c T1]] eqn:P1; simpl in P.
  { exfalso. inversion P; subst.
    unfold phase1_objective in P1.
    destruct (std_LP_matrix s); [discriminate|].
    destruct (scatter _ _ _) eqn:Sc; [|discriminate].
    simpl in P1. inversion P1; subst.
    exact (scatter_not_infeasible _ _ _ Sc). }
  destruct (transform_canonical (mkState T1 (std_bases s)))
    as [e|st1] eqn:P2; simpl in P.
  { exfalso. inversion P; subst.
    exact (transform_canonical_not_infeasible _ P2). }
  destruct (solve_canonical_LP fuel uninit1 (as_tableau st1) (as_basis st1))
    as [sol1 v1 st2|e] eqn:P3; simpl in P.
  2:{ exfalso. inversion P; subst.
      apply (solve_canonical_LP_not_infeasible fuel uninit1
               (as_tableau st1) (as_basis st1)).
      rewrite P3. reflexivity. }
  destruct (Qcltb eps v1) eqn:L.
  - exists c, T1, st1, sol1, v1, st2.
    repeat split; auto. now apply Qcltb_lt.
  - exfalso. revert P.
    apply bind_not_infeasible;
      [apply restore_objective_not_infeasible|intro T3].
    apply transform_canonical_not_infeasible.
Qed.

(** ** The solver's properties, gathered *)

Lemma check_preconditions_wf (st : state) :
  wf_state st ->
  check_preconditions (as_tableau st) (as_basis st) = inr st \/
  check_preconditions (as_tableau st) (as_basis st) = inl InvalidInput.
Proof.
  intros [Hrect Hrows Hcols Hb]. destruct st as [T B]; simpl in *.
  unfold check_preconditions, as_tableau, as_basis; simpl.
  rewrite Hrows.
  replace (Z.of_nat (S (length B)) - 1 =? Z.of_nat (length B))%Z with true
    by (symmetry; apply Z.eqb_eq; lia).
  simpl. unfold gather.
  assert (Hb' : Forall (fun i => (0 <= i < Z.of_nat (length (hd [] T)))%Z) B)
    by (eapply Forall_impl; [|exact Hb]; unfold n_columns; simpl; intros; lia).
  rewrite (norm_indices_nonneg _ _ Hb'). simpl.
  destruct (forallb _ (map _ (map Z.to_nat B))); simpl; [|now right].
  destruct (Nat.eqb_spec (n_columns T) 0) as [E|_]; [lia|].
  destruct (forallb _ (column _ _)); simpl; [now left|now right].
Qed.

(** ** Phase 1 and the hand-over to phase 2 *)

Lemma scatter_at_repeat (ks : list nat) (row : list Qc) (v : Qc) (j : nat) :
  Forall (fun k => (k < length row)%nat) ks ->
  length (scatter_at row ks (repeat v (length ks))) = length row /\
  nth j (scatter_at row ks (repeat v (length ks))) 0
  = if in_dec Nat.eq_dec j ks then v else nth j row 0.
Proof.
  revert row. induction ks as [|k ks IH]; intros row F; simpl.
  - auto.
  - inversion F as [|? ? Fk F']; subst.
    destruct (IH (update k v row)) as [IL IN];
      [now rewrite update_length|].
    rewrite update_length in IL. split; [exact IL|].
    rewrite IN.
    destruct (in_dec Nat.eq_dec j ks) as [I|I];
      destruct (Nat.eq_dec k j) as [E|E]; try reflexivity.
    + subst. now apply nth_update_eq.
    + now apply nth_update_neq.
Qed.

(** Lines 83-85 on a tableau with an objective row: the coefficients of
    the first n columns are saved, and the objective row becomes 1 at the
    auxiliary columns and 0 elsewhere, right-hand side included. *)
Lemma phase1_objective_spec (aux : list Z) (T : matrix) :
  T <> [] ->
  Forall (fun i => (0 <= i < Z.of_nat (n_columns T))%Z) aux ->
  exists row0',
    phase1_objective aux T
    = inr (firstn (n_columns T - 1) (hd [] T), row0' :: tl T) /\
    length row0' = n_columns T /\
    forall j, nth j row0' 0
              = if in_dec Nat.eq_dec j (map Z.to_nat aux) then 1 else 0.
Proof.
  intros HT F. destruct T as [|row0 rest]; [congruence|].
  unfold phase1_objective, n_columns in *; simpl in *.
  unfold scatter. rewrite repeat_length.
  rewrite (norm_indices_nonneg _ _ F).
  assert (Hks : Forall (fun k => (k < length (repeat (Q2Qc 0) (length row0)))%nat)
                  (map Z.to_nat aux)).
  { rewrite repeat_length. apply Forall_map.
    eapply Forall_impl; [|exact F]. simpl. intros; lia. }
  assert (Hsame :
    (if (length [Q2Qc 1] =? length (map Z.to_nat aux))%nat
     then inr (scatter_at (repeat 0 (length row0)) (map Z.to_nat aux) [1])
     else if (length [Q2Qc 1] =? 1)%nat
          then inr (scatter_at (repeat 0 (length row0)) (map Z.to_nat aux)
                      (repeat (hd 0 [1]) (length (map Z.to_nat aux))))
          else inl ShapeError)
    = (inr (scatter_at (repeat 0 (length row0)) (map Z.to_nat aux)
              (repeat 1 (length (map Z.to_nat aux)))) : error + list Qc)).
  { destruct (Nat.eqb_spec (length [Q2Qc 1]) (length (map Z.to_nat aux)))
      as [E|_]; [|reflexivity].
    now rewrite <- E. }
  rewrite Hsame. simpl.
  eexists. split; [reflexivity|].
  destruct (scatter_at_repeat (map Z.to_nat aux) (repeat 0 (length row0)) 1 O
              Hks) as [L _].
  rewrite repeat_length in L. split; [exact L|].
  intro j.
  destruct (scatter_at_repeat (map Z.to_nat aux) (repeat 0 (length row0)) 1 j
              Hks) as [_ ->].
  destruct (in_dec Nat.eq_dec j (map Z.to_nat aux)); [reflexivity|].
  apply nth_repeat.
Qed.

(** transform_canonical completes on every well-formed state. *)
Lemma transform_canonical_completes (st : state) :
  wf_state st -> exists st', transform_canonical st = inr st'.
Proof.
  intros [Hrect Hrows Hcols Hb].
  pose proof (transform_canonical_outcome st) as O.
  destruct (transform_canonical st) as [e|st']; [exfalso|eauto].
  unfold n_rows in Hrows.
  destruct O as [[_ [E|N]]|(_ & _ & N)].
  - rewrite E in Hrows. discriminate.
  - apply N. eapply Forall_impl; [|exact Hb]. simpl. intros; lia.
  - apply N. destruct (LP_matrix st); simpl in *; [discriminate|lia].
Qed.

Lemma solve_canonical_LP_returned_wf (fuel : nat)
  (uninit : nat -> nat -> bound) (st final : state) (solution : list Qc)
  (value : Qc) :
  wf_state st ->
  solve_canonical_LP fuel uninit (as_tableau st) (as_basis st)
  = Returned solution value final ->
  wf_state final /\
  n_rows (LP_matrix final) = n_rows (LP_matrix st) /\
  n_columns (LP_matrix final) = n_columns (LP_matrix st) /\
  length (bases final) = length (bases st).
Proof.
  intros W H. unfold solve_canonical_LP in H.
  destruct (check_preconditions_wf st W) as [E|E]; rewrite E in H;
    [|discriminate].
  pose proof (simplex_loop_outcome fuel uninit 0 st W) as O.
  rewrite H in O. tauto.
Qed.

(** Lines 92-93 complete on a tableau with an objective row when the
    saved coefficients have its width and the auxiliary indices name
    columns of it. *)
Lemma restore_objective_completes (c : list Qc) (aux : list Z) (T : matrix) :
  T <> [] -> (0 < n_columns T)%nat ->
  length c = (n_columns T - 1)%nat ->
  Forall (fun i => (0 <= i < Z.of_nat (n_columns T))%Z) aux ->
  exists T3, restore_objective c aux T = inr T3.
Proof.
  intros HT Hc Hl F. destruct T as [|row0 rest]; [congruence|].
  unfold restore_objective, n_columns in *; simpl in *.
  rewrite length_firstn.
  replace (length c =? Nat.min (length row0 - 1) (length row0))%nat with true
    by (symmetry; apply Nat.eqb_eq; lia).
  simpl. unfold zero_columns, n_columns; simpl.
  rewrite length_app, length_skipn.
  replace (length c + (length row0 - (length row0 - 1)))%nat
    with (length row0) by lia.
  rewrite (norm_indices_nonneg _ _ F). eauto.
Qed.

(** C7.  Let the standardizer hand back a well-formed tableau and basis
    with auxiliary columns among the variable columns.  Then solve_LP
    saves the objective coefficients, writes the phase-1 objective (1 at
    the auxiliary columns, 0 elsewhere), canonicalizes it and runs phase
    1.  If that run raises, solve_LP raises the same error, which is not
    Infeasible.  If it returns the value [value1], solve_LP fails with
    Infeasible exactly when [value1] exceeds eps; otherwise the restore
    step completes: every auxiliary column is 0 in every row, the
    remaining first n entries of the objective row are the saved
    coefficients of the standardized tableau, everything else is as
    phase 1 left it; transform_canonical completes on that tableau,
    writing the objective row only and leaving the auxiliary columns
    zero; and the result of solve_LP is that of phase 2 on this state,
    post-processed.  In the state phase 2 returns from, an auxiliary
    column is still zero and is basic only in rows where it already was
    when phase 1 ended: it never enters the basis again. *)
Theorem solve_LP_phase1_handover
  (standardize : matrix -> list Z -> list Z -> standardized)
  (fuel : nat) (uninit1 uninit2 : nat -> nat -> bound)
  (LP : matrix) (var_constraints func_constraints : list Z) :
  let s := standardize LP var_constraints func_constraints in
  let aux := phase1_slack_vars s in
  let T0 := std_LP_matrix s in
  let n := (n_columns T0 - 1)%nat in
  let ks := map Z.to_nat aux in
  let result :=
    solve_LP standardize fuel uninit1 uninit2 LP var_constraints
      func_constraints in
  wf_state (mkState T0 (std_bases s)) ->
  aux <> [] ->
  Forall (fun i => (0 <= i < Z.of_nat n)%Z) aux ->
  exists T1 st1,
    phase1_objective aux T0 = inr (firstn n (hd [] T0), T1) /\
    tl T1 = tl T0 /\
    (forall j, (j < S n)%nat ->
       entry T1 0 j = if in_dec Nat.eq_dec j ks then 1 else 0) /\
    transform_canonical (mkState T1 (std_bases s)) = inr st1 /\
    match solve_canonical_LP fuel uninit1 (as_tableau st1) (as_basis st1) with
    | Raised e => result = inl e /\ e <> Infeasible
    | Returned _ value1 st2 =>
        (result = inl Infeasible <-> eps < value1) /\
        (value1 <= eps ->
         exists T3 st3,
           restore_objective (firstn n (hd [] T0)) aux (LP_matrix st2)
           = inr T3 /\
           n_rows T3 = n_rows T0 /\
           (forall r j, (r < n_rows T0)%nat -> (j < S n)%nat ->
              entry T3 r j
              = if in_dec Nat.eq_dec j ks then 0
                else if (r =? 0) && (j <? n) then entry T0 0 j
                     else entry (LP_matrix st2) r j) /\
           transform_canonical (mkState T3 (bases st2)) = inr st3 /\
           tl (LP_matrix st3) = tl T3 /\
           bases st3 = bases st2 /\
           (forall j, In j ks -> zero_column (LP_matrix st3) j) /\
           result
           = (do r <- run (solve_canonical_LP fuel uninit2
                             (as_tableau st3) (as_basis st3)) ;;
              let '(solution, value, _) := r in
              do solution' <- postprocess s (n_columns LP - 1) solution ;;
              inr (solution', value)) /\
           (forall solution value final j,
              solve_canonical_LP fuel uninit2 (as_tableau st3) (as_basis st3)
              = Returned solution value final ->
              In j ks ->
              zero_column (LP_matrix final) j /\
              forall r, (r < length (bases st2))%nat ->
                basic_column final r = j -> basic_column st2 r = j))
    end.
Proof.
  intros s aux T0 n ks result W Haux Faux.
  pose proof W as [Hrect Hrows Hcols Hb]. simpl in Hrect, Hrows, Hcols, Hb.
  fold n in Hb.
  assert (HT0 : T0 <> []).
  { intro E. unfold n_rows in Hrows. rewrite E in Hrows. discriminate. }
  assert (Hn : n_columns T0 = S n) by (unfold n; lia).
  assert (Faux' : Forall (fun i => (0 <= i < Z.of_nat (n_columns T0))%Z) aux).
  { eapply Forall_impl; [|exact Faux]. simpl. intros; lia. }
  assert (Hks : Forall (fun k => (k < n)%nat) ks).
  { apply Forall_map. eapply Forall_impl; [|exact Faux]. simpl. intros; lia. }
  (* lines 83-85 *)
  destruct (phase1_objective_spec aux T0 HT0 Faux') as (row0' & H1 & L1 & N1).
  fold n in H1. fold ks in N1.
  set (T1 := row0' :: tl T0) in *.
  assert (W1 : wf_state (mkState T1 (std_bases s))).
  { constructor; simpl.
    - unfold rectangular, T1, n_columns; simpl. constructor; [reflexivity|].
      rewrite L1. destruct T0 as [|r0 rest]; [congruence|].
      inversion Hrect; subst. assumption.
    - unfold n_rows, T1 in *. destruct T0; simpl in *; [congruence|lia].
    - unfold T1, n_columns; simpl. rewrite L1. lia.
    - unfold T1, n_columns at 1; simpl. rewrite L1. exact Hb. }
  (* line 88 *)
  destruct (transform_canonical_completes _ W1) as [st1 H2].
  pose proof (transform_canonical_wf _ _ W1 H2) as Wst1.
  exists T1, st1.
  split; [exact H1|]. split; [reflexivity|].
  split; [intros j Hj; unfold entry, T1; simpl; apply N1|].
  split; [exact H2|].
  (* lines 89-96 *)
  assert (Hsize : negb (length aux =? 0) = true)
    by (destruct aux; [congruence|reflexivity]).
  destruct (solve_canonical_LP fuel uninit1 (as_tableau st1) (as_basis st1))
    as [solution1 value1 st2|e] eqn:H3.
  2:{ split.
      - unfold result, solve_LP. fold s. fold aux. rewrite Hsize.
        unfold phase1. simpl LP_matrix. simpl bases. fold T0.
        rewrite H1. simpl. rewrite H2. simpl. rewrite H3. reflexivity.
      - intro E. subst e.
        apply (solve_canonical_LP_not_infeasible fuel uninit1
                 (as_tableau st1) (as_basis st1)).
        rewrite H3. reflexivity. }
  assert (Hrun :
    result
    = if Qcltb eps value1 then inl Infeasible else
      (do T3 <- restore_objective (firstn n (hd [] T0)) aux (LP_matrix st2) ;;
       do st3 <- transform_canonical (mkState T3 (bases st2)) ;;
       do r <- run (solve_canonical_LP fuel uninit2
                      (as_tableau st3) (as_basis st3)) ;;
       let '(solution, value, _) := r in
       do solution' <- postprocess s (n_columns LP - 1) solution ;;
       inr (solution', value))).
  { unfold result, solve_LP. fold s. fold aux. rewrite Hsize.
    unfold phase1. simpl LP_matrix. simpl bases. fold T0.
    rewrite H1. simpl. rewrite H2. simpl. rewrite H3. simpl.
    destruct (Qcltb eps value1); [reflexivity|].
    destruct (restore_objective _ aux (LP_matrix st2)); reflexivity. }
  split.
  - rewrite Hrun. destruct (Qcltb eps value1) eqn:E.
    + split; [intros _; now apply Qcltb_lt|reflexivity].
    + split.
      * intro H. exfalso. revert H.
        apply bind_not_infeasible;
          [apply restore_objective_not_infeasible|intro T3].
        apply bind_not_infeasible;
          [apply transform_canonical_not_infeasible|intro st3].
        apply bind_not_infeasible;
          [apply solve_canonical_LP_not_infeasible|intros [[sol v] f]].
        apply bind_not_infeasible;
          [apply postprocess_not_infeasible|discriminate].
      * intro L. apply Qcltb_lt in L. congruence.
  - intro L. apply Qcltb_ge in L. rewrite L in Hrun.
    destruct (solve_canonical_LP_returned_wf _ _ _ _ _ _ Wst1 H3)
      as (W2 & Hr2 & Hc2 & Hb2).
    destruct (transform_canonical_writes_row0 _ _ H2) as (Htl1 & Hbs1 & Hnr1).
    simpl in Htl1, Hbs1, Hnr1.
    assert (Hc1 : n_columns (LP_matrix st1) = n_columns T0).
    { pose proof (wf_rect _ Wst1) as R1. pose proof (wf_rows _ Wst1) as Rr.
      unfold transform_canonical in H2. simpl in H2. unfold T1 in H2.
      destruct (gather row0' (std_bases s)) as [w|]; [|discriminate].
      destruct (negb _); [discriminate|].
      inversion H2; subst st1; simpl. unfold n_columns; simpl.
      rewrite vec_sub_length by now rewrite vecmat_length.
      exact L1. }
    assert (Hcols2 : n_columns (LP_matrix st2) = S n) by congruence.
    assert (Hrows2 : n_rows (LP_matrix st2) = n_rows T0).
    { rewrite Hr2, Hnr1. unfold T1, n_rows.
      destruct T0; simpl; [congruence|reflexivity]. }
    pose proof W2 as [Hrect2 Hrows2' Hcols2' Hbases2].
    assert (HT2 : LP_matrix st2 <> []).
    { intro E. unfold n_rows in Hrows2'. rewrite E in Hrows2'. discriminate. }
    assert (Faux2 : Forall (fun i => (0 <= i
                              < Z.of_nat (n_columns (LP_matrix st2)))%Z) aux)
      by (rewrite Hcols2, <- Hn; exact Faux').
    destruct (restore_objective_completes (firstn n (hd [] T0)) aux
                (LP_matrix st2) HT2 Hcols2') as [T3 H4].
    { rewrite length_firstn, Hcols2. unfold n_columns in Hn. lia. }
    { exact Faux2. }
    destruct (restore_objective_spec _ aux _ T3 Hrect2 Hcols2' H4)
      as (ks' & Hks' & Hr3 & Hentry).
    rewrite (norm_indices_nonneg _ _ Faux2) in Hks'.
    inversion Hks'; subst ks'; clear Hks'. fold ks in Hentry.
    destruct (restore_objective_wf _ aux st2 T3 W2 H4) as [W3 Hc3].
    destruct (transform_canonical_completes _ W3) as [st3 H5].
    destruct (transform_canonical_writes_row0 _ _ H5) as (Htl3 & Hbs3 & Hnr3).
    simpl in Htl3, Hbs3, Hnr3.
    exists T3, st3.
    split; [exact H4|]. split; [congruence|].
    split.
    { intros r j Hr Hj. rewrite Hentry by (rewrite ?Hrows2, ?Hcols2; lia).
      destruct (in_dec Nat.eq_dec j ks); [reflexivity|].
      rewrite Hcols2. replace (S n - 1)%nat with n by lia.
      destruct ((r =? 0) && (j <? n)) eqn:B; [|reflexivity].
      apply andb_true_iff in B. destruct B as [Br Bj].
      apply Nat.eqb_eq in Br. apply Nat.ltb_lt in Bj. subst r.
      rewrite nth_firstn_lt by assumption.
      unfold entry. now destruct T0. }
    split; [exact H5|]. split; [exact Htl3|]. split; [exact Hbs3|].
    assert (Z3 : forall j, In j ks -> zero_column T3 j).
    { intros j Hj r Hr. rewrite Hr3 in Hr.
      rewrite Forall_forall in Hks. specialize (Hks j Hj).
      rewrite Hentry by (rewrite ?Hcols2; lia).
      destruct (in_dec Nat.eq_dec j ks); [reflexivity|contradiction]. }
    split.
    { intros j Hj.
      apply (transform_canonical_zero_column (mkState T3 (bases st2)) st3 j);
        simpl; auto.
      - exact (wf_rect _ W3).
      - rewrite Hc3, Hcols2. rewrite Forall_forall in Hks.
        specialize (Hks j Hj). lia. }
    split.
    { rewrite Hrun, H4. simpl. rewrite H5. reflexivity. }
    intros solution value final j HS Hj.
    apply (aux_columns_stay_out fuel uninit2 (firstn n (hd [] T0)) aux ks
             st2 st3 final T3 solution value j); auto.
    + exact (norm_indices_nonneg _ _ Faux2).
    + rewrite Hcols2. rewrite Forall_forall in Hks. specialize (Hks j Hj). lia.
Qed.

Lemma phase1_example_wf :
  wf_state (mkState (std_LP_matrix phase1_example) (std_bases phase1_example)).
Proof.
  constructor.
  - repeat constructor.
  - reflexivity.
  - unfold n_columns; simpl; lia.
  - repeat constructor; unfold n_columns; simpl; lia.
Defined.

Lemma infeasible_example_wf :
  wf_state (mkState (std_LP_matrix infeasible_example)
              (std_bases infeasible_example)).
Proof.
  constructor.
  - repeat constructor.
  - reflexivity.
  - unfold n_columns; simpl; lia.
  - repeat constructor; unfold n_columns; simpl; lia.
Defined.

Lemma solve_LP_phase1_handover_witness :
  (exists T1 st1 solution1 value1 st2 T3 st3,
    phase1_objective (phase1_slack_vars phase1_example)
      (std_LP_matrix phase1_example)
    = inr (firstn 3 (hd [] (std_LP_matrix phase1_example)), T1) /\
    transform_canonical (mkState T1 (std_bases phase1_example)) = inr st1 /\
    solve_canonical_LP 5 zero_filled (as_tableau st1) (as_basis st1)
    = Returned solution1 value1 st2 /\
    value1 <= eps /\
    solve_LP (fun _ _ _ => phase1_example) 5 zero_filled zero_filled
      phase1_input [1%Z] [1%Z] <> inl Infeasible /\
    restore_objective (firstn 3 (hd [] (std_LP_matrix phase1_example)))
      (phase1_slack_vars phase1_example) (LP_matrix st2) = inr T3 /\
    transform_canonical (mkState T3 (bases st2)) = inr st3 /\
    zero_column (LP_matrix st3) 2 /\
    solve_LP (fun _ _ _ => phase1_example) 5 zero_filled zero_filled
      phase1_input [1%Z] [1%Z]
    = (do r <- run (solve_canonical_LP 5 zero_filled
                      (as_tableau st3) (as_basis st3)) ;;
       let '(solution, value, _) := r in
       do solution' <- postprocess phase1_example
                         (n_columns phase1_input - 1) solution ;;
       inr (solution', value))) /\
  (exists value1,
     eps < value1 /\
     solve_LP (fun _ _ _ => infeasible_example) 5 zero_filled zero_filled
       phase1_input [1%Z] [1%Z] = inl Infeasible).
Proof.
  split.
  { destruct (solve_LP_phase1_handover (fun _ _ _ => phase1_example) 5
                zero_filled zero_filled phase1_input [1%Z] [1%Z]
                phase1_example_wf)
      as (T1 & st1 & H1 & _ & _ & H2 & Hm);
      [discriminate|repeat constructor; simpl; lia|].
    vm_compute in H1. injection H1 as <-.
    vm_compute in H2. injection H2 as <-.
    destruct (solve_canonical_LP 5 zero_filled _ _) as [sol1 v1 st2|e] eqn:H3.
    2:{ vm_compute in H3. discriminate H3. }
    vm_compute in H3. injection H3 as <- <- <-.
    destruct Hm as [Hiff Hrest].
    match type of Hrest with
    | ?v <= eps -> _ =>
        assert (L : v <= eps) by (apply Qcltb_ge; reflexivity)
    end.
    destruct (Hrest L) as (T3 & st3 & H4 & _ & _ & H5 & _ & _ & Hz & Hres & _).
    eexists _, _, _, _, _, T3, st3.
    split; [reflexivity|]. split; [reflexivity|]. split; [reflexivity|].
    split; [exact L|].
    split; [intro H; apply Hiff in H; exact (Qcle_not_lt _ _ L H)|].
    split; [exact H4|]. split; [exact H5|].
    split; [apply Hz; simpl; auto|exact Hres]. }
  destruct (solve_LP_phase1_handover (fun _ _ _ => infeasible_example) 5
              zero_filled zero_filled phase1_input [1%Z] [1%Z]
              infeasible_example_wf)
    as (T1 & st1 & H1 & _ & _ & H2 & Hm);
    [discriminate|repeat constructor; simpl; lia|].
  vm_compute in H1. injection H1 as <-.
  vm_compute in H2. injection H2 as <-.
  destruct (solve_canonical_LP 5 zero_filled _ _) as [sol1 v1 st2|e] eqn:H3.
  2:{ vm_compute in H3. discriminate H3. }
  vm_compute in H3. injection H3 as <- <- <-.
  destruct Hm as [Hiff _].
  match type of Hiff with
  | _ <-> eps < ?v =>
      assert (L : eps < v) by (apply Qcltb_lt; reflexivity); exists v
  end.
  split; [exact L|apply Hiff; exact L].
Defined.

(** X2.  On a well-formed tableau the solver never raises IndexError or a
    shape error: it returns, with a tableau of the same shape, a basis
    of the same length and a solution of length n, or it raises
    InvalidInput from the entry checks or Unbounded from the loop (or
    the run stops on a zero pivot or on the iteration budget). *)
Theorem solve_canonical_LP_outcome (fuel : nat)
  (uninit : nat -> nat -> bound) (st : state) :
  wf_state st ->
  match solve_canonical_LP fuel uninit (as_tableau st) (as_basis st) with
  | Returned solution value final =>
      wf_state final /\
      n_rows (LP_matrix final) = n_rows (LP_matrix st) /\
      n_columns (LP_matrix final) = n_columns (LP_matrix st) /\
      length (bases final) = length (bases st) /\
      length solution = (n_columns (LP_matrix st) - 1)%nat
  | Raised e =>
      e = InvalidInput \/ e = Unbounded \/ e = NonFinite \/ e = OutOfFuel
  end.
Proof.
  intro W. unfold solve_canonical_LP.
  destruct (check_preconditions_wf st W) as [-> | ->]; [|auto].
  pose proof (simplex_loop_outcome fuel uninit 0 st W) as O.
  destruct (simplex_loop fuel uninit 0 st); [exact O|tauto].
Qed.

(** X3.  The ratio test as the program performs it when the masked slots of
    the fresh buffer read as Inf or below eps: with [e] the entering
    column, a row is eligible when its coefficient exceeds eps and its
    ratio is at least eps; without eligible row the pass raises
    Unbounded; otherwise it pivots on the first eligible row of minimum
    ratio and writes the entering column at that row of the basis. *)
Theorem ratio_test_on_clean_buffer (buf : nat -> bound) (st : state)
  (e : nat) :
  wf_state st -> clean_buffer buf ->
  first_negative (reduced_costs st) = Some e ->
  let T := LP_matrix st in
  let n := (n_columns T - 1)%nat in
  let m := length (bases st) in
  ((forall r, (r < m)%nat ->
      ~ eligible (entry T (S r) n) (entry T (S r) e)) ->
   iteration buf st = Raise Unbounded) /\
  ((exists r, (r < m)%nat /\
      eligible (entry T (S r) n) (entry T (S r) e)) ->
   exists l,
     (l < m)%nat /\
     eligible (entry T (S l) n) (entry T (S l) e) /\
     (forall r, (r < m)%nat ->
        eligible (entry T (S r) n) (entry T (S r) e) ->
        entry T (S l) n / entry T (S l) e
        <= entry T (S r) n / entry T (S r) e) /\
     (forall r, (r < l)%nat ->
        eligible (entry T (S r) n) (entry T (S r) e) ->
        entry T (S l) n / entry T (S l) e
        < entry T (S r) n / entry T (S r) e) /\
     iteration buf st
     = Continue (mkState (pivot_update T (S l) e)
                   (update l (Z.of_nat e) (bases st)))).
Proof.
  intros W C E. exact (ratio_test_clean buf st e W C E).
Qed.

(** X10.  When transform_canonical completes and how it fails: it completes
    exactly on a tableau with an objective row, basis entries in
    [-columns, columns) and as many of them as constraint rows; an empty
    tableau or a basis entry out of that range raises IndexError, a
    basis of another size a shape error. *)
Theorem transform_canonical_errors (st : state) :
  match transform_canonical st with
  | inr st' =>
      LP_matrix st <> [] /\
      Forall (fun i => (- Z.of_nat (n_columns (LP_matrix st)) <= i
                        < Z.of_nat (n_columns (LP_matrix st)))%Z) (bases st) /\
      length (bases st) = length (tl (LP_matrix st))
  | inl e =>
      (e = IndexError /\
       (LP_matrix st = [] \/
        ~ Forall (fun i => (- Z.of_nat (n_columns (LP_matrix st)) <= i
                            < Z.of_nat (n_columns (LP_matrix st)))%Z)
            (bases st))) \/
      (e = ShapeError /\ LP_matrix st <> [] /\
       length (bases st) <> length (tl (LP_matrix st)))
  end.
Proof.
  exact (transform_canonical_outcome st).
Qed.

(** ** Instances *)

Lemma masked_row_example_basic : basic_form masked_row_example.
Proof. basic_form_by_computation. Defined.

Lemma recanon_example_wf : wf_state recanon_example.
Proof.
  constructor.
  - repeat constructor.
  - reflexivity.
  - unfold n_columns; simpl; lia.
  - repeat constructor; unfold n_columns; simpl; lia.
Defined.

Lemma recanon_example_identity (r s : nat) :
  (r < length (bases recanon_example))%nat ->
  (s < length (bases recanon_example))%nat ->
  entry (LP_matrix recanon_example) (S r) (basic_column recanon_example s)
  = if r =? s then 1 else 0.
Proof.
  intros Hr Hs. simpl in Hr, Hs.
  assert (r = O) by lia. assert (s = O) by lia. subst. reflexivity.
Defined.

Lemma solve_canonical_LP_outcome_witness :
  match solve_canonical_LP 5 zero_filled (as_tableau optimal_example)
          (as_basis optimal_example) with
  | Returned solution value final =>
      wf_state final /\
      n_rows (LP_matrix final) = n_rows (LP_matrix optimal_example) /\
      n_columns (LP_matrix final) = n_columns (LP_matrix optimal_example) /\
      length (bases final) = length (bases optimal_example) /\
      length solution = (n_columns (LP_matrix optimal_example) - 1)%nat
  | Raised e =>
      e = InvalidInput \/ e = Unbounded \/ e = NonFinite \/ e = OutOfFuel
  end.
Proof.
  apply (solve_canonical_LP_outcome 5 zero_filled optimal_example).
  exact optimal_example_wf.
Defined.

Lemma ratio_test_on_clean_buffer_witness :
  exists l,
    (l < 2)%nat /\
    iteration (zero_filled 1) masked_row_example
    = Continue (mkState (pivot_update (LP_matrix masked_row_example) (S l) 0)
                  (update l 0%Z (bases masked_row_example))).
Proof.
  destruct (ratio_test_on_clean_buffer (zero_filled 1) masked_row_example 0)
    as [_ H].
  - exact (bf_wf _ masked_row_example_basic).
  - exact (zero_filled_clean 1).
  - reflexivity.
  - destruct H as (l & Hl & _ & _ & _ & Hc).
    + exists O. split; [simpl; lia|].
      split; [apply Qcltb_lt|apply Qcltb_ge]; reflexivity.
    + exists l. split; [exact Hl|exact Hc].
Defined.

Lemma solve_canonical_LP_clean_witness :
  solve_canonical_LP 5 zero_filled (as_tableau masked_row_example)
    (as_basis masked_row_example)
  = solve_canonical_LP 5 (fun _ _ => Inf) (as_tableau masked_row_example)
      (as_basis masked_row_example).
Proof.
  apply solve_canonical_LP_clean; intros k r; reflexivity.
Defined.

Lemma transform_canonical_idempotent_witness :
  exists st',
    transform_canonical recanon_example = inr st' /\
    transform_canonical st' = inr st'.
Proof.
  eexists. split; [reflexivity|].
  apply (transform_canonical_idempotent recanon_example).
  - exact recanon_example_wf.
  - exact recanon_example_identity.
  - reflexivity.
Defined.

Lemma solve_canonical_LP_index_error_witness :
  solve_canonical_LP 3 zero_filled (Arr2 float64 bad_basis_tableau)
    (Arr1 int64 [5%Z]) = Raised IndexError.
Proof.
  apply (proj1 (solve_canonical_LP_index_error 3 zero_filled
                  bad_basis_tableau [5%Z] eq_refl)).
  intro F. inversion F as [|? ? H _]; subst.
  unfold n_columns, bad_basis_tableau in H; simpl in H. lia.
Defined.

Lemma solve_canonical_LP_no_rows_witness :
  solve_canonical_LP 1 zero_filled
    (as_tableau (mkState [map Qc_of_Z [1; 2; -7]%Z] []))
    (as_basis (mkState [map Qc_of_Z [1; 2; -7]%Z] []))
  = Returned (repeat 0 2) (- nth 2 (map Qc_of_Z [1; 2; -7]%Z) 0)
      (mkState [map Qc_of_Z [1; 2; -7]%Z] []).
Proof.
  apply (proj2 (solve_canonical_LP_no_rows 0 zero_filled
                  (map Qc_of_Z [1; 2; -7]%Z) ltac:(simpl; lia))).
  intros j Hj L. simpl in Hj.
  destruct j as [|[|j]]; try lia; apply Qcltb_lt in L; discriminate L.
Defined.

Lemma postprocess_spec_witness :
  exists out,
    postprocess flipped_example 2 (map Qc_of_Z [5; 3; 2]%Z)
    = inr (firstn 2 out) /\
    length out = 3%nat.
Proof.
  destruct (postprocess_spec flipped_example 2 (map Qc_of_Z [5; 3; 2]%Z))
    as (out & E & L & _).
  - repeat constructor; simpl; lia.
  - repeat constructor. simpl. tauto.
  - repeat constructor; simpl; lia.
  - repeat constructor. simpl. tauto.
  - repeat constructor; simpl; lia.
  - reflexivity.
  - exists out. split; [exact E|exact L].
Defined.

Lemma solve_LP_infeasible_only_if_witness :
  phase1_slack_vars infeasible_example <> [].
Proof.
  apply (solve_LP_infeasible_only_if (fun _ _ _ => infeasible_example) 5
           zero_filled zero_filled phase1_input [1%Z] [1%Z]).
  reflexivity.
Defined.
